(** * scrape_images.py: discovery loop, checkpoint store and download engine

    A shallow embedding of [src/scrape_images.py] and the properties of its
    checkpoint store, its discovery loop and its concurrent download engine.

    Conventions of the embedding:
    - a Python [str] and a [bytes] payload are both a [string], a sequence of
      characters with code points below 256; encoding a text file and decoding
      it again is the identity;
    - the file system is a finite map from paths to file contents;
    - a Python [set] of strings is a [gset string];
    - the network and the faults of the file system are oracles of the
      environment; every request and every sleep is recorded in a trace. *)

From Stdlib Require Import QArith Ascii String.
From stdpp Require Import gmap strings list sorting.

Set Warnings "-clear-no-such-hyp".

Local Open Scope string_scope.
Local Open Scope list_scope.
Local Open Scope nat_scope.

(** ** Configuration (lines 10-25) *)

Definition MAX_WORKERS : nat := 8.
Definition MAX_RETRIES : nat := 4.
Definition BACKOFF_BASE : Q := 3 # 2.
Definition CHECKPOINT_INTERVAL : nat := 5.

(** ** Text primitives of Python used by the program *)

Module Text.

Definition LF : ascii := "010"%char.
Definition CR : ascii := "013"%char.

(** [str.isspace] on the code points below 256: tab, LF, VT, FF, CR,
    the separators 0x1c-0x1f, space, NEL (0x85) and NBSP (0xa0). *)
Definition is_space (c : ascii) : bool :=
  let n := nat_of_ascii c in
  ((9 <=? n) && (n <=? 13)) || ((28 <=? n) && (n <=? 32))
  || (n =? 133) || (n =? 160).

(** [str.lstrip()] *)
Fixpoint lstrip (s : string) : string :=
  match s with
  | EmptyString => EmptyString
  | String c s' => if is_space c then lstrip s' else s
  end.

(** [str.rstrip()] *)
Fixpoint rstrip (s : string) : string :=
  match s with
  | EmptyString => EmptyString
  | String c s' =>
      match rstrip s' with
      | EmptyString => if is_space c then EmptyString else String c EmptyString
      | r => String c r
      end
  end.

(** [str.strip()] *)
Definition strip (s : string) : string := rstrip (lstrip s).

(** Reading in text mode with the default [newline=None]: CR LF and a lone
    CR are both handed to the program as LF. *)
Fixpoint universal_newlines (s : string) : string :=
  match s with
  | EmptyString => EmptyString
  | String c s' =>
      if Ascii.eqb c CR then
        match s' with
        | String c' s'' =>
            if Ascii.eqb c' LF then String LF (universal_newlines s'')
            else String LF (universal_newlines s')
        | EmptyString => String LF EmptyString
        end
      else String c (universal_newlines s')
  end.

(** Iterating over a file object: the lines, each with its terminating LF
    (the last one has none when the text does not end in LF). *)
Fixpoint readlines (s : string) : list string :=
  match s with
  | EmptyString => []
  | String c s' =>
      if Ascii.eqb c LF then String c EmptyString :: readlines s'
      else match readlines s' with
           | [] => [String c EmptyString]
           | l :: ls => String c l :: ls
           end
  end.

(** [for line in f] on a file opened with [open(path, "r")]. *)
Definition file_lines (content : string) : list string :=
  readlines (universal_newlines content).

(** [sorted(xs)] on strings: ascending by code points. *)
Definition sorted (l : list string) : list string := merge_sort String.le l.

(** [sep.join(l)] is [String.concat sep l]. *)
Definition join (sep : string) (l : list string) : string := String.concat sep l.

Definition NL : string := String LF EmptyString.

(** The text made of the given lines, each closed by LF. *)
Definition unlines (l : list string) : string :=
  foldr (λ x acc, x +:+ NL +:+ acc) EmptyString l.

(** The characters of a string. *)
Definition chars (s : string) : list ascii := list_ascii_of_string s.

(** A string free of line breaks. *)
Fixpoint no_linebreak (s : string) : bool :=
  match s with
  | EmptyString => true
  | String c s' => negb (Ascii.eqb c LF) && negb (Ascii.eqb c CR) && no_linebreak s'
  end.

(** A string whose first character is not white space (or which is empty). *)
Definition no_leading_space (s : string) : bool :=
  match s with
  | EmptyString => true
  | String c _ => negb (is_space c)
  end.

(** A string whose last character is not white space (or which is empty). *)
Fixpoint no_trailing_space (s : string) : bool :=
  match s with
  | EmptyString => true
  | String c EmptyString => negb (is_space c)
  | String _ s' => no_trailing_space s'
  end.

End Text.

(** ** The file system *)

(** Paths and contents are strings; a path without an entry does not exist.
    A file is identified by the spelling of its path: two spellings of one
    file (through [.], [..] or a link) would be two entries.  The statements
    about the files of different identifiers are therefore made for
    identifiers that match the pattern of line 14, whose paths are built
    from proper names. *)
Abbreviation filesystem := (gmap string string).

(** [os.path.exists(path)] *)
Definition path_exists (fs : filesystem) (path : string) : bool :=
  bool_decide (is_Some (fs !! path)).

(** The steps of a write as the operating system sees them. *)
Inductive fs_op : Type :=
| OpOpenW (path : string)                 (* open(path, "w"): create or truncate *)
| OpWriteChar (path : string) (c : ascii) (* one more character reaches the file *)
| OpReplace (src dst : string).           (* os.replace(src, dst) *)

Definition apply_op (fs : filesystem) (op : fs_op) : filesystem :=
  match op with
  | OpOpenW p => <[p := EmptyString]> fs
  | OpWriteChar p c =>
      match fs !! p with
      | Some old => <[p := old +:+ String c EmptyString]> fs
      | None => fs
      end
  | OpReplace src dst =>
      match fs !! src with
      | Some content => <[dst := content]> (delete src fs)
      | None => fs
      end
  end.

Definition apply_ops (fs : filesystem) (ops : list fs_op) : filesystem :=
  foldl apply_op fs ops.

(** ** Checkpoint store (lines 33-49) *)

Definition tmp_path_of (path : string) : string := path +:+ ".tmp".

(** Lines 35-37 of [atomic_write]: the temporary sibling is opened and the
    content written to it.  The content reaches the file character by
    character, so that every prefix of the sequence is a state an
    interruption can leave behind. *)
Definition staging_ops (path content : string) : list fs_op :=
  OpOpenW (tmp_path_of path)
  :: (OpWriteChar (tmp_path_of path) <$> list_ascii_of_string content).

(** [atomic_write(path, content)], as the sequence of its effects: the
    staging of the content, then line 38, the rename over the target. *)
Definition atomic_write_ops (path content : string) : list fs_op :=
  staging_ops path content ++ [OpReplace (tmp_path_of path) path].

(** An operation that neither writes to [q] nor renames from or onto it. *)
Definition op_avoids (q : string) (op : fs_op) : Prop :=
  match op with
  | OpOpenW p | OpWriteChar p _ => p ≠ q
  | OpReplace src dst => src ≠ q ∧ dst ≠ q
  end.

Definition atomic_write (fs : filesystem) (path content : string) : filesystem :=
  apply_ops fs (atomic_write_ops path content).

(** [load_checkpoint(path)] *)
Definition load_checkpoint (fs : filesystem) (path : string) : gset string :=
  match fs !! path with
  | None => ∅
  | Some content =>
      list_to_set
        (Text.strip <$>
           filter (λ line, Text.strip line ≠ EmptyString) (Text.file_lines content))
  end.

(** The text [save_checkpoint] writes: ["\n".join(sorted(slugs)) + "\n"]. *)
Definition checkpoint_text (slugs : gset string) : string :=
  Text.join Text.NL (Text.sorted (elements slugs)) +:+ Text.NL.

(** A string the checkpoint file stores and gives back as it is. *)
Definition storable (s : string) : Prop :=
  s ≠ EmptyString ∧ Text.no_leading_space s = true
  ∧ Text.no_trailing_space s = true ∧ Text.no_linebreak s = true.

(** [save_checkpoint(path, slugs)] *)
Definition save_checkpoint (fs : filesystem) (path : string) (slugs : gset string)
  : filesystem :=
  atomic_write fs path (checkpoint_text slugs).

(** The state an interruption after [k] effects of a save leaves behind. *)
Definition save_interrupted (fs : filesystem) (path : string) (slugs : gset string)
    (k : nat) : filesystem :=
  apply_ops fs (take k (atomic_write_ops path (checkpoint_text slugs))).

(** ** The traces of a run *)

Inductive event : Type :=
| EvPost (round : nat)                      (* session.post: one listing request *)
| EvSave (path : string) (slugs : gset string) (* save_checkpoint *)
| EvSleep (seconds : Q)                     (* time.sleep *)
| EvGet (slug : string) (attempt : nat)     (* session.get: one asset request *)
| EvCreate (slug path : string)             (* open(path, "wb") created the file *)
| EvAppend (slug : string)                  (* one line added to the completed log *)
| EvAtomicWrite (path content : string).    (* atomic_write of the failed list *)

(** ** Identifier extraction (line 14 and line 71) *)

Module Regex.

(** The character class of [SLUG_REGEX]: lower-case letters, digits and the hyphen. *)
Definition slug_char (c : ascii) : bool :=
  let n := nat_of_ascii c in
  ((97 <=? n) && (n <=? 122)) || ((48 <=? n) && (n <=? 57)) || (n =? 45).

(** [s.startswith(p)], returning what follows the prefix. *)
Fixpoint strip_prefix (p s : string) : option string :=
  match p with
  | EmptyString => Some s
  | String c p' =>
      match s with
      | String d s' => if Ascii.eqb c d then strip_prefix p' s' else None
      | EmptyString => None
      end
  end.

(** The longest run of class characters at the head of [s], and the rest. *)
Fixpoint take_class (s : string) : string * string :=
  match s with
  | String c s' =>
      if slug_char c then let '(run, rest) := take_class s' in (String c run, rest)
      else (EmptyString, s)
  | EmptyString => (EmptyString, EmptyString)
  end.

(** A match of [api/icon/128/([a-z0-9\-]+)\.png] at the head of [s]: the
    captured group and the length of the whole match.  The class excludes
    the dot, so only the longest run can be followed by [.png]. *)
Definition match_at (s : string) : option (string * nat) :=
  match strip_prefix "api/icon/128/" s with
  | None => None
  | Some rest =>
      let '(run, rest') := take_class rest in
      match run with
      | EmptyString => None
      | _ =>
          match strip_prefix ".png" rest' with
          | Some _ => Some (run, 13 + String.length run + 4)
          | None => None
          end
      end
  end.

(** [SLUG_REGEX.findall(text)]: the groups of the non-overlapping matches,
    left to right; [skip] characters of a match are still to be passed. *)
Fixpoint findall_go (skip : nat) (s : string) : list string :=
  match s with
  | EmptyString => []
  | String _ s' =>
      match skip with
      | S k => findall_go k s'
      | O =>
          match match_at s with
          | Some (slug, len) => slug :: findall_go (len - 1) s'
          | None => findall_go 0 s'
          end
      end
  end.

Definition findall (text : string) : list string := findall_go 0 text.

(** A string the pattern can capture. *)
Fixpoint all_slug_chars (s : string) : bool :=
  match s with
  | EmptyString => true
  | String c s' => slug_char c && all_slug_chars s'
  end.

Definition is_slug (s : string) : bool :=
  match s with
  | EmptyString => false
  | _ => all_slug_chars s
  end.

End Regex.

(** ** Discovery engine (lines 51-96) *)

Record scrape_state : Type := ScrapeState {
  ss_slugs : gset string;     (* slugs *)
  ss_rounds : nat;            (* rounds *)
  ss_new_since_save : nat;    (* new_since_save *)
  ss_fs : filesystem;
  ss_trace : list event
}.

(** The body of the [for slug in SLUG_REGEX.findall(r.text)] loop, on the
    triple (slugs, found, new_since_save). *)
Definition add_slug (acc : gset string * nat * nat) (slug : string)
  : gset string * nat * nat :=
  let '(slugs, found, nss) := acc in
  if decide (slug ∈ slugs) then acc else ({[slug]} ∪ slugs, S found, S nss).

Definition scan_round (slugs : gset string) (nss : nat) (text : string)
  : gset string * nat * nat :=
  foldl add_slug (slugs, 0, nss) (Regex.findall text).

(** Lines 79-84: the periodic checkpoint at the end of a round. *)
Definition maybe_checkpoint (path : string) (st : scrape_state) : scrape_state :=
  if CHECKPOINT_INTERVAL <=? ss_new_since_save st then
    {| ss_slugs := ss_slugs st;
       ss_rounds := ss_rounds st;
       ss_new_since_save := 0;
       ss_fs := save_checkpoint (ss_fs st) path (ss_slugs st);
       ss_trace := ss_trace st ++ [EvSave path (ss_slugs st)] |}
  else st.

(** Lines 62-77: the request of a round and the scan of its answer; [inl]
    when [session.post] raises, [inr] with the count [found] otherwise. *)
Definition scrape_request (listing : nat → option string) (st : scrape_state)
  : scrape_state + scrape_state * nat :=
  let rounds := S (ss_rounds st) in
  match listing rounds with
  | None =>
      inl {| ss_slugs := ss_slugs st;
             ss_rounds := rounds;
             ss_new_since_save := ss_new_since_save st;
             ss_fs := ss_fs st;
             ss_trace := ss_trace st ++ [EvPost rounds] |}
  | Some text =>
      let '(slugs, found, nss) := scan_round (ss_slugs st) (ss_new_since_save st) text in
      inr ({| ss_slugs := slugs;
              ss_rounds := rounds;
              ss_new_since_save := nss;
              ss_fs := ss_fs st;
              ss_trace := ss_trace st ++ [EvPost rounds] |}, found)
  end.

(** The state after the request and the scan of a round that answers [text]. *)
Definition scanned (st : scrape_state) (text : string) : scrape_state :=
  let known := ss_slugs st ∪ list_to_set (Regex.findall text) in
  {| ss_slugs := known;
     ss_rounds := S (ss_rounds st);
     ss_new_since_save := ss_new_since_save st + (size known - size (ss_slugs st));
     ss_fs := ss_fs st;
     ss_trace := ss_trace st ++ [EvPost (S (ss_rounds st))] |}.

Definition INTER_ROUND_DELAY : Q := 6 # 10.

Definition slept (st : scrape_state) : scrape_state :=
  {| ss_slugs := ss_slugs st;
     ss_rounds := ss_rounds st;
     ss_new_since_save := ss_new_since_save st;
     ss_fs := ss_fs st;
     ss_trace := ss_trace st ++ [EvSleep INTER_ROUND_DELAY] |}.

Inductive loop_result : Type :=
| LoopExit (st : scrape_state)       (* break: the round found nothing new *)
| LoopRaised (st : scrape_state)     (* the listing request raised *)
| LoopRunning (st : scrape_state).   (* still looping when the fuel ran out *)

(** The [while True] loop of lines 61-89; [listing r] is the body of the
    answer to the [r]-th request of the run. *)
Fixpoint scrape_loop (listing : nat → option string) (path : string)
    (fuel : nat) (st : scrape_state) : loop_result :=
  match fuel with
  | O => LoopRunning st
  | S fuel' =>
      match scrape_request listing st with
      | inl st1 => LoopRaised st1
      | inr (st1, found) =>
          let st2 := maybe_checkpoint path st1 in
          if found =? 0 then LoopExit st2
          else scrape_loop listing path fuel' (slept st2)
      end
  end.

Definition scrape_init (fs : filesystem) (path : string) : scrape_state :=
  {| ss_slugs := load_checkpoint fs path;
     ss_rounds := 0;
     ss_new_since_save := 0;
     ss_fs := fs;
     ss_trace := [] |}.

(** Lines 91-94: the final save. *)
Definition final_save (path : string) (st : scrape_state) : scrape_state :=
  {| ss_slugs := ss_slugs st;
     ss_rounds := ss_rounds st;
     ss_new_since_save := ss_new_since_save st;
     ss_fs := save_checkpoint (ss_fs st) path (ss_slugs st);
     ss_trace := ss_trace st ++ [EvSave path (ss_slugs st)] |}.

Inductive scrape_result : Type :=
| ScrapeReturned (slugs : list string) (st : scrape_state) (* return list(slugs) *)
| ScrapeRaised (st : scrape_state)
| ScrapeRunning (st : scrape_state).

(** [scrape_slugs(headers, checkpoint_path)] *)
Definition scrape_slugs (listing : nat → option string) (path : string)
    (fuel : nat) (fs : filesystem) : scrape_result :=
  match scrape_loop listing path fuel (scrape_init fs path) with
  | LoopExit st => ScrapeReturned (elements (ss_slugs st)) (final_save path st)
  | LoopRaised st => ScrapeRaised st
  | LoopRunning st => ScrapeRunning st
  end.

(** The set the checkpoint file holds according to a trace: the one of the
    last save, or [S0], the set loaded at the start, when there was none. *)
Fixpoint last_saved (S0 : gset string) (trace : list event) : gset string :=
  match trace with
  | [] => S0
  | EvSave _ slugs :: t => last_saved slugs t
  | _ :: t => last_saved S0 t
  end.

(** The state of the discovery between two rounds: [new_since_save] counts
    the identifiers the set holds beyond the last save, and the threshold is
    not reached. *)
Definition round_boundary (S0 : gset string) (st : scrape_state) : Prop :=
  last_saved S0 (ss_trace st) ⊆ ss_slugs st
  ∧ size (ss_slugs st) = size (last_saved S0 (ss_trace st)) + ss_new_since_save st
  ∧ ss_new_since_save st < CHECKPOINT_INTERVAL.

Definition loop_state (r : loop_result) : scrape_state :=
  match r with
  | LoopExit st | LoopRaised st | LoopRunning st => st
  end.

(** The set of identifiers after [r] rounds, as the union of what the
    listing showed so far. *)
Fixpoint slugs_after (listing : nat → option string) (S0 : gset string) (r : nat)
  : gset string :=
  match r with
  | O => S0
  | S r' =>
      slugs_after listing S0 r'
      ∪ list_to_set (Regex.findall (default EmptyString (listing r)))
  end.

(** The set of a state is the one its number of rounds gives. *)
Definition follows_listing (listing : nat → option string) (S0 : gset string)
    (st : scrape_state) : Prop :=
  ss_slugs st = slugs_after listing S0 (ss_rounds st).

(** The number of identifiers round [r] (counted from 1) adds. *)
Definition new_in_round (listing : nat → option string) (S0 : gset string) (r : nat)
  : nat :=
  size (slugs_after listing S0 r) - size (slugs_after listing S0 (r - 1)).

(** ** Paths (lines 100-103 and 145-147) *)

Module Path.

Definition SEP : ascii := "/"%char.

Definition starts_with_sep (s : string) : bool :=
  match s with
  | String c _ => Ascii.eqb c SEP
  | EmptyString => false
  end.

Fixpoint ends_with_sep (s : string) : bool :=
  match s with
  | EmptyString => false
  | String c EmptyString => Ascii.eqb c SEP
  | String _ s' => ends_with_sep s'
  end.

(** One step of [posixpath.join]: an absolute component restarts the path. *)
Definition join2 (a b : string) : string :=
  if starts_with_sep b then b
  else if bool_decide (a = EmptyString) || ends_with_sep a then a +:+ b
  else a +:+ String SEP EmptyString +:+ b.

(** [os.path.join(a, *ps)] *)
Definition join (a : string) (ps : list string) : string := foldl join2 a ps.

(** What [join2] puts before a component that is not absolute. *)
Definition join_prefix (a : string) : string :=
  if bool_decide (a = EmptyString) || ends_with_sep a then a
  else a +:+ String SEP EmptyString.

(** The last character of a path. *)
Fixpoint last_char (s : string) : option ascii :=
  match s with
  | EmptyString => None
  | String c EmptyString => Some c
  | String _ s' => last_char s'
  end.

End Path.

Definition img_dir (out_dir : string) : string :=
  Path.join out_dir ["piixes.com"; "api"; "icon"; "512"].

Definition image_path (out_dir slug : string) : string :=
  Path.join (img_dir out_dir) [slug +:+ ".png"].

Definition checkpoint_path_of (out_dir : string) : string :=
  Path.join out_dir ["slugs_checkpoint.txt"].
Definition completed_path_of (out_dir : string) : string :=
  Path.join out_dir ["completed_downloads.txt"].
Definition failed_path_of (out_dir : string) : string :=
  Path.join out_dir ["failed_downloads.txt"].

(** ** The environment of the download phase *)

(** The answer to one [session.get]: an exception of the transport (time-out,
    connection error), or a status code and a body. *)
Inductive response : Type :=
| ConnError
| Response (status : Z) (content : string).

(** What [open(path, "wb")] followed by [f.write(r.content)] does. *)
Inductive write_result : Type :=
| WriteDone                   (* the whole payload is stored *)
| OpenRaises                  (* OSError from open: no file is created *)
| WriteRaises (written : nat).  (* the file is created, OSError after [written] bytes *)

Record environment : Type := Environment {
  net_get : string → nat → response;          (* per slug and attempt *)
  makedirs_raises : string → bool;            (* os.makedirs(img_dir) raises *)
  file_write : string → nat → write_result;   (* per slug and attempt *)
  append_raises : string → nat → bool         (* the append to the log raises *)
}.

(** The fault [append_raises] stands for is one of [open(completed_path, "a")]:
    nothing is added to the log.  A write that raises after a part of the
    line is stored is not represented; the statements on the content of the
    log are made for environments in which no append raises. *)

(** Line 116 and the [except] clause: an attempt whose request raises or is
    answered with a status other than 200 has failed. *)
Definition attempt_fails (env : environment) (slug : string) (n : nat) : bool :=
  match net_get env slug n with
  | ConnError => true
  | Response status _ => negb (status =? 200)%Z
  end.

(** ** Fetch worker (lines 98-139) *)

Inductive outcome : Type := Ok | Skip | Dedup | Fail.

Global Instance outcome_eq_dec : EqDecision outcome.
Proof. solve_decision. Defined.

(** The control points of [download] at which another thread can run. *)
Inductive wstate : Type :=
| Pending                                   (* submitted, not started *)
| Attempting (attempt : nat)                (* line 111: about to call session.get *)
| Fetched (attempt : nat) (content : string) (* line 121: about to take the lock *)
| Claimed (attempt : nat) (content : string) (* line 126: digest registered *)
| Written (attempt : nat)                   (* line 130: payload stored *)
| Returned (o : outcome)                    (* return "..." *)
| Raised.                                   (* an exception left the function *)

(** The state the workers share. *)
Record store : Type := Store {
  st_fs : filesystem;
  st_seen : gset string;      (* seen_hashes *)
  st_trace : list event
}.

Definition log (σ : store) (e : event) : store :=
  {| st_fs := st_fs σ; st_seen := st_seen σ; st_trace := st_trace σ ++ [e] |}.

Definition set_fs (σ : store) (fs : filesystem) : store :=
  {| st_fs := fs; st_seen := st_seen σ; st_trace := st_trace σ |}.

Definition add_seen (σ : store) (digest : string) : store :=
  {| st_fs := st_fs σ; st_seen := {[digest]} ∪ st_seen σ; st_trace := st_trace σ |}.

(** [open(path, "a")] and one [write]. *)
Definition append_file (fs : filesystem) (path text : string) : filesystem :=
  <[path := default EmptyString (fs !! path) +:+ text]> fs.

(** The events a worker for [slug] adds to the trace. *)
Definition worker_event (slug : string) (e : event) : Prop :=
  match e with
  | EvGet s _ | EvCreate s _ | EvAppend s => s = slug
  | EvSleep _ => True
  | _ => False
  end.

(** The delay of line 139. *)
Definition backoff (attempt : nat) : Q := (BACKOFF_BASE ^ Z.of_nat attempt)%Q.

(** The trace of three failed attempts and a fourth request. *)
Definition retry_trace (slug : string) : list event :=
  [EvGet slug 1; EvSleep (backoff 1);
   EvGet slug 2; EvSleep (backoff 2);
   EvGet slug 3; EvSleep (backoff 3);
   EvGet slug 4].

(** Lines 136-139: the [except Exception] clause, entered in attempt [n]. *)
Definition on_exception (n : nat) (σ : store) : wstate * store :=
  if n =? MAX_RETRIES then (Returned Fail, σ)
  else (Attempting (S n), log σ (EvSleep (backoff n))).

Section Download.

(** [hashlib.sha256(data).hexdigest()] *)
Variable sha256 : string → string.
Variable env : environment.
Variable out_dir : string.

(** One step of [download(slug, out_dir, seen_hashes, completed_path)]
    from a control point to the next. *)
Definition wstep (slug : string) (w : wstate) (σ : store) : wstate * store :=
  let path := image_path out_dir slug in
  match w with
  | Pending =>
      if makedirs_raises env slug then (Raised, σ)
      else if path_exists (st_fs σ) path then (Returned Skip, σ)
      else (Attempting 1, σ)
  | Attempting n =>
      let σ1 := log σ (EvGet slug n) in
      match net_get env slug n with
      | ConnError => on_exception n σ1
      | Response status content =>
          if (status =? 200)%Z then (Fetched n content, σ1)
          else on_exception n σ1
      end
  | Fetched n content =>
      let digest := sha256 content in
      if decide (digest ∈ st_seen σ) then (Returned Dedup, σ)
      else (Claimed n content, add_seen σ digest)
  | Claimed n content =>
      match file_write env slug n with
      | WriteDone =>
          (Written n, log (set_fs σ (<[path := content]> (st_fs σ))) (EvCreate slug path))
      | OpenRaises => on_exception n σ
      | WriteRaises k =>
          on_exception n
            (log (set_fs σ (<[path := substring 0 k content]> (st_fs σ)))
               (EvCreate slug path))
      end
  | Written n =>
      if append_raises env slug n then on_exception n σ
      else (Returned Ok,
            log (set_fs σ (append_file (st_fs σ) (completed_path_of out_dir)
                             (slug +:+ Text.NL)))
              (EvAppend slug))
  | Returned _ | Raised => (w, σ)
  end.

Definition finished (w : wstate) : bool :=
  match w with
  | Returned _ | Raised => true
  | _ => false
  end.

(** [download] run on its own, from its call to its return. *)
Fixpoint fetch_loop (fuel : nat) (slug : string) (w : wstate) (σ : store)
  : wstate * store :=
  match fuel with
  | O => (w, σ)
  | S fuel' =>
      if finished w then (w, σ)
      else let '(w', σ') := wstep slug w σ in fetch_loop fuel' slug w' σ'
  end.

Definition FETCH_STEPS : nat := 1 + 4 * MAX_RETRIES.

(** The control points [download] can be at: the attempt is in
    [range(1, MAX_RETRIES + 1)]. *)
Definition valid_wstate (w : wstate) : Prop :=
  match w with
  | Attempting n | Fetched n _ | Claimed n _ | Written n => 1 ≤ n ≤ MAX_RETRIES
  | _ => True
  end.

(** A bound on the steps [download] still takes from a control point. *)
Definition steps_left (w : wstate) : nat :=
  match w with
  | Pending => FETCH_STEPS
  | Attempting n => 4 * (S MAX_RETRIES - n)
  | Fetched n _ => 4 * (S MAX_RETRIES - n) - 1
  | Claimed n _ => 4 * (S MAX_RETRIES - n) - 2
  | Written n => 4 * (S MAX_RETRIES - n) - 3
  | Returned _ | Raised => 0
  end.

Definition fetch (slug : string) (σ : store) : wstate * store :=
  fetch_loop FETCH_STEPS slug Pending σ.

End Download.

(** ** Download coordinator (lines 181-221 of [main]) *)

(** The dictionary [results]. *)
Record tally : Type := Tally { n_ok : nat; n_skip : nat; n_dedup : nat; n_fail : nat }.

Definition bump (o : outcome) (t : tally) : tally :=
  match o with
  | Ok => {| n_ok := S (n_ok t); n_skip := n_skip t; n_dedup := n_dedup t; n_fail := n_fail t |}
  | Skip => {| n_ok := n_ok t; n_skip := S (n_skip t); n_dedup := n_dedup t; n_fail := n_fail t |}
  | Dedup => {| n_ok := n_ok t; n_skip := n_skip t; n_dedup := S (n_dedup t); n_fail := n_fail t |}
  | Fail => {| n_ok := n_ok t; n_skip := n_skip t; n_dedup := n_dedup t; n_fail := S (n_fail t) |}
  end.

Record dstate : Type := DState {
  d_store : store;
  d_workers : list (string * wstate);  (* the futures, in submission order *)
  d_collected : list nat;              (* futures [as_completed] has handed out *)
  d_results : tally;                   (* results *)
  d_failed : list string;              (* failed_slugs *)
  d_aborted : bool                     (* future.result() re-raised in main *)
}.

(** The identifiers of the futures whose result is ["fail"]. *)
Definition failing (ws : list (string * wstate)) : list string :=
  omap (λ sw : string * wstate,
          match sw.2 with Returned Fail => Some sw.1 | _ => None end) ws.

(** The same, for the futures of the given indices. *)
Definition failing_at (ws : list (string * wstate)) (idxs : list nat) : list string :=
  omap (λ i, match ws !! i with
             | Some (slug, Returned Fail) => Some slug
             | _ => None
             end) idxs.

(** What the main thread holds is what it has collected: each future once,
    returned, and the failed ones in the order it took them. *)
Definition collected_ok (st : dstate) : Prop :=
  NoDup (d_collected st)
  ∧ (∀ i, i ∈ d_collected st → ∃ slug o, d_workers st !! i = Some (slug, Returned o))
  ∧ d_failed st = failing_at (d_workers st) (reverse (d_collected st)).

(** An event other than the write of the failed list. *)
Definition not_list_write (e : event) : Prop :=
  ∀ path content, e ≠ EvAtomicWrite path content.

(** The control points at which the image file of the worker exists. *)
Definition has_file (w : wstate) : Prop :=
  match w with
  | Written _ | Returned Ok | Returned Skip => True
  | _ => False
  end.

(** What the state of a worker tells about [os.makedirs]: it raised when
    the worker has, and it did not when the worker got past it. *)
Definition makedirs_seen (env : environment) (slug : string) (w : wstate) : Prop :=
  match w with
  | Pending => True
  | Raised => makedirs_raises env slug = true
  | _ => makedirs_raises env slug = false
  end.

(** The control points a worker can be at when its image file was there
    before it started. *)
Definition skipping (w : wstate) : Prop :=
  w = Pending ∨ w = Returned Skip ∨ w = Raised.

(** *** Two identifiers with one payload *)

(** The control points past the registration of the digest. *)
Definition claimed (w : wstate) : Prop :=
  match w with
  | Claimed _ _ | Written _ | Returned Ok => True
  | _ => False
  end.

(** The control points past the write of the payload. *)
Definition stored (w : wstate) : bool :=
  match w with
  | Written _ | Returned Ok => true
  | _ => false
  end.

(** The number of files the worker of [slug] has created according to a trace. *)
Definition creates_for (slug : string) (e : event) : bool :=
  match e with
  | EvCreate s _ => bool_decide (s = slug)
  | _ => false
  end.

Definition creations (slug : string) (trace : list event) : nat :=
  length (filter (λ e, creates_for slug e = true) trace).

(** The endpoint answers the request for [slug] with the payload [p] in
    attempt [k], after failures only, and the payload and the log line can
    be written in that attempt. *)
Definition downloads (env : environment) (slug : string) (k : nat) (p : string) : Prop :=
  1 ≤ k ≤ MAX_RETRIES
  ∧ (∀ n, 1 ≤ n < k → attempt_fails env slug n = true)
  ∧ net_get env slug k = Response 200 p
  ∧ file_write env slug k = WriteDone
  ∧ append_raises env slug k = false.

(** The control points of a worker that gets the payload [p] in attempt [k]. *)
Definition on_course (k : nat) (p : string) (w : wstate) : Prop :=
  match w with
  | Pending => True
  | Attempting n => 1 ≤ n ≤ k
  | Fetched n c | Claimed n c => n = k ∧ c = p
  | Written n => n = k
  | Returned Ok | Returned Dedup => True
  | _ => False
  end.

(** A payload a worker holds is one the endpoint sent for its identifier. *)
Definition from_net (env : environment) (slug : string) (w : wstate) : Prop :=
  match w with
  | Fetched n c | Claimed n c => net_get env slug n = Response 200 c
  | _ => True
  end.

(** One of the two workers, at [w], and what the store holds for it. *)
Definition twin_side (out_dir p x : string) (k : nat) (w : wstate) (σ : store) : Prop :=
  on_course k p w
  ∧ st_fs σ !! image_path out_dir x = (if stored w then Some p else None)
  ∧ creations x (st_trace σ) = (if stored w then 1 else 0).

(** The two workers together: the digest is registered exactly when one of
    them has claimed it, at most one has, and one that returned ["dedup"]
    saw the claim of the other. *)
Definition twin_inv (sha256 : string → string) (out_dir p a b : string)
    (ka kb ia ib : nat) (σ : store) (ws : list (string * wstate)) : Prop :=
  ∃ wa wb,
    ws !! ia = Some (a, wa) ∧ ws !! ib = Some (b, wb)
    ∧ twin_side out_dir p a ka wa σ ∧ twin_side out_dir p b kb wb σ
    ∧ (sha256 p ∈ st_seen σ ↔ claimed wa ∨ claimed wb)
    ∧ ¬ (claimed wa ∧ claimed wb)
    ∧ (wa = Returned Dedup → claimed wb)
    ∧ (wb = Returned Dedup → claimed wa).

(** What the scheduler can do next: run worker [i] up to its next control
    point, or let the main thread take future [i] from [as_completed]. *)
Inductive action : Type :=
| Step (i : nat)
| Collect (i : nat).

(** The number of futures before [i] that occupy a thread of the pool. *)
Definition running_before (ws : list (string * wstate)) (i : nat) : nat :=
  length (filter (λ sw : string * wstate, finished sw.2 = false) (take i ws)).

(** The pool takes the futures in submission order, [MAX_WORKERS] at a time. *)
Definition can_run (ws : list (string * wstate)) (i : nat) : bool :=
  running_before ws i <? MAX_WORKERS.

Section Coordinator.

Variable sha256 : string → string.
Variable env : environment.
Variable out_dir : string.

Definition exec (st : dstate) (a : action) : dstate :=
  match a with
  | Step i =>
      match d_workers st !! i with
      | Some (slug, w) =>
          if can_run (d_workers st) i then
            let '(w', σ') := wstep sha256 env out_dir slug w (d_store st) in
            {| d_store := σ';
               d_workers := <[i := (slug, w')]> (d_workers st);
               d_collected := d_collected st;
               d_results := d_results st;
               d_failed := d_failed st;
               d_aborted := d_aborted st |}
          else st
      | None => st
      end
  | Collect i =>
      if d_aborted st || bool_decide (i ∈ d_collected st) then st
      else
        match d_workers st !! i with
        | Some (slug, Returned o) =>
            {| d_store := d_store st;
               d_workers := d_workers st;
               d_collected := i :: d_collected st;
               d_results := bump o (d_results st);
               d_failed := if decide (o = Fail) then d_failed st ++ [slug]
                           else d_failed st;
               d_aborted := false |}
        | Some (slug, Raised) =>
            {| d_store := d_store st;
               d_workers := d_workers st;
               d_collected := d_collected st;
               d_results := d_results st;
               d_failed := d_failed st;
               d_aborted := true |}
        | _ => st
        end
  end.

(** The state after a step of worker [i], which runs [slug] and is at [w]. *)
Definition stepped (st : dstate) (i : nat) (slug : string) (w : wstate) : dstate :=
  {| d_store := (wstep sha256 env out_dir slug w (d_store st)).2;
     d_workers := <[i := (slug, (wstep sha256 env out_dir slug w (d_store st)).1)]> (d_workers st);
     d_collected := d_collected st;
     d_results := d_results st;
     d_failed := d_failed st;
     d_aborted := d_aborted st |}.

Definition run (sched : list action) (st : dstate) : dstate := foldl exec st sched.

(** Lines 195-203: the state when the futures are submitted. *)
Definition submit (fs : filesystem) (slugs_to_download : list string) : dstate :=
  {| d_store := {| st_fs := fs; st_seen := ∅; st_trace := [] |};
     d_workers := (λ slug, (slug, Pending)) <$> slugs_to_download;
     d_collected := [];
     d_results := {| n_ok := 0; n_skip := 0; n_dedup := 0; n_fail := 0 |};
     d_failed := [];
     d_aborted := false |}.

Definition all_finished (st : dstate) : bool :=
  forallb (λ sw : string * wstate, finished sw.2) (d_workers st).

Definition all_collected (st : dstate) : bool :=
  forallb (λ i, bool_decide (i ∈ d_collected st)) (seq 0 (length (d_workers st))).

(** Lines 214-217: the failed list is written when it is not empty. *)
Definition save_failed (st : dstate) : dstate :=
  match d_failed st with
  | [] => st
  | _ =>
      let path := failed_path_of out_dir in
      let content := Text.join Text.NL (d_failed st) +:+ Text.NL in
      {| d_store := log (set_fs (d_store st) (atomic_write (st_fs (d_store st)) path content))
                      (EvAtomicWrite path content);
         d_workers := d_workers st;
         d_collected := d_collected st;
         d_results := d_results st;
         d_failed := d_failed st;
         d_aborted := d_aborted st |}
  end.

Inductive run_result : Type :=
| NothingToDo                    (* line 189: everything was completed before *)
| RunDone (st : dstate)          (* main reached its end *)
| RunAborted (st : dstate)       (* an exception of a worker left main *)
| RunUnfinished (st : dstate).   (* the schedule stops before the run does *)

(** The download phase of [main] under the schedule [sched]. *)
Definition downloadAll (slugs : list string) (sched : list action) (fs : filesystem)
  : run_result :=
  let completed := load_checkpoint fs (completed_path_of out_dir) in
  let slugs_to_download := filter (λ s, s ∉ completed) slugs in
  match slugs_to_download with
  | [] => NothingToDo
  | _ =>
      let st := run sched (submit fs slugs_to_download) in
      if negb (all_finished st) then RunUnfinished st
      else if d_aborted st then RunAborted st
      else if negb (all_collected st) then RunUnfinished st
      else RunDone (save_failed st)
  end.

(** The state a run ends in, when it started any future. *)
Definition result_state (r : run_result) : option dstate :=
  match r with
  | NothingToDo => None
  | RunDone st | RunAborted st | RunUnfinished st => Some st
  end.

(** The schedule that runs the futures one after the other, each collected
    on its return. *)
Definition sequential (n : nat) : list action :=
  flat_map (λ i, (repeat (Step i) FETCH_STEPS ++ [Collect i])%list) (seq 0 n).

End Coordinator.

(** ** Concrete inputs used by the examples below *)

Module Examples.

(** A listing endpoint with three identifiers, two per round. *)
Definition listing3 (round : nat) : option string :=
  match round with
  | 1 => Some "<a href=api/icon/128/alpha.png> <a href=api/icon/128/beta-2.png>"
  | _ => Some "<a href=api/icon/128/gamma.png>"
  end.

(** A listing endpoint with one identifier. *)
Definition listing1 (round : nat) : option string :=
  Some "api/icon/128/alpha.png".

(** A checkpoint file left by an earlier run. *)
Definition fs_resumed : filesystem :=
  {[ "slugs_checkpoint.txt" := "zeta" +:+ Text.NL ]}.

(** A state at the end of a round whose counter has reached the threshold. *)
Definition st_due : scrape_state :=
  {| ss_slugs := {["a"; "b"; "c"; "d"; "e"]};
     ss_rounds := 1;
     ss_new_since_save := 5;
     ss_fs := ∅;
     ss_trace := [EvPost 1] |}.

End Examples.

Module DownloadExamples.

(** A stand-in for the digest in the examples: the payload itself. *)
Definition digest (data : string) : string := data.

Definition no_faults_net (net : string → nat → response) : environment :=
  {| net_get := net;
     makedirs_raises := λ _, false;
     file_write := λ _ _, WriteDone;
     append_raises := λ _ _, false |}.

(** An endpoint that fails three times and then answers. *)
Definition env_retry : environment :=
  no_faults_net (λ _ n, if n <? 4 then Response 503 "busy" else Response 200 "PNG-1").

(** An endpoint that never answers. *)
Definition env_down : environment :=
  no_faults_net (λ _ _, ConnError).

(** The failed list an earlier run left behind. *)
Definition fs_stale : filesystem :=
  {[ failed_path_of "out" := "omega" +:+ Text.NL ]}.

(** An endpoint that answers at once; [beta] and [gamma] have the same
    payload. *)
Definition env_up : environment :=
  no_faults_net (λ slug _,
    if bool_decide (slug = "alpha") then Response 200 "PNG-1" else Response 200 "PNG-2").

(** An endpoint with one payload for all identifiers. *)
Definition env_same : environment :=
  no_faults_net (λ _ _, Response 200 "PNG-1").

(** A schedule of two workers in which the second claims the digest
    between two steps of the first. *)
Definition interleaved : list action :=
  [Step 0; Step 1; Step 0; Step 1; Step 1; Step 0; Step 0;
   Step 1; Step 1; Collect 1; Collect 0].

(** As [env_up], but the disk is full when the first payload is written:
    the file is created and the write raises after two bytes. *)
Definition env_disk_full : environment :=
  {| net_get := net_get env_up;
     makedirs_raises := λ _, false;
     file_write := λ _ n, if n =? 1 then WriteRaises 2 else WriteDone;
     append_raises := λ _ _, false |}.

(** As [env_up], but [beta] cannot be fetched. *)
Definition env_beta_down : environment :=
  no_faults_net (λ slug _,
    if bool_decide (slug = "beta") then ConnError else Response 200 "PNG-1").

Definition empty_store : store :=
  {| st_fs := ∅; st_seen := ∅; st_trace := [] |}.

(** A registry that holds the digest of the payload of [env_retry]. *)
Definition store_seen : store :=
  {| st_fs := ∅; st_seen := {[digest "PNG-1"]}; st_trace := [] |}.

End DownloadExamples.

(** ** Further notions used by the properties below *)

(** The text of a link to the icon of [slug], as the pattern of line 14
    reads it. *)
Definition icon_link (slug : string) : string :=
  "api/icon/128/" +:+ slug +:+ ".png".

(** A listing made of links, each followed by some other text. *)
Definition listing_page (pre : string) (items : list (string * string)) : string :=
  pre +:+ foldr (λ it acc, icon_link it.1 +:+ it.2 +:+ acc) EmptyString items.

(** A text in which no match of the pattern can start: it has no [a]. *)
Definition no_match_start (s : string) : Prop :=
  Forall (λ c, c ≠ "a"%char) (Text.chars s).

(** The state of the discovery agrees with the disk: the set holds
    identifiers the checkpoint file gives back as they are, and the file
    holds the set of the last save ([S0] before the first). *)
Definition disk_ok (path : string) (S0 : gset string) (st : scrape_state) : Prop :=
  (∀ s, s ∈ ss_slugs st → storable s)
  ∧ load_checkpoint (ss_fs st) path = last_saved S0 (ss_trace st).

(** ** The checkpoint policy, in the words of the specification *)








(** ** Notions used by the properties of the download phase *)

(** The entry of the dictionary [results] for an outcome. *)
Definition count_of (o : outcome) (t : tally) : nat :=
  match o with
  | Ok => n_ok t
  | Skip => n_skip t
  | Dedup => n_dedup t
  | Fail => n_fail t
  end.

(** The worker has returned [o]. *)
Definition returns (o : outcome) (w : wstate) : bool :=
  match w with
  | Returned o' => bool_decide (o' = o)
  | _ => false
  end.

(** The identifiers of the futures that returned [o], in submission order. *)
Definition returned_with (o : outcome) (ws : list (string * wstate)) : list string :=
  (filter (λ sw : string * wstate, returns o sw.2 = true) ws).*1.

(** The outcome of future [i], when it has returned. *)
Definition outcome_at (ws : list (string * wstate)) (i : nat) : option outcome :=
  match ws !! i with
  | Some (_, Returned o) => Some o
  | _ => None
  end.

(** A download that has started and not ended: it occupies a thread of
    the pool. *)
Definition in_progress (w : wstate) : bool :=
  match w with
  | Pending | Returned _ | Raised => false
  | _ => true
  end.

(** The attempts of the requests for [slug] in a trace, in order. *)
Definition requests (slug : string) (trace : list event) : list nat :=
  omap (λ e, match e with
             | EvGet s n => if decide (s = slug) then Some n else None
             | _ => None
             end) trace.

(** A worker at [w] has sent [k] requests. *)
Definition attempts_made (w : wstate) (k : nat) : Prop :=
  match w with
  | Pending | Returned Skip | Raised => k = 0
  | Attempting n => n = S k
  | Fetched n _ | Claimed n _ | Written n => n = k
  | Returned Fail => k = MAX_RETRIES
  | Returned _ => 1 ≤ k
  end.

(** The payload a worker at [w] has registered and is about to store, or
    has stored. *)
Definition holds (out_dir : string) (σ : store) (slug : string) (w : wstate)
    (c : string) : Prop :=
  match w with
  | Claimed _ c' => c' = c
  | Written _ | Returned Ok => st_fs σ !! image_path out_dir slug = Some c
  | _ => False
  end.

(** The identifiers of the lines added to the log of completed downloads,
    in order. *)
Definition appended (trace : list event) : list string :=
  omap (λ e, match e with EvAppend s => Some s | _ => None end) trace.

(** A text that is empty or ends with a line feed: the next line written
    after it starts a line. *)
Definition closed_text (c : string) : Prop :=
  c = EmptyString ∨ ∃ c', c = c' +:+ Text.NL.

(** [download] called for the identifiers one after the other. *)
Fixpoint fetch_each (sha256 : string → string) (env : environment) (out_dir : string)
    (ids : list string) (σ : store) : list (string * wstate) * store :=
  match ids with
  | [] => ([], σ)
  | slug :: rest =>
      let '(w, σ') := fetch sha256 env out_dir slug σ in
      let '(ws, σ'') := fetch_each sha256 env out_dir rest σ' in
      ((slug, w) :: ws, σ'')
  end.

(** ** The files of the output folder by name *)

(** A proper name of a directory entry: not empty, without separator, and
    neither [.] nor [..]. *)
Definition is_name (s : string) : bool :=
  negb (String.eqb s "") && negb (String.eqb s ".") && negb (String.eqb s "..")
  && forallb (λ c, negb (Ascii.eqb c Path.SEP)) (Text.chars s).

(** The names that lead from the output folder to the image file of
    [slug] (lines 100-103). *)
Definition image_names (slug : string) : list string :=
  ["piixes.com"; "api"; "icon"; "512"; slug +:+ ".png"].

(** The names of the files a session keeps in the output folder itself
    (lines 145-147): the checkpoint, the log of completed downloads and the
    failed list, and the temporary files of [atomic_write] (line 35). *)
Definition CHECKPOINT_NAME : string := "slugs_checkpoint.txt".
Definition COMPLETED_NAME : string := "completed_downloads.txt".
Definition FAILED_NAME : string := "failed_downloads.txt".

(** Further inputs of the examples. *)
Module MoreExamples.

(** The log an earlier session left behind: [alpha] is completed. *)
Definition fs_logged : filesystem :=
  {[ completed_path_of "out" := "alpha" +:+ Text.NL ]}.


(** A file of the user in the output folder. *)
Definition fs_notes : filesystem :=
  {[ "out/notes.txt" := "keep" ]}.

End MoreExamples.
(** * Properties *)

(** ** Strings *)

Lemma str_app_cons c s t : String c s +:+ t = String c (s +:+ t).
Proof. reflexivity. Qed.

Lemma str_app_nil_r s : s +:+ EmptyString = s.
Proof. induction s as [|c s IH]; [done|]. by rewrite str_app_cons, IH. Qed.

Lemma str_app_assoc s t u : (s +:+ t) +:+ u = s +:+ (t +:+ u).
Proof. induction s as [|c s IH]; [done|]. by rewrite !str_app_cons, IH. Qed.

Lemma str_app_length s t : String.length (s +:+ t) = String.length s + String.length t.
Proof. induction s as [|c s IH]; [done|]. rewrite str_app_cons. simpl. by rewrite IH. Qed.

Lemma string_of_list_ascii_app l1 l2 :
  string_of_list_ascii (l1 ++ l2) = string_of_list_ascii l1 +:+ string_of_list_ascii l2.
Proof. induction l1 as [|c l1 IH]; [done|]. simpl. by rewrite IH. Qed.

Lemma tmp_path_ne path : tmp_path_of path ≠ path.
Proof.
  unfold tmp_path_of. intros H. apply (f_equal String.length) in H.
  rewrite str_app_length in H. simpl in H. lia.
Qed.

(** ** The file system *)

Lemma apply_ops_app fs ops1 ops2 :
  apply_ops fs (ops1 ++ ops2) = apply_ops (apply_ops fs ops1) ops2.
Proof. apply foldl_app. Qed.

Lemma apply_op_avoids q op (fs : filesystem) :
  op_avoids q op → apply_op fs op !! q = fs !! q.
Proof.
  destruct op as [p|p c|src dst]; simpl.
  - intros ?. by rewrite lookup_insert_ne.
  - intros ?. destruct (fs !! p); [|done]. by rewrite lookup_insert_ne.
  - intros [? ?]. destruct (fs !! src); [|done].
    by rewrite lookup_insert_ne, lookup_delete_ne.
Qed.

Lemma apply_ops_avoids q ops (fs : filesystem) :
  Forall (op_avoids q) ops → apply_ops fs ops !! q = fs !! q.
Proof.
  intros H. revert fs. induction H as [|op ops Hop _ IH]; intros fs; [done|].
  simpl. change (foldl apply_op (apply_op fs op) ops) with (apply_ops (apply_op fs op) ops).
  by rewrite IH, apply_op_avoids.
Qed.

Lemma apply_writes p cs (fs : filesystem) old :
  fs !! p = Some old →
  apply_ops fs (OpWriteChar p <$> cs) !! p = Some (old +:+ string_of_list_ascii cs).
Proof.
  revert fs old. induction cs as [|c cs IH]; intros fs old Hp; simpl.
  - by rewrite str_app_nil_r.
  - change (foldl apply_op ?a ?b) with (apply_ops a b).
    rewrite Hp. erewrite IH; [|apply lookup_insert_eq].
    by rewrite str_app_assoc.
Qed.

Lemma atomic_write_ops_split path content :
  atomic_write_ops path content
  = staging_ops path content ++ [OpReplace (tmp_path_of path) path].
Proof. reflexivity. Qed.

Lemma staging_avoids path content :
  Forall (op_avoids path) (staging_ops path content).
Proof.
  constructor; [apply tmp_path_ne|].
  apply Forall_fmap, Forall_true. intros c. apply tmp_path_ne.
Qed.

Lemma staging_tmp (fs : filesystem) path content :
  apply_ops fs (staging_ops path content) !! tmp_path_of path = Some content.
Proof.
  unfold staging_ops. simpl. change (foldl apply_op ?a ?b) with (apply_ops a b).
  erewrite apply_writes; [|apply lookup_insert_eq].
  by rewrite string_of_list_ascii_of_string.
Qed.

Lemma atomic_write_lookup (fs : filesystem) path content :
  atomic_write fs path content !! path = Some content.
Proof.
  unfold atomic_write. rewrite atomic_write_ops_split, apply_ops_app.
  pose proof (staging_tmp fs path content) as Htmp.
  set (fs1 := apply_ops fs (staging_ops path content)) in *.
  unfold apply_ops; simpl. rewrite Htmp. apply lookup_insert_eq.
Qed.

Lemma atomic_write_other (fs : filesystem) path content q :
  q ≠ path → q ≠ tmp_path_of path →
  atomic_write fs path content !! q = fs !! q.
Proof.
  intros H1 H2. unfold atomic_write. apply apply_ops_avoids.
  rewrite atomic_write_ops_split. apply Forall_app. split.
  - constructor; [done|]. apply Forall_fmap, Forall_true. intros c. simpl. done.
  - constructor; [|done]. simpl. done.
Qed.

Lemma sorted_perm l : Text.sorted l ≡ₚ l.
Proof. apply merge_sort_Permutation. Qed.

Lemma sorted_Sorted l : Sorted String.le (Text.sorted l).
Proof. apply (Sorted_merge_sort String.le). Qed.

(** C7. A checkpoint save stages the whole snapshot, the identifiers in
    ascending order and one per line, in the temporary sibling of the target
    and replaces the target in one step after that: whatever the number [k]
    of effects an interruption lets through, the target holds what it held
    before the save or the whole new snapshot. *)
Theorem checkpoint_save_atomic (fs : filesystem) (path : string) (slugs : gset string) :
  let text := checkpoint_text slugs in
  let lines := Text.sorted (elements slugs) in
  (text = Text.join Text.NL lines +:+ Text.NL
   ∧ Sorted String.le lines ∧ lines ≡ₚ elements slugs)
  ∧ (atomic_write_ops path text
       = staging_ops path text ++ [OpReplace (tmp_path_of path) path]
     ∧ apply_ops fs (staging_ops path text) !! tmp_path_of path = Some text
     ∧ apply_ops fs (staging_ops path text) !! path = fs !! path)
  ∧ (∀ k, save_interrupted fs path slugs k !! path = fs !! path
          ∨ save_interrupted fs path slugs k !! path = Some text)
  ∧ save_checkpoint fs path slugs !! path = Some text.
Proof.
  intros text lines. split; [|split; [|split]].
  - split; [done|]. split; [apply sorted_Sorted|apply sorted_perm].
  - split; [done|]. split; [apply staging_tmp|].
    apply apply_ops_avoids, staging_avoids.
  - intros k. unfold save_interrupted. fold text.
    rewrite atomic_write_ops_split.
    destruct (decide (k ≤ length (staging_ops path text))) as [Hk|Hk].
    + left. rewrite take_app_le by done.
      apply apply_ops_avoids. apply Forall_take, staging_avoids.
    + right. rewrite take_ge
        by (rewrite length_app; change (length [OpReplace (tmp_path_of path) path]) with 1; lia).
      rewrite <- atomic_write_ops_split. apply atomic_write_lookup.
  - apply atomic_write_lookup.
Qed.

(** ** Text *)

Lemma chars_app s t : Text.chars (s +:+ t) = Text.chars s ++ Text.chars t.
Proof. induction s as [|c s IH]; [done|]. rewrite str_app_cons. simpl. by rewrite <- IH. Qed.

Lemma no_linebreak_chars s :
  Text.no_linebreak s = true →
  Forall (λ c, c ≠ Text.LF ∧ c ≠ Text.CR) (Text.chars s).
Proof.
  induction s as [|c s IH]; simpl; [constructor|].
  intros [[H1 H2]%andb_true_iff H3]%andb_true_iff.
  apply negb_true_iff, Ascii.eqb_neq in H1, H2.
  constructor; [done|]. by apply IH.
Qed.

Lemma rstrip_app_NL x : Text.rstrip (x +:+ Text.NL) = Text.rstrip x.
Proof.
  induction x as [|c x IH]; [done|].
  rewrite str_app_cons. simpl. by rewrite IH.
Qed.

Lemma rstrip_id x : Text.no_trailing_space x = true → Text.rstrip x = x.
Proof.
  induction x as [|c x IH]; [done|]. simpl.
  destruct x as [|d x].
  - intros ->%negb_true_iff. done.
  - intros H. rewrite (IH H). done.
Qed.

Lemma strip_line x :
  x ≠ EmptyString → Text.no_leading_space x = true → Text.no_trailing_space x = true →
  Text.strip (x +:+ Text.NL) = x.
Proof.
  intros Hne Hl Ht. unfold Text.strip.
  destruct x as [|c x]; [done|].
  rewrite str_app_cons. simpl in Hl. apply negb_true_iff in Hl.
  cbn [Text.lstrip]. rewrite Hl. rewrite <- str_app_cons.
  by rewrite rstrip_app_NL, rstrip_id.
Qed.

Lemma universal_newlines_id s :
  Forall (λ c, c ≠ Text.CR) (Text.chars s) → Text.universal_newlines s = s.
Proof.
  induction s as [|c s IH]; [done|]. simpl.
  intros [Hc Hs]%Forall_cons. apply Ascii.eqb_neq in Hc. rewrite Hc.
  by rewrite IH.
Qed.

Lemma readlines_line x rest :
  Forall (λ c, c ≠ Text.LF) (Text.chars x) →
  Text.readlines (x +:+ Text.NL +:+ rest) = (x +:+ Text.NL) :: Text.readlines rest.
Proof.
  induction x as [|c x IH]; [done|]. simpl.
  intros [Hc Hx]%Forall_cons. apply Ascii.eqb_neq in Hc.
  rewrite !str_app_cons. simpl. rewrite Hc. by rewrite (IH Hx).
Qed.

Lemma readlines_unlines l :
  Forall (λ x, Forall (λ c, c ≠ Text.LF) (Text.chars x)) l →
  Text.readlines (Text.unlines l) = (λ x, x +:+ Text.NL) <$> l.
Proof.
  induction 1 as [|x l Hx _ IH]; [done|].
  cbn [Text.unlines foldr]. rewrite readlines_line by done. by rewrite fmap_cons, <- IH.
Qed.

Lemma chars_unlines_no_cr l :
  Forall (λ x, Forall (λ c, c ≠ Text.CR) (Text.chars x)) l →
  Forall (λ c, c ≠ Text.CR) (Text.chars (Text.unlines l)).
Proof.
  induction 1 as [|x l Hx _ IH]; [constructor|].
  simpl. rewrite !chars_app. apply Forall_app. split; [done|].
  apply Forall_app. split; [|done]. by repeat constructor.
Qed.

Lemma join_unlines l :
  l ≠ [] → Text.join Text.NL l +:+ Text.NL = Text.unlines l.
Proof.
  induction l as [|x l IH]; [done|]. intros _.
  destruct l as [|y l].
  - simpl. by rewrite str_app_nil_r.
  - unfold Text.join in *. cbn [String.concat Text.unlines foldr].
    rewrite !str_app_assoc. f_equal. f_equal. by apply IH.
Qed.

Lemma file_lines_unlines l :
  Forall (λ x, Text.no_linebreak x = true) l →
  Text.file_lines (Text.unlines l) = (λ x, x +:+ Text.NL) <$> l.
Proof.
  intros H. unfold Text.file_lines.
  rewrite universal_newlines_id.
  - apply readlines_unlines. eapply Forall_impl; [exact H|].
    intros x Hx%no_linebreak_chars. eapply Forall_impl; [exact Hx|]. by intros c [? ?].
  - apply chars_unlines_no_cr. eapply Forall_impl; [exact H|].
    intros x Hx%no_linebreak_chars. eapply Forall_impl; [exact Hx|]. by intros c [? ?].
Qed.

Lemma load_lines (fs : filesystem) path l :
  fs !! path = Some (Text.join Text.NL l +:+ Text.NL) →
  Forall storable l →
  load_checkpoint fs path = list_to_set l.
Proof.
  intros Hfs Hl. unfold load_checkpoint. rewrite Hfs.
  destruct (decide (l = [])) as [->|Hne]; [done|].
  rewrite join_unlines by done.
  rewrite file_lines_unlines by (eapply Forall_impl; [exact Hl|]; by intros x (?&?&?&?)).
  f_equal. clear Hfs Hne.
  induction Hl as [|x l (Hx1&Hx2&Hx3&Hx4) _ IH]; [done|].
  rewrite fmap_cons, filter_cons.
  rewrite (strip_line x Hx1 Hx2 Hx3).
  rewrite decide_True by done. rewrite fmap_cons, (strip_line x Hx1 Hx2 Hx3).
  by rewrite IH.
Qed.

(** C10, as amended. Loading a checkpoint right after saving a set gives the
    set back when its identifiers are non-empty, begin and end with a
    character that is not white space and contain no line break; and loading
    a path without a file gives the empty set. *)
Theorem checkpoint_roundtrip (fs : filesystem) (path : string) (slugs : gset string) :
  (∀ s, s ∈ slugs → storable s) →
  load_checkpoint (save_checkpoint fs path slugs) path = slugs
  ∧ (fs !! path = None → load_checkpoint fs path = ∅).
Proof.
  intros Hs. split.
  - erewrite load_lines.
    + rewrite (list_to_set_perm_L _ _ (sorted_perm (elements slugs))). apply list_to_set_elements_L.
    + apply atomic_write_lookup.
    + apply Forall_forall. intros x Hx. apply Hs.
      rewrite (sorted_perm _) in Hx. by apply elem_of_elements in Hx.
  - intros Hnone. unfold load_checkpoint. by rewrite Hnone.
Qed.

Lemma checkpoint_roundtrip_witness :
  load_checkpoint (save_checkpoint ∅ "slugs.txt" {["cat"; "dog-2"]}) "slugs.txt"
    = {["cat"; "dog-2"]}
  ∧ ((∅ : filesystem) !! "slugs.txt" = None → load_checkpoint ∅ "slugs.txt" = ∅).
Proof.
  apply (checkpoint_roundtrip ∅ "slugs.txt" {["cat"; "dog-2"]}).
  intros s [->%elem_of_singleton| ->%elem_of_singleton]%elem_of_union;
    repeat split; done.
Defined.
(** C10, as stated, fails: an identifier with a line break inside is
    non-empty and neither begins nor ends with white space, yet it comes
    back from the checkpoint file as two identifiers. *)
Lemma checkpoint_roundtrip_counterexample :
  let s := "a" +:+ Text.NL +:+ "b" in
  (s ≠ EmptyString ∧ Text.no_leading_space s = true ∧ Text.no_trailing_space s = true)
  ∧ load_checkpoint (save_checkpoint ∅ "slugs.txt" {[s]}) "slugs.txt" = {["a"; "b"]}
  ∧ load_checkpoint (save_checkpoint ∅ "slugs.txt" {[s]}) "slugs.txt" ≠ {[s]}.
Proof.
  intros s. split; [by repeat split|].
  assert (load_checkpoint (save_checkpoint ∅ "slugs.txt" {[s]}) "slugs.txt" = {["a"; "b"]})
    as ->.
  { unfold load_checkpoint, save_checkpoint. rewrite atomic_write_lookup.
    unfold checkpoint_text. rewrite elements_singleton. reflexivity. }
  split; [done|].
  intros H. assert ("a" ∈ ({[s]} : gset string)) as Ha by (rewrite <- H; set_solver).
  apply elem_of_singleton in Ha. discriminate Ha.
Qed.

(** ** Discovery engine *)

Lemma foldl_add_slug l (known : gset string) (found nss : nat) :
  foldl add_slug (known, found, nss) l
  = (known ∪ list_to_set l,
     found + size (list_to_set l ∖ known : gset string),
     nss + size (list_to_set l ∖ known : gset string)).
Proof.
  revert known found nss. induction l as [|x l IH]; intros known found nss.
  - simpl. assert ((∅ ∖ known : gset string) = ∅) as -> by set_solver.
    by rewrite size_empty, (right_id_L ∅ (∪)), !Nat.add_0_r.
  - cbn [foldl list_to_set]. unfold add_slug at 2.
    destruct (decide (x ∈ known)) as [Hx|Hx]; rewrite IH.
    + assert (({[x]} ∪ list_to_set l) ∖ known = (list_to_set l ∖ known : gset string)) as ->
        by set_solver.
      assert (known ∪ ({[x]} ∪ list_to_set l) = (known ∪ list_to_set l : gset string)) as ->
        by set_solver.
      done.
    + assert (({[x]} ∪ list_to_set l) ∖ known
              = ({[x]} ∪ (list_to_set l ∖ ({[x]} ∪ known)) : gset string)) as ->
        by (apply set_eq; intros y; destruct (decide (y = x)); set_solver).
      rewrite (size_union ({[x]} : gset string) (list_to_set l ∖ ({[x]} ∪ known)))
        by set_solver.
      rewrite size_singleton.
      assert (known ∪ ({[x]} ∪ list_to_set l) = ({[x]} ∪ known ∪ list_to_set l : gset string))
        as -> by set_solver.
      by rewrite !Nat.add_succ_l, !Nat.add_succ_r.
Qed.

Lemma size_union_diff (known new : gset string) :
  size (known ∪ new) = size known + size (new ∖ known).
Proof.
  rewrite <- (size_union known (new ∖ known)) by set_solver. f_equal.
  apply set_eq. intros y. destruct (decide (y ∈ known)); set_solver.
Qed.

Lemma scan_round_spec (known : gset string) nss text :
  scan_round known nss text
  = (known ∪ list_to_set (Regex.findall text),
     size (known ∪ list_to_set (Regex.findall text)) - size known,
     nss + (size (known ∪ list_to_set (Regex.findall text)) - size known)).
Proof.
  unfold scan_round. rewrite foldl_add_slug, size_union_diff.
  generalize (size (list_to_set (Regex.findall text) ∖ known)). intros d.
  by replace (size known + d - size known) with d by lia.
Qed.

Lemma last_saved_snoc S0 t e :
  last_saved S0 (t ++ [e])
  = match e with EvSave _ slugs => slugs | _ => last_saved S0 t end.
Proof.
  revert S0. induction t as [|e' t IH]; intros S0.
  - by destruct e.
  - destruct e'; simpl; by rewrite IH.
Qed.

Section Discovery.

Variable listing : nat → option string.
Variable path : string.

Lemma maybe_checkpoint_saves st :
  CHECKPOINT_INTERVAL ≤ ss_new_since_save st →
  maybe_checkpoint path st
  = {| ss_slugs := ss_slugs st;
       ss_rounds := ss_rounds st;
       ss_new_since_save := 0;
       ss_fs := save_checkpoint (ss_fs st) path (ss_slugs st);
       ss_trace := ss_trace st ++ [EvSave path (ss_slugs st)] |}.
Proof.
  intros H. unfold maybe_checkpoint.
  by destruct (Nat.leb_spec CHECKPOINT_INTERVAL (ss_new_since_save st)); [|lia].
Qed.

Lemma maybe_checkpoint_idle st :
  ss_new_since_save st < CHECKPOINT_INTERVAL → maybe_checkpoint path st = st.
Proof.
  intros H. unfold maybe_checkpoint.
  by destruct (Nat.leb_spec CHECKPOINT_INTERVAL (ss_new_since_save st)); [lia|].
Qed.

Lemma maybe_checkpoint_slugs st : ss_slugs (maybe_checkpoint path st) = ss_slugs st.
Proof. unfold maybe_checkpoint. by destruct (_ <=? _). Qed.

Lemma maybe_checkpoint_rounds st : ss_rounds (maybe_checkpoint path st) = ss_rounds st.
Proof. unfold maybe_checkpoint. by destruct (_ <=? _). Qed.

Lemma scrape_request_inr st text :
  listing (S (ss_rounds st)) = Some text →
  scrape_request listing st
  = inr (scanned st text, size (ss_slugs (scanned st text)) - size (ss_slugs st)).
Proof.
  intros H. unfold scrape_request. rewrite H, scan_round_spec. reflexivity.
Qed.

Lemma scrape_loop_step fuel st text :
  listing (S (ss_rounds st)) = Some text →
  scrape_loop listing path (S fuel) st
  = if size (ss_slugs (scanned st text)) - size (ss_slugs st) =? 0
    then LoopExit (maybe_checkpoint path (scanned st text))
    else scrape_loop listing path fuel (slept (maybe_checkpoint path (scanned st text))).
Proof. intros H. simpl. by rewrite (scrape_request_inr _ _ H). Qed.

Lemma scrape_loop_raise fuel st :
  listing (S (ss_rounds st)) = None →
  ∃ st', scrape_loop listing path (S fuel) st = LoopRaised st'
         ∧ ss_slugs st' = ss_slugs st ∧ ss_rounds st' = S (ss_rounds st)
         ∧ ss_new_since_save st' = ss_new_since_save st
         ∧ ss_trace st' = ss_trace st ++ [EvPost (S (ss_rounds st))].
Proof. intros H. simpl. unfold scrape_request. rewrite H. eauto 10. Qed.

(** *** The counter and the threshold *)

Lemma round_boundary_scanned S0 st text :
  round_boundary S0 st →
  last_saved S0 (ss_trace (scanned st text)) ⊆ ss_slugs (scanned st text)
  ∧ size (ss_slugs (scanned st text))
    = size (last_saved S0 (ss_trace (scanned st text)))
      + ss_new_since_save (scanned st text).
Proof.
  intros (Hsub & Hsize & _). unfold scanned. cbn [ss_trace ss_slugs ss_new_since_save].
  rewrite last_saved_snoc. split; [set_solver|].
  pose proof (size_union_diff (ss_slugs st) (list_to_set (Regex.findall text))). lia.
Qed.

Lemma round_boundary_checkpoint S0 st :
  last_saved S0 (ss_trace st) ⊆ ss_slugs st →
  size (ss_slugs st) = size (last_saved S0 (ss_trace st)) + ss_new_since_save st →
  round_boundary S0 (maybe_checkpoint path st).
Proof.
  intros Hsub Hsize.
  destruct (decide (CHECKPOINT_INTERVAL ≤ ss_new_since_save st)) as [H|H].
  - rewrite maybe_checkpoint_saves by done. unfold round_boundary.
    cbn [ss_trace ss_slugs ss_new_since_save]. rewrite last_saved_snoc.
    split; [done|]. split; [lia|]. unfold CHECKPOINT_INTERVAL. lia.
  - rewrite maybe_checkpoint_idle by lia. repeat split; [done..|lia].
Qed.

Lemma round_boundary_slept S0 st :
  round_boundary S0 st → round_boundary S0 (slept st).
Proof.
  intros (Hsub & Hsize & Hlt). unfold round_boundary, slept.
  cbn [ss_trace ss_slugs ss_new_since_save]. by rewrite last_saved_snoc.
Qed.

Lemma round_boundary_loop S0 fuel st :
  round_boundary S0 st →
  round_boundary S0 (loop_state (scrape_loop listing path fuel st)).
Proof.
  revert st. induction fuel as [|fuel IH]; intros st Hst; [done|].
  destruct (listing (S (ss_rounds st))) as [text|] eqn:Hl.
  - rewrite (scrape_loop_step _ _ _ Hl).
    destruct (round_boundary_scanned S0 st text Hst) as [H1 H2].
    pose proof (round_boundary_checkpoint S0 _ H1 H2) as H3.
    destruct (_ =? 0); [done|]. by apply IH, round_boundary_slept.
  - destruct (scrape_loop_raise fuel st Hl) as (st' & -> & E1 & E2 & E3 & E4).
    destruct Hst as (Hsub & Hsize & Hlt). unfold round_boundary. simpl.
    by rewrite E1, E3, E4, last_saved_snoc.
Qed.

(** At the exit of the loop the last event is the request of the last
    round: a round that finds nothing leaves the counter below the
    threshold, so it saves nothing. *)
Lemma loop_exit_trace S0 fuel st st' :
  round_boundary S0 st →
  scrape_loop listing path fuel st = LoopExit st' →
  ∃ t, ss_trace st' = t ++ [EvPost (ss_rounds st')].
Proof.
  revert st. induction fuel as [|fuel IH]; intros st Hst; [done|].
  destruct (listing (S (ss_rounds st))) as [text|] eqn:Hl.
  - rewrite (scrape_loop_step _ _ _ Hl).
    destruct (round_boundary_scanned S0 st text Hst) as [H1 H2].
    pose proof (round_boundary_checkpoint S0 _ H1 H2) as H3.
    destruct (_ =? 0) eqn:Hf.
    + intros [= <-]. apply Nat.eqb_eq in Hf.
      rewrite maybe_checkpoint_idle.
      * eexists. reflexivity.
      * destruct Hst as (_ & _ & Hlt). unfold scanned. simpl in *. lia.
    + by apply IH, round_boundary_slept.
  - destruct (scrape_loop_raise fuel st Hl) as (st'' & -> & _). done.
Qed.

(** *** The rounds of a run *)

Variable S0 : gset string.

Lemma slugs_after_mono r : slugs_after listing S0 r ⊆ slugs_after listing S0 (S r).
Proof. simpl. set_solver. Qed.

Lemma size_slugs_after_S r :
  size (slugs_after listing S0 (S r))
  = size (slugs_after listing S0 r) + new_in_round listing S0 (S r).
Proof.
  unfold new_in_round. replace (S r - 1) with r by lia.
  pose proof (subseteq_size _ _ (slugs_after_mono r)). lia.
Qed.

Lemma scanned_follows st text :
  follows_listing listing S0 st → listing (S (ss_rounds st)) = Some text →
  follows_listing listing S0 (scanned st text)
  ∧ size (ss_slugs (scanned st text)) - size (ss_slugs st)
    = new_in_round listing S0 (S (ss_rounds st)).
Proof.
  unfold follows_listing. intros Hst Hl.
  assert (ss_slugs (scanned st text) = slugs_after listing S0 (S (ss_rounds st))) as E.
  { unfold scanned. cbn [ss_slugs ss_rounds slugs_after]. by rewrite Hl, Hst. }
  split; [done|]. rewrite E, Hst, size_slugs_after_S. lia.
Qed.

Lemma follows_next st text :
  follows_listing listing S0 (scanned st text) →
  follows_listing listing S0 (slept (maybe_checkpoint path (scanned st text))).
Proof.
  unfold follows_listing, slept. cbn [ss_slugs ss_rounds].
  by rewrite maybe_checkpoint_slugs, maybe_checkpoint_rounds.
Qed.

Lemma loop_exit_rounds fuel st st' :
  follows_listing listing S0 st →
  scrape_loop listing path fuel st = LoopExit st' →
  ss_rounds st < ss_rounds st' ≤ ss_rounds st + fuel
  ∧ follows_listing listing S0 st'
  ∧ (∀ i, ss_rounds st < i ≤ ss_rounds st' → is_Some (listing i))
  ∧ new_in_round listing S0 (ss_rounds st') = 0
  ∧ (∀ i, ss_rounds st < i < ss_rounds st' → new_in_round listing S0 i ≠ 0).
Proof.
  revert st. induction fuel as [|fuel IH]; intros st Hst; [done|].
  destruct (listing (S (ss_rounds st))) as [text|] eqn:Hl.
  - rewrite (scrape_loop_step _ _ _ Hl).
    destruct (scanned_follows st text Hst Hl) as [Hsc ->].
    destruct (_ =? 0) eqn:Hf.
    + intros [= <-]. apply Nat.eqb_eq in Hf.
      rewrite maybe_checkpoint_rounds. cbn [scanned ss_rounds].
      split; [lia|]. split.
      { unfold follows_listing in *.
        by rewrite maybe_checkpoint_slugs, maybe_checkpoint_rounds. }
      split; [|split; [done|intros; lia]].
      intros i Hi. assert (i = S (ss_rounds st)) as -> by lia. by rewrite Hl.
    + apply Nat.eqb_neq in Hf. intros Hloop.
      apply IH in Hloop; [|by apply follows_next].
      unfold slept in Hloop. cbn [ss_rounds] in Hloop.
      rewrite maybe_checkpoint_rounds in Hloop. cbn [scanned ss_rounds] in Hloop.
      destruct Hloop as (H1 & H2 & H3 & H4 & H5).
      split; [lia|]. split; [done|]. split; [|split; [done|]].
      * intros i Hi. destruct (decide (i = S (ss_rounds st))) as [->|];
          [by rewrite Hl | apply H3; lia].
      * intros i Hi. destruct (decide (i = S (ss_rounds st))) as [->|];
          [done | apply H5; lia].
  - destruct (scrape_loop_raise fuel st Hl) as (st'' & -> & _). done.
Qed.

Lemma loop_reaches fuel st r :
  follows_listing listing S0 st →
  ss_rounds st < r ≤ ss_rounds st + fuel →
  (∀ i, ss_rounds st < i ≤ r → is_Some (listing i)) →
  new_in_round listing S0 r = 0 →
  (∀ i, ss_rounds st < i < r → new_in_round listing S0 i ≠ 0) →
  ∃ st', scrape_loop listing path fuel st = LoopExit st'
         ∧ ss_rounds st' = r ∧ follows_listing listing S0 st'.
Proof.
  revert st. induction fuel as [|fuel IH]; intros st Hst Hr Hans Hzero Hnew; [lia|].
  destruct (Hans (S (ss_rounds st))) as [text Hl]; [lia|].
  rewrite (scrape_loop_step _ _ _ Hl).
  destruct (scanned_follows st text Hst Hl) as [Hsc ->].
  destruct (decide (S (ss_rounds st) = r)) as [E|E].
  - rewrite E, Hzero. simpl. eexists. split; [done|].
    unfold follows_listing in *.
    by rewrite maybe_checkpoint_slugs, maybe_checkpoint_rounds.
  - destruct (Nat.eqb_spec (new_in_round listing S0 (S (ss_rounds st))) 0) as [Hf|Hf].
    { exfalso. apply (Hnew (S (ss_rounds st))); [lia|done]. }
    apply IH.
    + by apply follows_next.
    + unfold slept. cbn [ss_rounds]. rewrite maybe_checkpoint_rounds.
      cbn [scanned ss_rounds]. lia.
    + intros i Hi. apply Hans. unfold slept in Hi. cbn [ss_rounds] in Hi.
      rewrite maybe_checkpoint_rounds in Hi. cbn [scanned ss_rounds] in Hi. lia.
    + done.
    + intros i Hi. apply Hnew. unfold slept in Hi. cbn [ss_rounds] in Hi.
      rewrite maybe_checkpoint_rounds in Hi. cbn [scanned ss_rounds] in Hi. lia.
Qed.

Lemma loop_keeps_running fuel st :
  follows_listing listing S0 st →
  (∀ i, ss_rounds st < i ≤ ss_rounds st + fuel →
        is_Some (listing i) ∧ new_in_round listing S0 i ≠ 0) →
  ∃ st', scrape_loop listing path fuel st = LoopRunning st'
         ∧ ss_rounds st' = ss_rounds st + fuel.
Proof.
  revert st. induction fuel as [|fuel IH]; intros st Hst Hall.
  { exists st. split; [done|lia]. }
  destruct (Hall (S (ss_rounds st))) as [[text Hl] Hnew]; [lia|].
  rewrite (scrape_loop_step _ _ _ Hl).
  destruct (scanned_follows st text Hst Hl) as [Hsc ->].
  destruct (Nat.eqb_spec (new_in_round listing S0 (S (ss_rounds st))) 0) as [Hf|Hf]; [done|].
  assert (ss_rounds (slept (maybe_checkpoint path (scanned st text))) = S (ss_rounds st)) as Er.
  { unfold slept. cbn [ss_rounds]. by rewrite maybe_checkpoint_rounds. }
  destruct (IH (slept (maybe_checkpoint path (scanned st text)))) as (st' & -> & E).
  - by apply follows_next.
  - intros i Hi. apply Hall. lia.
  - exists st'. split; [done|]. lia.
Qed.

(** The size of the set under the listing of the termination bound. *)
Lemma size_after_rounds N k i :
  (∀ j, 1 ≤ j ≤ i → new_in_round listing S0 j = k `min` (N - k * (j - 1))) →
  size (slugs_after listing S0 i) = size S0 + (k * i) `min` N.
Proof.
  induction i as [|i IH]; intros H.
  - simpl. lia.
  - rewrite size_slugs_after_S, IH by (intros; apply H; lia).
    rewrite H by lia. replace (S i - 1) with i by lia. nia.
Qed.

End Discovery.

Lemma round_boundary_init fs path :
  round_boundary (load_checkpoint fs path) (scrape_init fs path).
Proof. unfold round_boundary, scrape_init. simpl. split; [done|]. split; [lia|]. unfold CHECKPOINT_INTERVAL. lia. Qed.

Lemma follows_init listing fs path :
  follows_listing listing (load_checkpoint fs path) (scrape_init fs path).
Proof. done. Qed.

(** C4, as amended. A run of the discovery returns after round [r] exactly
    when [r] is the first round that adds no identifier (and the requests up
    to it are answered); as long as every round adds one the loop is still
    running, whatever the number of rounds.  For a listing that adds [k] new
    identifiers per round until [N] are reached, in ⌈N/k⌉ rounds, and then
    nothing, the run takes ⌈N/k⌉+1 rounds and returns [N] identifiers more
    than the checkpoint held when it was loaded. *)
Theorem discovery_termination (listing : nat → option string) (path : string)
    (fs : filesystem) :
  let S0 := load_checkpoint fs path in
  (∀ r, (∃ fuel l st, scrape_slugs listing path fuel fs = ScrapeReturned l st
                      ∧ ss_rounds st = r)
        ↔ (1 ≤ r ∧ (∀ i, 1 ≤ i ≤ r → is_Some (listing i))
           ∧ new_in_round listing S0 r = 0
           ∧ ∀ i, 1 ≤ i < r → new_in_round listing S0 i ≠ 0))
  ∧ (∀ fuel, (∀ i, 1 ≤ i ≤ fuel → is_Some (listing i) ∧ new_in_round listing S0 i ≠ 0) →
             ∃ st, scrape_slugs listing path fuel fs = ScrapeRunning st
                   ∧ ss_rounds st = fuel)
  ∧ (∀ N k, 0 < k →
       let m := (N + k - 1) / k in
       (∀ i, 1 ≤ i ≤ m + 1 → is_Some (listing i)) →
       (∀ i, 1 ≤ i ≤ m → new_in_round listing S0 i = k `min` (N - k * (i - 1))) →
       new_in_round listing S0 (m + 1) = 0 →
       ∀ fuel, m + 1 ≤ fuel →
         ∃ l st, scrape_slugs listing path fuel fs = ScrapeReturned l st
                 ∧ ss_rounds st = m + 1
                 ∧ NoDup l ∧ length l = size S0 + N).
Proof.
  intros S0. split; [|split].
  - intros r. split.
    + intros (fuel & l & st & Hrun & Hr). unfold scrape_slugs in Hrun.
      destruct (scrape_loop _ _ _ _) as [st'| |] eqn:Hloop; [|done..].
      injection Hrun as <- <-. simpl in Hr. subst r.
      destruct (loop_exit_rounds listing path S0 _ _ _ (follows_init listing fs path) Hloop)
        as (H1 & _ & H3 & H4 & H5).
      simpl in *. split; [lia|]. split; [|split; [done|]].
      * intros i Hi. apply H3. lia.
      * intros i Hi. apply H5. lia.
    + intros (H1 & H2 & H3 & H4).
      destruct (loop_reaches listing path S0 r (scrape_init fs path) r
                  (follows_init listing fs path)) as (st' & Hloop & Hr & _).
      * simpl. lia.
      * intros i Hi. apply H2. simpl in Hi. lia.
      * done.
      * intros i Hi. apply H4. simpl in Hi. lia.
      * exists r, (elements (ss_slugs st')), (final_save path st').
        unfold scrape_slugs. by rewrite Hloop.
  - intros fuel Hall.
    destruct (loop_keeps_running listing path S0 fuel (scrape_init fs path)
                (follows_init listing fs path)) as (st' & Hloop & Hr).
    + intros i Hi. apply Hall. simpl in Hi. lia.
    + exists st'. unfold scrape_slugs. by rewrite Hloop.
  - intros N k Hk m Hans Hnew Hzero fuel Hfuel.
    assert (k * m ≤ N + k - 1 < k * m + k) as Hm.
    { unfold m. pose proof (Nat.div_mod (N + k - 1) k ltac:(lia)).
      pose proof (Nat.mod_upper_bound (N + k - 1) k ltac:(lia)). lia. }
    destruct (loop_reaches listing path S0 fuel (scrape_init fs path) (m + 1)
                (follows_init listing fs path)) as (st' & Hloop & Hr & Hst').
    + simpl. lia.
    + intros i Hi. apply Hans. simpl in Hi. lia.
    + done.
    + intros i Hi. simpl in Hi. rewrite Hnew by lia.
      assert (k * (i - 1) < N) by nia. lia.
    + exists (elements (ss_slugs st')), (final_save path st').
      unfold scrape_slugs. rewrite Hloop. split; [done|]. split; [done|].
      split; [apply NoDup_elements|].
      change (length (elements (ss_slugs st'))) with (size (ss_slugs st')).
      rewrite Hst', Hr.
      assert (size (slugs_after listing S0 (m + 1)) = size (slugs_after listing S0 m)) as ->.
      { replace (m + 1) with (S m) by lia. rewrite size_slugs_after_S.
        replace (S m) with (m + 1) by lia. lia. }
      rewrite (size_after_rounds listing S0 N k m) by done. nia.
Qed.

Lemma discovery_termination_witness :
  ∃ l st, scrape_slugs Examples.listing3 "slugs_checkpoint.txt" 5 ∅ = ScrapeReturned l st
          ∧ ss_rounds st = 3
          ∧ NoDup l ∧ length l = size (load_checkpoint ∅ "slugs_checkpoint.txt") + 3.
Proof.
  destruct (discovery_termination Examples.listing3 "slugs_checkpoint.txt" ∅)
    as (_ & _ & H).
  apply (H 3 2); clear H.
  - lia.
  - intros i _. destruct i as [|[|i]]; simpl; eauto.
  - intros i Hi. change ((3 + 2 - 1) / 2) with 2 in Hi.
    assert (i = 1 ∨ i = 2) as [-> | ->] by lia; by vm_compute.
  - by vm_compute.
  - change ((3 + 2 - 1) / 2) with 2. lia.
Defined.

(** C4, as stated, fails: the listing shows one identifier, new in round 1
    and not in round 2, and the run takes its two rounds, but it resumes
    from a checkpoint with another identifier and returns two. *)
Lemma discovery_size_counterexample :
  let S0 := load_checkpoint Examples.fs_resumed "slugs_checkpoint.txt" in
  new_in_round Examples.listing1 S0 1 = 1
  ∧ new_in_round Examples.listing1 S0 2 = 0
  ∧ ∃ l st, scrape_slugs Examples.listing1 "slugs_checkpoint.txt" 2 Examples.fs_resumed
              = ScrapeReturned l st
            ∧ ss_rounds st = 2 ∧ length l = 2 ∧ length l ≠ 1.
Proof.
  split; [by vm_compute|]. split; [by vm_compute|].
  eexists _, _. split; [by vm_compute|]. split; [done|]. split; [by vm_compute|].
  by vm_compute.
Qed.

(** *** The checkpoint policy *)




Section Policy.

Variable listing : nat → option string.
Variable path : string.
Variable S0 : gset string.





End Policy.




(** ** Paths *)

Lemma app_inj_r s1 s2 t : s1 +:+ t = s2 +:+ t → s1 = s2.
Proof.
  revert s2. induction s1 as [|c s1 IH]; intros [|d s2] H.
  - done.
  - apply (f_equal String.length) in H. rewrite !str_app_length in H. simpl in H. lia.
  - apply (f_equal String.length) in H. rewrite !str_app_length in H. simpl in H. lia.
  - rewrite !str_app_cons in H. injection H as -> H. f_equal. by apply IH.
Qed.

Lemma last_char_app s t :
  t ≠ EmptyString → Path.last_char (s +:+ t) = Path.last_char t.
Proof.
  intros Ht. induction s as [|c s IH]; [done|].
  rewrite str_app_cons. simpl. rewrite IH.
  destruct (s +:+ t) eqn:E; [|done].
  destruct s; [|done]. by destruct t.
Qed.

Lemma join2_relative a b :
  Path.starts_with_sep b = false → Path.join2 a b = Path.join_prefix a +:+ b.
Proof.
  intros Hb. unfold Path.join2, Path.join_prefix. rewrite Hb.
  destruct (_ || _); [done|]. by rewrite str_app_assoc.
Qed.

Lemma join2_suffix a b : ∃ p, Path.join2 a b = p +:+ b.
Proof.
  unfold Path.join2. destruct (Path.starts_with_sep b).
  - by exists EmptyString.
  - destruct (_ || _); [by exists a|]. exists (a +:+ String Path.SEP EmptyString).
    by rewrite str_app_assoc.
Qed.

Lemma starts_with_sep_app s t :
  s ≠ EmptyString ∨ Path.starts_with_sep t = false →
  Path.starts_with_sep s = false → Path.starts_with_sep (s +:+ t) = false.
Proof. destruct s; [|done]. by intros [?|?]. Qed.

Lemma image_path_last out_dir slug :
  Path.last_char (image_path out_dir slug) = Some "g"%char.
Proof.
  unfold image_path. cbn [Path.join foldl].
  destruct (join2_suffix (img_dir out_dir) (slug +:+ ".png")) as [p ->].
  rewrite <- str_app_assoc. by rewrite last_char_app.
Qed.

Lemma log_path_last out_dir name c :
  Path.last_char name = Some c → Path.last_char (Path.join out_dir [name]) = Some c.
Proof.
  intros H. cbn [Path.join foldl].
  destruct (join2_suffix out_dir name) as [p ->].
  rewrite last_char_app; [done|]. by destruct name.
Qed.

Lemma image_path_ne_completed out_dir slug :
  image_path out_dir slug ≠ completed_path_of out_dir.
Proof.
  intros H. apply (f_equal Path.last_char) in H.
  rewrite image_path_last in H.
  unfold completed_path_of in H. by rewrite (log_path_last _ _ "t"%char) in H.
Qed.

Lemma image_path_ne_failed out_dir slug :
  image_path out_dir slug ≠ failed_path_of out_dir.
Proof.
  intros H. apply (f_equal Path.last_char) in H.
  rewrite image_path_last in H.
  unfold failed_path_of in H. by rewrite (log_path_last _ _ "t"%char) in H.
Qed.

Lemma image_path_ne_failed_tmp out_dir slug :
  image_path out_dir slug ≠ tmp_path_of (failed_path_of out_dir).
Proof.
  intros H. apply (f_equal Path.last_char) in H.
  rewrite image_path_last in H. unfold tmp_path_of in H.
  by rewrite last_char_app in H.
Qed.

Lemma completed_path_ne_failed out_dir :
  completed_path_of out_dir ≠ failed_path_of out_dir.
Proof.
  unfold completed_path_of, failed_path_of. cbn [Path.join foldl].
  rewrite !join2_relative by done. by intros ?%(inj (String.app _)).
Qed.

Lemma completed_path_ne_failed_tmp out_dir :
  completed_path_of out_dir ≠ tmp_path_of (failed_path_of out_dir).
Proof.
  intros H. apply (f_equal Path.last_char) in H.
  unfold completed_path_of, tmp_path_of in H.
  rewrite (log_path_last _ _ "t"%char) in H by done.
  by rewrite last_char_app in H.
Qed.

(** Identifiers that are not absolute paths have image paths of their own. *)
Lemma image_path_inj out_dir s1 s2 :
  Path.starts_with_sep s1 = false → Path.starts_with_sep s2 = false →
  image_path out_dir s1 = image_path out_dir s2 → s1 = s2.
Proof.
  intros H1 H2. unfold image_path. cbn [Path.join foldl].
  rewrite !join2_relative by (apply starts_with_sep_app; auto).
  intros H%(inj (String.app _)). by apply app_inj_r in H.
Qed.

Lemma is_slug_relative s : Regex.is_slug s = true → Path.starts_with_sep s = false.
Proof.
  destruct s as [|c s]; [done|]. simpl.
  intros [Hc _]%andb_true_iff. unfold Path.SEP.
  destruct (Ascii.eqb_spec c "/"%char) as [->|]; [|done]. by vm_compute in Hc.
Qed.

(** ** Fetch worker *)

Section Worker.

Variable sha256 : string → string.
Variable env : environment.
Variable out_dir : string.

Local Abbreviation wstep := (wstep sha256 env out_dir).
Local Abbreviation fetch_loop := (fetch_loop sha256 env out_dir).
Local Abbreviation fetch := (fetch sha256 env out_dir).

Lemma on_exception_cases n σ :
  (n = MAX_RETRIES ∧ on_exception n σ = (Returned Fail, σ))
  ∨ (n ≠ MAX_RETRIES
     ∧ on_exception n σ = (Attempting (S n), log σ (EvSleep (backoff n)))).
Proof.
  unfold on_exception. destruct (Nat.eqb_spec n MAX_RETRIES); auto.
Qed.

Lemma attempt_fails_step slug n σ :
  attempt_fails env slug n = true →
  wstep slug (Attempting n) σ = on_exception n (log σ (EvGet slug n)).
Proof.
  unfold attempt_fails. simpl. destruct (net_get env slug n) as [|status c]; [done|].
  by intros ->%negb_true_iff.
Qed.

Lemma attempt_succeeds_step slug n c σ :
  net_get env slug n = Response 200 c →
  wstep slug (Attempting n) σ = (Fetched n c, log σ (EvGet slug n)).
Proof. intros H. simpl. by rewrite H. Qed.

Lemma fetch_loop_S fuel slug w σ :
  finished w = false →
  fetch_loop (S fuel) slug w σ
  = fetch_loop fuel slug (wstep slug w σ).1 (wstep slug w σ).2.
Proof. intros H. simpl. rewrite H. by destruct (wstep slug w σ). Qed.

Lemma fetch_loop_finished fuel slug w σ :
  finished w = true → fetch_loop fuel slug w σ = (w, σ).
Proof. intros H. destruct fuel; [done|]. simpl. by rewrite H. Qed.

(** *** Every call of [download] returns or raises *)

Lemma wstep_progress slug w σ :
  valid_wstate w → finished w = false →
  valid_wstate (wstep slug w σ).1 ∧ steps_left (wstep slug w σ).1 < steps_left w.
Proof.
  assert (∀ n s (k : nat), 1 ≤ n ≤ MAX_RETRIES → 4 * (S MAX_RETRIES - n) - 3 ≤ k →
    valid_wstate (on_exception n s).1 ∧ steps_left (on_exception n s).1 < k) as Hexc.
  { intros n s k Hn Hk.
    destruct (on_exception_cases n s) as [[? ->]|[? ->]];
      unfold valid_wstate, steps_left, MAX_RETRIES in *; simpl; lia. }
  destruct w as [|n|n c|n c|n|o|]; intros Hv Hf; try done; cbn [wstep].
  - destruct (makedirs_raises env slug); [|destruct (path_exists _ _)];
      unfold valid_wstate, steps_left, FETCH_STEPS, MAX_RETRIES; simpl; lia.
  - destruct (net_get env slug n) as [|status c];
      [|destruct (status =? 200)%Z];
      try (apply Hexc; [done|]);
      unfold valid_wstate, steps_left, MAX_RETRIES in *; simpl; lia.
  - destruct (decide _);
      unfold valid_wstate, steps_left, MAX_RETRIES in *; simpl; lia.
  - destruct (file_write env slug n);
      try (apply Hexc; [done|]);
      unfold valid_wstate, steps_left, MAX_RETRIES in *; simpl; lia.
  - destruct (append_raises env slug n);
      try (apply Hexc; [done|]);
      unfold valid_wstate, steps_left, MAX_RETRIES in *; simpl; lia.
Qed.

Lemma fetch_loop_finishes fuel slug w σ :
  valid_wstate w → steps_left w ≤ fuel →
  finished (fetch_loop fuel slug w σ).1 = true.
Proof.
  revert w σ. induction fuel as [|fuel IH]; intros w σ Hv Hfuel.
  - destruct w; try done; unfold valid_wstate, steps_left, FETCH_STEPS, MAX_RETRIES in *;
      simpl in *; lia.
  - destruct (finished w) eqn:Hf.
    + by rewrite fetch_loop_finished.
    + rewrite fetch_loop_S by done.
      destruct (wstep_progress slug w σ Hv Hf) as [Hv' Hlt].
      apply IH; [done|lia].
Qed.

Lemma fetch_finishes slug σ : finished (fetch slug σ).1 = true.
Proof. by apply fetch_loop_finishes. Qed.

(** *** What a step leaves alone *)

Lemma on_exception_store n σ :
  st_fs (on_exception n σ).2 = st_fs σ
  ∧ st_seen (on_exception n σ).2 = st_seen σ
  ∧ ∃ evs, st_trace (on_exception n σ).2 = st_trace σ ++ evs
           ∧ Forall (λ e, ∃ d, e = EvSleep d) evs.
Proof.
  destruct (on_exception_cases n σ) as [[? ->]|[? ->]]; simpl.
  - repeat split. exists []. by rewrite app_nil_r.
  - repeat split. eexists. split; [done|]. repeat constructor. eauto.
Qed.

Lemma wstep_fs_other slug w σ q :
  q ≠ image_path out_dir slug → q ≠ completed_path_of out_dir →
  st_fs (wstep slug w σ).2 !! q = st_fs σ !! q.
Proof.
  intros Hq1 Hq2. destruct w as [|n|n c|n c|n|o|]; simpl; try done.
  - repeat case_match; done.
  - repeat case_match; try done;
      match goal with |- context [on_exception n ?s] =>
        destruct (on_exception_store n s) as (-> & _) end; done.
  - case_match; done.
  - destruct (file_write env slug n); simpl.
    + by rewrite lookup_insert_ne.
    + by destruct (on_exception_store n σ) as (-> & _).
    + match goal with |- context [on_exception n ?s] =>
        destruct (on_exception_store n s) as (-> & _) end.
      simpl. by rewrite lookup_insert_ne.
  - destruct (append_raises env slug n); simpl.
    + by destruct (on_exception_store n σ) as (-> & _).
    + unfold append_file. by rewrite lookup_insert_ne.
Qed.

Lemma wstep_fs_mono slug w σ q :
  is_Some (st_fs σ !! q) → is_Some (st_fs (wstep slug w σ).2 !! q).
Proof.
  intros Hq. destruct w as [|n|n c|n c|n|o|]; simpl; try done.
  - repeat case_match; done.
  - repeat case_match; try done;
      match goal with |- context [on_exception n ?s] =>
        destruct (on_exception_store n s) as (-> & _) end; done.
  - case_match; done.
  - destruct (file_write env slug n); simpl.
    + rewrite lookup_insert. case_decide; eauto.
    + by destruct (on_exception_store n σ) as (-> & _).
    + match goal with |- context [on_exception n ?s] =>
        destruct (on_exception_store n s) as (-> & _) end.
      simpl. rewrite lookup_insert. case_decide; eauto.
  - destruct (append_raises env slug n); simpl.
    + by destruct (on_exception_store n σ) as (-> & _).
    + unfold append_file. rewrite lookup_insert. case_decide; eauto.
Qed.

Lemma sleeps_are_worker_events slug evs :
  Forall (λ e, ∃ d, e = EvSleep d) evs → Forall (worker_event slug) evs.
Proof. intros H. eapply Forall_impl; [exact H|]. by intros e [d ->]. Qed.

Lemma wstep_trace slug w σ :
  ∃ evs, st_trace (wstep slug w σ).2 = st_trace σ ++ evs
         ∧ Forall (worker_event slug) evs
         ∧ (∀ n, EvGet slug n ∈ evs → w = Attempting n)
         ∧ (∀ p, EvCreate slug p ∈ evs → ∃ n c, w = Claimed n c).
Proof.
  assert (∀ (s : store) n e (P : event → Prop),
    P e → (∀ d, P (EvSleep d)) →
    ∃ evs, st_trace (on_exception n (log s e)).2 = st_trace s ++ evs
           ∧ Forall P evs) as Hexc.
  { intros s n e P He Hs.
    destruct (on_exception_store n (log s e)) as (_ & _ & evs & -> & Hevs).
    exists (e :: evs). simpl. rewrite <- app_assoc. split; [done|].
    constructor; [done|]. eapply Forall_impl; [exact Hevs|]. by intros ? [d ->]. }
  set (P := λ e, worker_event slug e
                 ∧ (∀ n, e = EvGet slug n → w = Attempting n)
                 ∧ (∀ p, e = EvCreate slug p → ∃ n c, w = Claimed n c)).
  assert (∀ d, P (EvSleep d)) as Psleep by (intros d; by repeat split).
  assert (∃ evs, st_trace (wstep slug w σ).2 = st_trace σ ++ evs ∧ Forall P evs)
    as (evs & E & Hevs).
  { assert (∃ evs, st_trace σ = st_trace σ ++ evs ∧ Forall P evs) as Hnil
      by (exists []; by rewrite app_nil_r).
    assert (∀ n, ∃ evs, st_trace (on_exception n σ).2 = st_trace σ ++ evs ∧ Forall P evs)
      as Hexc0.
    { intros n. destruct (on_exception_store n σ) as (_ & _ & evs & -> & Hevs).
      exists evs. split; [done|]. eapply Forall_impl; [exact Hevs|]. by intros ? [d ->]. }
    destruct w as [|n|n c|n c|n|o|]; simpl; try done.
    - repeat case_match; done.
    - assert (P (EvGet slug n)) as Pget.
      { repeat split; [by intros ? [= ->]|done]. }
      repeat case_match; try (by apply Hexc).
      exists [EvGet slug n]. split; [done|]. by apply Forall_singleton.
    - case_match; done.
    - assert (P (EvCreate slug (image_path out_dir slug))) as Pcreate.
      { repeat split; [done|]. intros; eauto. }
      destruct (file_write env slug n); simpl.
      + exists [EvCreate slug (image_path out_dir slug)]. split; [done|].
        by apply Forall_singleton.
      + apply Hexc0.
      + match goal with |- context [on_exception n (log ?s ?e)] =>
          destruct (Hexc s n e P Pcreate Psleep) as (evs & -> & Hevs) end.
        simpl. eauto.
    - destruct (append_raises env slug n); simpl; [apply Hexc0|].
      exists [EvAppend slug]. split; [done|]. apply Forall_singleton.
      by repeat split. }
  exists evs. split; [done|]. split; [|split].
  - eapply Forall_impl; [exact Hevs|]. by intros e (? & _).
  - intros n Hn. rewrite Forall_forall in Hevs.
    destruct (Hevs _ Hn) as (_ & H & _). by apply H.
  - intros p Hp. rewrite Forall_forall in Hevs.
    destruct (Hevs _ Hp) as (_ & _ & H). by apply (H p).
Qed.

Lemma wstep_seen slug w σ d :
  d ∈ st_seen (wstep slug w σ).2 ↔
  d ∈ st_seen σ ∨ (∃ n c, w = Fetched n c ∧ d = sha256 c ∧ d ∉ st_seen σ).
Proof.
  destruct w as [|n|n c|n c|n|o|]; simpl.
  - repeat case_match; naive_solver.
  - repeat case_match;
      try (match goal with |- context [on_exception n ?s] =>
        destruct (on_exception_store n s) as (_ & -> & _) end); simpl; naive_solver.
  - case_match; simpl; [naive_solver|].
    rewrite elem_of_union, elem_of_singleton.
    split; [|naive_solver].
    intros [->|?]; [|by left]. right. eauto.
  - destruct (file_write env slug n); simpl;
      try (match goal with |- context [on_exception n ?s] =>
        destruct (on_exception_store n s) as (_ & -> & _) end); simpl; naive_solver.
  - destruct (append_raises env slug n); simpl;
      try (match goal with |- context [on_exception n ?s] =>
        destruct (on_exception_store n s) as (_ & -> & _) end); simpl; naive_solver.
  - naive_solver.
  - naive_solver.
Qed.

End Worker.

Section Fetch.

Variable sha256 : string → string.
Variable env : environment.
Variable out_dir : string.

Local Abbreviation wstep := (wstep sha256 env out_dir).
Local Abbreviation fetch_loop := (fetch_loop sha256 env out_dir).
Local Abbreviation fetch := (fetch sha256 env out_dir).

Lemma fetch_pending fuel slug σ :
  makedirs_raises env slug = false →
  st_fs σ !! image_path out_dir slug = None →
  fetch_loop (S fuel) slug Pending σ = fetch_loop fuel slug (Attempting 1) σ.
Proof.
  intros Hmk Hfile. rewrite fetch_loop_S by done. cbn [wstep].
  rewrite Hmk. unfold path_exists. rewrite Hfile.
  rewrite bool_decide_eq_false_2; [done|]. by intros [? ?].
Qed.

Lemma fetch_attempt_fails fuel slug n σ :
  attempt_fails env slug n = true → n ≠ MAX_RETRIES →
  fetch_loop (S fuel) slug (Attempting n) σ
  = fetch_loop fuel slug (Attempting (S n))
      (log (log σ (EvGet slug n)) (EvSleep (backoff n))).
Proof.
  intros Ha Hn. rewrite fetch_loop_S by done.
  rewrite (attempt_fails_step _ _ _ _ _ _ Ha).
  by destruct (on_exception_cases n (log σ (EvGet slug n))) as [[? ->]|[? ->]].
Qed.

Lemma fetch_attempt_last fuel slug n σ :
  n = MAX_RETRIES → attempt_fails env slug n = true →
  fetch_loop (S fuel) slug (Attempting n) σ = (Returned Fail, log σ (EvGet slug n)).
Proof.
  intros Hn Ha. rewrite fetch_loop_S by done.
  rewrite (attempt_fails_step _ _ _ _ _ _ Ha).
  destruct (on_exception_cases n (log σ (EvGet slug n))) as [[? ->]|[? ->]]; [|done].
  by rewrite fetch_loop_finished.
Qed.

Lemma fetch_attempt_stores fuel slug n c σ :
  net_get env slug n = Response 200 c →
  sha256 c ∉ st_seen σ →
  file_write env slug n = WriteDone →
  append_raises env slug n = false →
  fetch_loop (S (S (S (S fuel)))) slug (Attempting n) σ
  = (Returned Ok,
     {| st_fs := append_file (<[image_path out_dir slug := c]> (st_fs σ))
                   (completed_path_of out_dir) (slug +:+ Text.NL);
        st_seen := {[sha256 c]} ∪ st_seen σ;
        st_trace := st_trace σ ++ [EvGet slug n;
                                   EvCreate slug (image_path out_dir slug);
                                   EvAppend slug] |}).
Proof.
  intros Hnet Hseen Hw Ha.
  rewrite fetch_loop_S by done.
  rewrite (attempt_succeeds_step _ _ _ _ _ _ _ Hnet). cbn [fst snd].
  rewrite fetch_loop_S by done. cbn [wstep].
  rewrite decide_False by done. cbn [fst snd].
  rewrite fetch_loop_S by done. cbn [wstep]. rewrite Hw. cbn [fst snd].
  rewrite fetch_loop_S by done. cbn [wstep]. rewrite Ha. cbn [fst snd].
  rewrite fetch_loop_finished by done.
  unfold log, set_fs, add_seen. simpl. by rewrite <- !app_assoc.
Qed.

Lemma fetch_attempt_dedup fuel slug n c σ :
  net_get env slug n = Response 200 c →
  sha256 c ∈ st_seen σ →
  fetch_loop (S (S fuel)) slug (Attempting n) σ
  = (Returned Dedup, log σ (EvGet slug n)).
Proof.
  intros Hnet Hseen.
  rewrite fetch_loop_S by done.
  rewrite (attempt_succeeds_step _ _ _ _ _ _ _ Hnet). cbn [fst snd].
  rewrite fetch_loop_S by done. cbn [wstep].
  rewrite decide_True by done. cbn [fst snd].
  by rewrite fetch_loop_finished.
Qed.

Lemma fetch_three_failures slug σ :
  st_fs σ !! image_path out_dir slug = None →
  makedirs_raises env slug = false →
  attempt_fails env slug 1 = true →
  attempt_fails env slug 2 = true →
  attempt_fails env slug 3 = true →
  ∃ σ3, fetch slug σ = fetch_loop 13 slug (Attempting 4) σ3
        ∧ st_fs σ3 = st_fs σ ∧ st_seen σ3 = st_seen σ
        ∧ st_trace σ3 ++ [EvGet slug 4] = st_trace σ ++ retry_trace slug.
Proof.
  intros Hfile Hmk H1 H2 H3. unfold fetch, FETCH_STEPS, MAX_RETRIES.
  change (1 + 4 * 4) with 17.
  rewrite fetch_pending by done.
  rewrite (fetch_attempt_fails _ _ 1) by done.
  rewrite (fetch_attempt_fails _ _ 2) by done.
  rewrite (fetch_attempt_fails _ _ 3) by done.
  eexists. split; [done|]. split; [done|]. split; [done|].
  unfold log, retry_trace. simpl. by rewrite <- !app_assoc.
Qed.

(** C3, as amended. For an identifier without a file, whose directory can
    be made: when the first three attempts fail and the fourth is answered
    with status 200, [download] returns [ok] if the digest of the payload
    is not yet in the registry and the payload and the log line can be
    written, and [dedup] if the digest is registered; when all four
    attempts fail it returns [fail] after four requests, with a sleep of
    [BACKOFF_BASE ^ attempt] after each of the first three, and these
    delays, 3/2, 9/4 and 27/8, increase strictly. *)
Theorem retry_backoff (slug : string) (σ : store) :
  st_fs σ !! image_path out_dir slug = None →
  makedirs_raises env slug = false →
  attempt_fails env slug 1 = true →
  attempt_fails env slug 2 = true →
  attempt_fails env slug 3 = true →
  (∀ c, net_get env slug 4 = Response 200 c →
     (sha256 c ∉ st_seen σ →
      file_write env slug 4 = WriteDone →
      append_raises env slug 4 = false →
      ∃ σ', fetch slug σ = (Returned Ok, σ')
            ∧ st_fs σ' !! image_path out_dir slug = Some c
            ∧ st_trace σ' = st_trace σ ++ retry_trace slug
                            ++ [EvCreate slug (image_path out_dir slug); EvAppend slug])
     ∧ (sha256 c ∈ st_seen σ →
        ∃ σ', fetch slug σ = (Returned Dedup, σ')
              ∧ st_fs σ' = st_fs σ
              ∧ st_trace σ' = st_trace σ ++ retry_trace slug))
  ∧ (attempt_fails env slug 4 = true →
     ∃ σ', fetch slug σ = (Returned Fail, σ')
           ∧ st_fs σ' = st_fs σ ∧ st_seen σ' = st_seen σ
           ∧ st_trace σ' = st_trace σ ++ retry_trace slug)
  ∧ (backoff 1 == 3 # 2 ∧ backoff 2 == 9 # 4 ∧ backoff 3 == 27 # 8
     ∧ backoff 1 < backoff 2 ∧ backoff 2 < backoff 3)%Q.
Proof.
  intros Hfile Hmk H1 H2 H3.
  destruct (fetch_three_failures slug σ Hfile Hmk H1 H2 H3)
    as (σ3 & -> & Hfs & Hseen & Htrace).
  split; [|split].
  - intros c Hnet. split.
    + intros Hc Hw Ha.
      rewrite (fetch_attempt_stores 9 slug 4 c σ3) by (done || by rewrite Hseen).
      eexists. split; [done|]. cbn [st_fs st_trace]. split.
      * unfold append_file.
        rewrite lookup_insert_ne by (apply not_eq_sym, image_path_ne_completed).
        apply lookup_insert_eq.
      * by rewrite (app_assoc (st_trace σ)), <- Htrace, <- app_assoc.
    + intros Hc.
      rewrite (fetch_attempt_dedup 11 slug 4 c σ3) by (done || by rewrite Hseen).
      eexists. split; [done|]. unfold log. cbn [st_fs st_trace]. by rewrite Hfs, <- Htrace.
  - intros H4. rewrite (fetch_attempt_last 12 slug 4 σ3) by done.
    eexists. split; [done|]. unfold log. cbn [st_fs st_seen st_trace].
    by rewrite Hfs, Hseen, <- Htrace.
  - by vm_compute.
Qed.

End Fetch.

Lemma retry_backoff_witness :
  ∃ σ', fetch DownloadExamples.digest DownloadExamples.env_down "out" "alpha"
          DownloadExamples.empty_store = (Returned Fail, σ')
        ∧ st_trace σ' = [] ++ retry_trace "alpha".
Proof.
  destruct (retry_backoff DownloadExamples.digest DownloadExamples.env_down "out" "alpha"
              DownloadExamples.empty_store) as (_ & H & _); try reflexivity.
  destruct (H eq_refl) as (σ' & E & _ & _ & Ht). by exists σ'.
Defined.

(** C3, as stated, fails: the identifier has no file, its first three
    attempts fail and the fourth is answered, but the registry holds the
    digest of the payload and [download] returns [dedup], not [ok]. *)
Lemma retry_backoff_counterexample :
  let env := DownloadExamples.env_retry in
  let σ := DownloadExamples.store_seen in
  st_fs σ !! image_path "out" "alpha" = None
  ∧ attempt_fails env "alpha" 1 = true
  ∧ attempt_fails env "alpha" 2 = true
  ∧ attempt_fails env "alpha" 3 = true
  ∧ net_get env "alpha" 4 = Response 200 "PNG-1"
  ∧ (fetch DownloadExamples.digest env "out" "alpha" σ).1 = Returned Dedup
  ∧ (fetch DownloadExamples.digest env "out" "alpha" σ).1 ≠ Returned Ok.
Proof. by vm_compute. Qed.

(** ** Download coordinator *)

Section Coordinator.

Variable sha256 : string → string.
Variable env : environment.
Variable out_dir : string.

Local Abbreviation wstep := (wstep sha256 env out_dir).
Local Abbreviation exec := (exec sha256 env out_dir).
Local Abbreviation run := (run sha256 env out_dir).
Local Abbreviation downloadAll := (downloadAll sha256 env out_dir).
Local Abbreviation stepped := (stepped sha256 env out_dir).

Lemma exec_step_cases st i :
  exec st (Step i) = st
  ∨ ∃ slug w, d_workers st !! i = Some (slug, w)
              ∧ can_run (d_workers st) i = true
              ∧ exec st (Step i) = stepped st i slug w.
Proof.
  simpl. destruct (d_workers st !! i) as [[slug w]|] eqn:Hi; [|by left].
  destruct (can_run (d_workers st) i) eqn:Hc; [|by left].
  right. exists slug, w. split; [done|]. split; [done|].
  unfold stepped. by destruct (wstep slug w (d_store st)).
Qed.

Lemma exec_collect_cases st i :
  exec st (Collect i) = st
  ∨ (d_aborted st = false ∧ (i ∉ d_collected st)
     ∧ ((∃ slug o, d_workers st !! i = Some (slug, Returned o)
         ∧ exec st (Collect i)
           = {| d_store := d_store st;
                d_workers := d_workers st;
                d_collected := i :: d_collected st;
                d_results := bump o (d_results st);
                d_failed := (if decide (o = Fail) then d_failed st ++ [slug]
                             else d_failed st);
                d_aborted := false |})
        ∨ (∃ slug, d_workers st !! i = Some (slug, Raised)
           ∧ exec st (Collect i)
             = {| d_store := d_store st;
                  d_workers := d_workers st;
                  d_collected := d_collected st;
                  d_results := d_results st;
                  d_failed := d_failed st;
                  d_aborted := true |}))).
Proof.
  simpl. destruct (d_aborted st) eqn:Ha; [by left|]. simpl.
  case_bool_decide as Hc; [by left|].
  destruct (d_workers st !! i) as [[slug w]|] eqn:Hi; [|by left].
  destruct w; try (by left); right; (split; [done|]); (split; [done|]).
  - left. eauto.
  - right. eauto.
Qed.

(** A property of the initial state that every action keeps holds after
    every schedule. *)
Lemma run_invariant (P : dstate → Prop) sched st :
  P st → (∀ st a, P st → P (exec st a)) → P (run sched st).
Proof.
  intros H0 Hstep. revert st H0. induction sched as [|a sched IH]; intros st H0; [done|].
  simpl. apply IH. by apply Hstep.
Qed.

(** A property of the shared store and the workers that every step of a
    worker keeps holds after every schedule. *)
Lemma run_invariant_workers (P : store → list (string * wstate) → Prop) sched st :
  P (d_store st) (d_workers st) →
  (∀ σ ws i slug w, P σ ws → ws !! i = Some (slug, w) →
     P (wstep slug w σ).2 (<[i := (slug, (wstep slug w σ).1)]> ws)) →
  P (d_store (run sched st)) (d_workers (run sched st)).
Proof.
  intros H0 Hstep.
  apply (run_invariant (λ st, P (d_store st) (d_workers st))); [done|].
  clear st H0. intros st [i|i] HP.
  - destruct (exec_step_cases st i) as [->|(slug & w & Hi & _ & ->)]; [done|].
    simpl. by apply Hstep.
  - destruct (exec_collect_cases st i)
      as [->|(_ & _ & [(slug & o & _ & ->)|(slug & _ & ->)])]; done.
Qed.

(** *** The identifiers of the futures do not change *)

Lemma workers_slugs sched st :
  (d_workers (run sched st)).*1 = (d_workers st).*1.
Proof.
  apply (run_invariant_workers (λ _ ws, ws.*1 = (d_workers st).*1)); [done|].
  intros σ ws i slug w Hws Hi. rewrite <- Hws.
  rewrite list_fmap_insert. simpl. apply list_insert_id.
  by rewrite list_lookup_fmap, Hi.
Qed.

Lemma submit_slugs fs ids : (d_workers (submit fs ids)).*1 = ids.
Proof.
  induction ids as [|x ids IH]; [done|]. simpl in *. by f_equal.
Qed.

(** *** What the main thread has collected *)

Lemma failing_at_insert ws idxs i slug w w' :
  ws !! i = Some (slug, w) →
  (∀ o, w = Returned o → w' = w) →
  (∀ j, j ∈ idxs → ∃ s o, ws !! j = Some (s, Returned o)) →
  failing_at (<[i := (slug, w')]> ws) idxs = failing_at ws idxs.
Proof.
  intros Hi Hw His. unfold failing_at. induction idxs as [|j idxs IH]; [done|].
  cbn [omap list_omap].
  rewrite IH by (intros; apply His; by right).
  destruct (decide (j = i)) as [->|Hne].
  - destruct (His i) as (s & o & Hio); [by left|].
    rewrite Hio in Hi. injection Hi as -> <-.
    rewrite (Hw o eq_refl), list_insert_id by done. done.
  - by rewrite list_lookup_insert_ne.
Qed.

Lemma wstep_returned slug o σ : wstep slug (Returned o) σ = (Returned o, σ).
Proof. done. Qed.

Lemma collected_ok_exec st a : collected_ok st → collected_ok (exec st a).
Proof.
  intros (Hnd & Hret & Hfailed). destruct a as [i|i].
  - destruct (exec_step_cases st i) as [->|(slug & w & Hi & _ & ->)]; [done|].
    unfold collected_ok, stepped. simpl. split; [done|]. split.
    + intros j Hj. destruct (Hret j Hj) as (s & o & Hjo).
      destruct (decide (j = i)) as [->|Hne].
      * rewrite Hjo in Hi. injection Hi as -> <-.
        rewrite list_insert_id by done. eauto.
      * rewrite list_lookup_insert_ne by done. eauto.
    + rewrite Hfailed. symmetry. eapply failing_at_insert; [exact Hi| |].
      * intros o ->. reflexivity.
      * intros j Hj. apply Hret. by apply elem_of_reverse.
  - destruct (exec_collect_cases st i)
      as [->|(_ & Hni & [(slug & o & Hi & ->)|(slug & _ & ->)])]; [done| |done].
    unfold collected_ok. simpl. split; [by constructor|]. split.
    + intros j [->|Hj]%elem_of_cons; eauto.
    + rewrite reverse_cons. unfold failing_at. rewrite omap_app. simpl.
      rewrite Hi. fold (failing_at (d_workers st) (reverse (d_collected st))).
      rewrite <- Hfailed. destruct o; simpl; by rewrite ?app_nil_r.
Qed.

Lemma collected_ok_run sched fs ids : collected_ok (run sched (submit fs ids)).
Proof.
  apply (run_invariant collected_ok); [|apply collected_ok_exec].
  split; [constructor|]. split; [by intros i ?%elem_of_nil|done].
Qed.

Lemma all_collected_perm st :
  NoDup (d_collected st) →
  (∀ i, i ∈ d_collected st → i < length (d_workers st)) →
  all_collected st = true →
  reverse (d_collected st) ≡ₚ seq 0 (length (d_workers st)).
Proof.
  intros Hnd Hlt Hall. rewrite reverse_Permutation.
  apply NoDup_Permutation; [done|apply NoDup_seq|].
  intros i. rewrite elem_of_seq. split.
  - intros Hi%Hlt. lia.
  - intros Hi. unfold all_collected in Hall. rewrite forallb_forall in Hall.
    eapply bool_decide_eq_true_1, Hall. apply list_elem_of_In, elem_of_seq. lia.
Qed.

Lemma failing_at_seq ws : failing_at ws (seq 0 (length ws)) = failing ws.
Proof.
  induction ws as [|[slug w] ws IH] using rev_ind; [done|].
  rewrite length_app. simpl. rewrite Nat.add_1_r, seq_S. simpl.
  unfold failing_at, failing in *. rewrite !omap_app. simpl.
  rewrite list_lookup_middle by done. f_equal.
  rewrite <- IH. apply list_omap_ext.
  apply Forall2_same_length_lookup_2; [done|].
  intros i x y Hx Hy. rewrite Hx in Hy. injection Hy as <-.
  apply lookup_seq in Hx as [-> Hlt]. simpl. by rewrite lookup_app_l.
Qed.

Lemma all_collected_failed st :
  collected_ok st → all_collected st = true → d_failed st ≡ₚ failing (d_workers st).
Proof.
  intros (Hnd & Hret & ->) Hall.
  rewrite <- failing_at_seq. unfold failing_at.
  apply omap_Permutation, all_collected_perm; [done| |done].
  intros i Hi. destruct (Hret i Hi) as (s & o & Hio). by apply lookup_lt_Some in Hio.
Qed.

Lemma all_collected_returned st :
  collected_ok st → all_collected st = true →
  ∀ i slug w, d_workers st !! i = Some (slug, w) → ∃ o, w = Returned o.
Proof.
  intros (_ & Hret & _) Hall i slug w Hi.
  unfold all_collected in Hall. rewrite forallb_forall in Hall.
  apply lookup_lt_Some in Hi as Hlt.
  destruct (Hret i) as (s & o & Hio).
  - eapply bool_decide_eq_true_1, Hall. apply list_elem_of_In, elem_of_seq. lia.
  - rewrite Hio in Hi. injection Hi as -> <-. eauto.
Qed.

End Coordinator.

Section Runs.

Variable sha256 : string → string.
Variable env : environment.
Variable out_dir : string.

Local Abbreviation wstep := (wstep sha256 env out_dir).
Local Abbreviation exec := (exec sha256 env out_dir).
Local Abbreviation run := (run sha256 env out_dir).
Local Abbreviation downloadAll := (downloadAll sha256 env out_dir).
Local Abbreviation save_failed := (save_failed out_dir).

(** A property of each worker that its steps keep. *)
Lemma run_invariant_each (Q : string → wstate → Prop) sched st :
  (∀ slug w σ, Q slug w → Q slug (wstep slug w σ).1) →
  (∀ i slug w, d_workers st !! i = Some (slug, w) → Q slug w) →
  ∀ i slug w, d_workers (run sched st) !! i = Some (slug, w) → Q slug w.
Proof.
  intros Hstep H0.
  apply (run_invariant_workers sha256 env out_dir
           (λ _ ws, ∀ i slug w, ws !! i = Some (slug, w) → Q slug w)); [done|].
  intros σ ws i slug w Hws Hi j s v Hj.
  destruct (decide (j = i)) as [->|Hne].
  - rewrite list_lookup_insert_eq in Hj by (by eapply lookup_lt_Some).
    injection Hj as <- <-. eapply Hstep, Hws, Hi.
  - rewrite list_lookup_insert_ne in Hj by done. by eapply Hws.
Qed.

Lemma submit_lookup fs ids i slug w :
  d_workers (submit fs ids) !! i = Some (slug, w) → ids !! i = Some slug ∧ w = Pending.
Proof.
  simpl. rewrite list_lookup_fmap. destruct (ids !! i); simpl; [|done].
  by intros [= -> <-].
Qed.

(** The parts of a run that reaches the end of [main]. *)
Lemma downloadAll_done slugs sched fs st :
  downloadAll slugs sched fs = RunDone st →
  ∃ ids, ids = filter (λ s, s ∉ load_checkpoint fs (completed_path_of out_dir)) slugs
         ∧ all_finished (run sched (submit fs ids)) = true
         ∧ d_aborted (run sched (submit fs ids)) = false
         ∧ all_collected (run sched (submit fs ids)) = true
         ∧ st = save_failed (run sched (submit fs ids)).
Proof.
  unfold downloadAll.
  set (ids := filter _ slugs). intros H. exists ids. split; [done|].
  destruct ids as [|x ids'] eqn:E; [done|]. rewrite <- E in *. clear E.
  destruct (all_finished _) eqn:Hf; [|done]. simpl in H.
  destruct (d_aborted _) eqn:Ha; [done|].
  destruct (all_collected _) eqn:Hc; [|done]. simpl in H.
  by injection H as <-.
Qed.

Lemma downloadAll_state slugs sched fs st :
  result_state (downloadAll slugs sched fs) = Some st →
  let ids := filter (λ s, s ∉ load_checkpoint fs (completed_path_of out_dir)) slugs in
  st = run sched (submit fs ids) ∨ st = save_failed (run sched (submit fs ids)).
Proof.
  unfold downloadAll.
  set (ids := filter _ slugs). intros H. simpl.
  destruct ids as [|x ids'] eqn:E; [done|]. rewrite <- E in *. clear E.
  destruct (all_finished _); simpl in H; [|injection H as <-; by left].
  destruct (d_aborted _); simpl in H; [injection H as <-; by left|].
  destruct (all_collected _); simpl in H; injection H as <-; [by right|by left].
Qed.

(** *** The write of the failed list *)

Lemma save_failed_workers st : d_workers (save_failed st) = d_workers st.
Proof. unfold save_failed. by destruct (d_failed st). Qed.

Lemma save_failed_failed st : d_failed (save_failed st) = d_failed st.
Proof. unfold save_failed. by destruct (d_failed st) eqn:E. Qed.

Lemma save_failed_empty st : d_failed st = [] → save_failed st = st.
Proof. unfold save_failed. by intros ->. Qed.

Lemma save_failed_written st :
  d_failed st ≠ [] →
  let path := failed_path_of out_dir in
  let content := Text.join Text.NL (d_failed st) +:+ Text.NL in
  st_fs (d_store (save_failed st)) = atomic_write (st_fs (d_store st)) path content
  ∧ st_trace (d_store (save_failed st))
    = st_trace (d_store st) ++ [EvAtomicWrite path content].
Proof. unfold save_failed. by destruct (d_failed st). Qed.

Lemma save_failed_fs_mono st q :
  q ≠ tmp_path_of (failed_path_of out_dir) →
  is_Some (st_fs (d_store st) !! q) → is_Some (st_fs (d_store (save_failed st)) !! q).
Proof.
  intros Hq Hsome. destruct (decide (d_failed st = [])) as [E|E].
  - by rewrite save_failed_empty.
  - destruct (save_failed_written st E) as [-> _].
    destruct (decide (q = failed_path_of out_dir)) as [->|Hne].
    + rewrite atomic_write_lookup. eauto.
    + by rewrite atomic_write_other.
Qed.

Lemma save_failed_fs_other st q :
  q ≠ failed_path_of out_dir → q ≠ tmp_path_of (failed_path_of out_dir) →
  st_fs (d_store (save_failed st)) !! q = st_fs (d_store st) !! q.
Proof.
  intros Hq1 Hq2. destruct (decide (d_failed st = [])) as [E|E].
  - by rewrite save_failed_empty.
  - destruct (save_failed_written st E) as [-> _]. by rewrite atomic_write_other.
Qed.

Lemma worker_event_not_list_write slug e : worker_event slug e → not_list_write e.
Proof. intros He p c ->. done. Qed.

Lemma run_trace_workers sched fs ids :
  Forall not_list_write (st_trace (d_store (run sched (submit fs ids)))).
Proof.
  apply (run_invariant_workers sha256 env out_dir
           (λ σ _, Forall not_list_write (st_trace σ))); [constructor|].
  intros σ ws i slug w Hσ _.
  destruct (wstep_trace sha256 env out_dir slug w σ) as (evs & -> & Hevs & _).
  apply Forall_app. split; [done|].
  eapply Forall_impl; [exact Hevs|]. apply worker_event_not_list_write.
Qed.

Lemma run_failed_path sched fs ids :
  st_fs (d_store (run sched (submit fs ids))) !! failed_path_of out_dir
  = fs !! failed_path_of out_dir.
Proof.
  apply (run_invariant_workers sha256 env out_dir
           (λ σ _, st_fs σ !! failed_path_of out_dir = fs !! failed_path_of out_dir));
    [done|].
  intros σ ws i slug w Hσ _. rewrite <- Hσ. apply wstep_fs_other.
  - apply not_eq_sym, image_path_ne_failed.
  - apply not_eq_sym, completed_path_ne_failed.
Qed.

(** C5, as amended. In a run that reaches the end of [main], the list
    [failed_slugs] holds the identifiers whose outcome was [fail], each
    once.  When there is one at least, the failed-downloads file is
    written once, as the last effect of the run, and then holds these
    identifiers, one per line, in place of what it held; when there is
    none, the file is not written and keeps what it held before the run. *)
Theorem failed_list_saved (slugs : list string) (sched : list action)
    (fs : filesystem) (st : dstate) :
  downloadAll slugs sched fs = RunDone st →
  let path := failed_path_of out_dir in
  let content := Text.join Text.NL (d_failed st) +:+ Text.NL in
  d_failed st ≡ₚ failing (d_workers st)
  ∧ (d_failed st ≠ [] →
     st_fs (d_store st) !! path = Some content
     ∧ ∃ t, st_trace (d_store st) = t ++ [EvAtomicWrite path content]
            ∧ Forall not_list_write t)
  ∧ (d_failed st = [] →
     st_fs (d_store st) !! path = fs !! path
     ∧ Forall not_list_write (st_trace (d_store st))).
Proof.
  intros (ids & _ & Hfin & Hab & Hcol & ->)%downloadAll_done path content.
  subst content. rewrite save_failed_failed, save_failed_workers.
  set (st0 := run sched (submit fs ids)) in *.
  split; [|split].
  - apply all_collected_failed; [apply collected_ok_run|done].
  - intros Hne. destruct (save_failed_written st0 Hne) as [-> ->].
    split; [apply atomic_write_lookup|].
    eexists. split; [done|]. apply run_trace_workers.
  - intros E. rewrite save_failed_empty by done.
    split; [apply run_failed_path|apply run_trace_workers].
Qed.

End Runs.

Lemma failed_list_saved_witness :
  match downloadAll DownloadExamples.digest DownloadExamples.env_beta_down "out"
          ["alpha"; "beta"] (sequential 2) ∅ with
  | RunDone st =>
      d_failed st = ["beta"]
      ∧ st_fs (d_store st) !! failed_path_of "out" = Some ("beta" +:+ Text.NL)
  | _ => False
  end.
Proof.
  destruct (downloadAll _ _ _ _ _ _) as [|st|st|st] eqn:E; try (by vm_compute in E).
  destruct (failed_list_saved _ _ _ _ _ _ _ E) as (_ & H & _).
  assert (d_failed st = ["beta"]) as Ef by (vm_compute in E; by injection E as <-).
  split; [done|]. rewrite Ef in H. by destruct H as [-> _].
Defined.

(** C5, as stated, fails: the run has no failure, so the file is not
    written, and the identifier an earlier run recorded is still in it. *)
Lemma failed_list_counterexample :
  ∃ st, downloadAll DownloadExamples.digest DownloadExamples.env_up "out"
          ["alpha"] (sequential 1) DownloadExamples.fs_stale = RunDone st
        ∧ failing (d_workers st) = []
        ∧ load_checkpoint (st_fs (d_store st)) (failed_path_of "out") = {["omega"]}
        ∧ Forall not_list_write (st_trace (d_store st)).
Proof.
  eexists. split; [by vm_compute|]. split; [done|]. split; [by vm_compute|].
  repeat constructor; by intros ? ?.
Qed.

Section Outcomes.

Variable sha256 : string → string.
Variable env : environment.
Variable out_dir : string.

Local Abbreviation wstep := (wstep sha256 env out_dir).
Local Abbreviation fetch_loop := (fetch_loop sha256 env out_dir).
Local Abbreviation fetch := (fetch sha256 env out_dir).
Local Abbreviation run := (run sha256 env out_dir).
Local Abbreviation downloadAll := (downloadAll sha256 env out_dir).
Local Abbreviation save_failed := (save_failed out_dir).

(** *** Exceptions inside and outside the retry loop *)

Lemma on_exception_state n σ :
  (on_exception n σ).1 = if n =? MAX_RETRIES then Returned Fail else Attempting (S n).
Proof. unfold on_exception. by destruct (n =? MAX_RETRIES). Qed.

Lemma wstep_makedirs slug w σ :
  makedirs_seen env slug w → makedirs_seen env slug (wstep slug w σ).1.
Proof.
  destruct w as [|n|n c|n c|n|o|]; cbn [wstep]; intros H.
  - destruct (makedirs_raises env slug) eqn:E; [done|].
    by destruct (path_exists _ _).
  - destruct (net_get env slug n) as [|status c];
      [|destruct (status =? 200)%Z]; rewrite ?on_exception_state;
      try destruct (n =? MAX_RETRIES); done.
  - by destruct (decide _).
  - destruct (file_write env slug n); rewrite ?on_exception_state;
      try destruct (n =? MAX_RETRIES); done.
  - destruct (append_raises env slug n); rewrite ?on_exception_state;
      try destruct (n =? MAX_RETRIES); done.
  - done.
  - done.
Qed.

Lemma fetch_loop_makedirs fuel slug w σ :
  makedirs_seen env slug w → makedirs_seen env slug (fetch_loop fuel slug w σ).1.
Proof.
  revert w σ. induction fuel as [|fuel IH]; intros w σ H; [done|].
  destruct (finished w) eqn:Hf.
  - by rewrite fetch_loop_finished.
  - rewrite fetch_loop_S by done. by apply IH, wstep_makedirs.
Qed.

Lemma fetch_returns slug σ :
  makedirs_raises env slug = false → ∃ o, (fetch slug σ).1 = Returned o.
Proof.
  intros Hmk.
  pose proof (fetch_finishes sha256 env out_dir slug σ) as Hfin.
  pose proof (fetch_loop_makedirs FETCH_STEPS slug Pending σ I) as Hseen.
  fold (fetch slug σ) in Hseen.
  destruct (fetch slug σ).1; try done; [eauto|].
  simpl in Hseen. congruence.
Qed.

Lemma fetch_raises slug σ :
  makedirs_raises env slug = true → fetch slug σ = (Raised, σ).
Proof.
  intros Hmk. unfold fetch, FETCH_STEPS. simpl. by rewrite Hmk.
Qed.

Lemma run_makedirs sched fs ids i slug w :
  d_workers (run sched (submit fs ids)) !! i = Some (slug, w) →
  makedirs_seen env slug w.
Proof.
  apply (run_invariant_each sha256 env out_dir (makedirs_seen env)).
  - apply wstep_makedirs.
  - by intros j s v [_ ->]%submit_lookup.
Qed.

(** C6, as amended. An error of the file system while the payload is
    written or the log line appended is caught by the [except] clause of
    the attempt like an error of the request: the worker sleeps and goes
    to the next attempt, or returns [fail] in the last one.  So a worker
    whose directory can be made always returns an outcome, and a run that
    reaches the end of [main] has an outcome for every worker.  Only the
    error of [os.makedirs], before the loop, leaves the worker, and then
    the run does not reach the end of [main]. *)
Theorem filesystem_errors_handled (slug : string) :
  (∀ n c σ, file_write env slug n ≠ WriteDone →
            ∃ σ', wstep slug (Claimed n c) σ = on_exception n σ')
  ∧ (∀ n σ, append_raises env slug n = true →
            wstep slug (Written n) σ = on_exception n σ)
  ∧ (∀ n σ, (on_exception n σ).1
            = if n =? MAX_RETRIES then Returned Fail else Attempting (S n))
  ∧ (∀ σ, makedirs_raises env slug = false → ∃ o, (fetch slug σ).1 = Returned o)
  ∧ (∀ σ, makedirs_raises env slug = true → fetch slug σ = (Raised, σ))
  ∧ (∀ slugs sched fs st,
       downloadAll slugs sched fs = RunDone st →
       ∀ i s w, d_workers st !! i = Some (s, w) →
                (∃ o, w = Returned o) ∧ makedirs_raises env s = false).
Proof.
  split; [|split; [|split; [|split; [|split]]]].
  - intros n c σ Hw. cbn [wstep]. destruct (file_write env slug n); [done|eauto..].
  - intros n σ Ha. cbn [wstep]. by rewrite Ha.
  - apply on_exception_state.
  - apply fetch_returns.
  - apply fetch_raises.
  - intros slugs sched fs st (ids & _ & Hfin & Hab & Hcol & ->)%downloadAll_done i s w.
    rewrite save_failed_workers. intros Hi.
    destruct (all_collected_returned _ (collected_ok_run sha256 env out_dir sched fs ids)
                Hcol i s w Hi) as [o ->].
    split; [eauto|]. by apply (run_makedirs _ _ _ _ _ _ Hi).
Qed.

(** *** Files of stored and skipped identifiers *)

Lemma wstep_has_file slug w σ :
  (has_file w → is_Some (st_fs σ !! image_path out_dir slug)) →
  has_file (wstep slug w σ).1 →
  is_Some (st_fs (wstep slug w σ).2 !! image_path out_dir slug).
Proof.
  assert (∀ n s, ¬ has_file (on_exception n s).1) as Hexc.
  { intros n s. rewrite on_exception_state.
    destruct (n =? MAX_RETRIES); simpl; tauto. }
  destruct w as [|n|n c|n c|n|o|]; cbn [wstep]; intros H.
  - destruct (makedirs_raises env slug); [done|].
    destruct (path_exists _ _) eqn:E; [|done].
    intros _. by apply bool_decide_eq_true_1 in E.
  - destruct (net_get env slug n) as [|status c];
      [|destruct (status =? 200)%Z]; try done; by intros ?%Hexc.
  - by destruct (decide _).
  - destruct (file_write env slug n); try (by intros ?%Hexc).
    intros _. simpl. rewrite lookup_insert_eq. eauto.
  - destruct (append_raises env slug n); try (by intros ?%Hexc).
    intros _. simpl. unfold append_file.
    rewrite lookup_insert_ne by (apply not_eq_sym, image_path_ne_completed).
    by apply H.
  - done.
  - done.
Qed.

Lemma run_has_file sched fs ids i slug w :
  d_workers (run sched (submit fs ids)) !! i = Some (slug, w) →
  has_file w →
  is_Some (st_fs (d_store (run sched (submit fs ids))) !! image_path out_dir slug).
Proof.
  revert i slug w.
  apply (run_invariant_workers sha256 env out_dir
           (λ σ ws, ∀ i slug w, ws !! i = Some (slug, w) → has_file w →
                                is_Some (st_fs σ !! image_path out_dir slug))).
  - by intros i slug w [_ ->]%submit_lookup.
  - intros σ ws i slug w Hinv Hi j s v Hj Hv.
    destruct (decide (j = i)) as [->|Hne].
    + rewrite list_lookup_insert_eq in Hj by (by eapply lookup_lt_Some).
      injection Hj as <- <-. apply wstep_has_file; [|done]. by apply (Hinv i).
    + rewrite list_lookup_insert_ne in Hj by done.
      apply wstep_fs_mono. by apply (Hinv j s v).
Qed.

(** *** A worker whose file is there does not fetch *)

Lemma wstep_skipping slug w σ :
  is_Some (st_fs σ !! image_path out_dir slug) → skipping w →
  skipping (wstep slug w σ).1 ∧ (wstep slug w σ).2 = σ.
Proof.
  intros Hfile [->|[->| ->]]; cbn [wstep]; [|split; [right; auto|done]..].
  destruct (makedirs_raises env slug); [split; [|done]; right; by right|].
  unfold path_exists. rewrite bool_decide_eq_true_2 by done.
  split; [|done]. right. by left.
Qed.

Lemma run_skipping sched fs ids slug :
  is_Some (fs !! image_path out_dir slug) →
  (∀ i w, d_workers (run sched (submit fs ids)) !! i = Some (slug, w) → skipping w)
  ∧ (∀ n, EvGet slug n ∉ st_trace (d_store (run sched (submit fs ids)))).
Proof.
  intros Hfile.
  assert (is_Some (st_fs (d_store (run sched (submit fs ids))) !! image_path out_dir slug)
          ∧ (∀ i w, d_workers (run sched (submit fs ids)) !! i = Some (slug, w) → skipping w)
          ∧ (∀ n, EvGet slug n ∉ st_trace (d_store (run sched (submit fs ids)))))
    as (_ & H1 & H2); [|done].
  apply (run_invariant_workers sha256 env out_dir
           (λ σ ws, is_Some (st_fs σ !! image_path out_dir slug)
                    ∧ (∀ i w, ws !! i = Some (slug, w) → skipping w)
                    ∧ (∀ n, EvGet slug n ∉ st_trace σ))).
  - split; [done|]. split; [|by intros n ?%elem_of_nil].
    intros i w [_ ->]%submit_lookup. by left.
  - intros σ ws i s w (Hf & Hsk & Htr) Hi.
    split; [by apply wstep_fs_mono|].
    destruct (decide (s = slug)) as [->|Hne].
    + destruct (wstep_skipping slug w σ Hf (Hsk i w Hi)) as [Hw' ->].
      split; [|done]. intros j v Hj.
      destruct (decide (j = i)) as [->|Hji].
      * rewrite list_lookup_insert_eq in Hj by (by eapply lookup_lt_Some).
        by injection Hj as <-.
      * rewrite list_lookup_insert_ne in Hj by done. by eapply Hsk.
    + split.
      * intros j v Hj. destruct (decide (j = i)) as [->|Hji].
        -- rewrite list_lookup_insert_eq in Hj by (by eapply lookup_lt_Some).
           by injection Hj as ? _.
        -- rewrite list_lookup_insert_ne in Hj by done. by eapply Hsk.
      * intros n.
        destruct (wstep_trace sha256 env out_dir s w σ) as (evs & -> & Hevs & _).
        rewrite elem_of_app. intros [Hin|Hin]; [by apply (Htr n)|].
        rewrite Forall_forall in Hevs. by apply Hevs in Hin.
Qed.

(** The requests of a run are for the identifiers it has started. *)
Lemma run_gets sched fs ids slug n :
  EvGet slug n ∈ st_trace (d_store (run sched (submit fs ids))) → slug ∈ ids.
Proof.
  intros Hin.
  rewrite <- (submit_slugs fs ids), <- (workers_slugs sha256 env out_dir sched).
  revert Hin.
  apply (run_invariant_workers sha256 env out_dir
           (λ σ ws, EvGet slug n ∈ st_trace σ → slug ∈ ws.*1)).
  - by intros ?%elem_of_nil.
  - intros σ ws i s w Hinv Hi.
    assert ((<[i := (s, (wstep s w σ).1)]> ws).*1 = ws.*1) as ->.
    { rewrite list_fmap_insert. simpl. apply list_insert_id.
      by rewrite list_lookup_fmap, Hi. }
    destruct (wstep_trace sha256 env out_dir s w σ) as (evs & -> & Hevs & _).
    rewrite elem_of_app. intros [Hin|Hin]; [by apply Hinv|].
    rewrite Forall_forall in Hevs. apply Hevs in Hin. simpl in Hin. subst s.
    apply list_elem_of_fmap. exists (slug, w). split; [done|].
    by eapply list_elem_of_lookup_2.
Qed.

Lemma save_failed_gets st slug n :
  EvGet slug n ∈ st_trace (d_store (save_failed st)) →
  EvGet slug n ∈ st_trace (d_store st).
Proof.
  destruct (decide (d_failed st = [])) as [E|E].
  - by rewrite save_failed_empty.
  - destruct (save_failed_written out_dir st E) as [_ ->].
    rewrite elem_of_app. intros [?|Hin]; [done|].
    by apply list_elem_of_singleton in Hin.
Qed.

End Outcomes.

Lemma filesystem_errors_handled_witness :
  ∃ o, (fetch DownloadExamples.digest DownloadExamples.env_disk_full "out" "alpha"
          DownloadExamples.empty_store).1 = Returned o.
Proof.
  destruct (filesystem_errors_handled DownloadExamples.digest
              DownloadExamples.env_disk_full "out" "alpha") as (_ & _ & _ & H & _).
  by apply H.
Defined.

(** C6, as stated, fails: the write of the payload raises in the first
    attempt, the worker goes to the second attempt and returns an outcome,
    and the run reaches the end of [main]. *)
Lemma filesystem_errors_counterexample :
  file_write DownloadExamples.env_disk_full "alpha" 1 = WriteRaises 2
  ∧ ∃ st, downloadAll DownloadExamples.digest DownloadExamples.env_disk_full "out"
            ["alpha"] (sequential 1) ∅ = RunDone st
          ∧ d_workers st = [("alpha", Returned Dedup)]
          ∧ d_aborted st = false.
Proof. split; [done|]. eexists. split; [by vm_compute|]. by split. Qed.

(** C9: the code breaks the claim.  The worker registers the digest before
    it writes the file, and the [except] clause does not take it back: when
    the write raises after the file was created, the next attempt finds the
    digest of its own payload and returns [dedup], with a truncated file at
    the destination of the identifier. *)
Theorem dedup_leaves_partial_file :
  let σ := DownloadExamples.empty_store in
  let r := fetch DownloadExamples.digest DownloadExamples.env_disk_full "out" "alpha" σ in
  r.1 = Returned Dedup
  ∧ st_fs σ !! image_path "out" "alpha" = None
  ∧ st_fs r.2 !! image_path "out" "alpha" = Some "PN"
  ∧ st_trace r.2 = [EvGet "alpha" 1; EvCreate "alpha" (image_path "out" "alpha");
                    EvSleep (backoff 1); EvGet "alpha" 2].
Proof. by vm_compute. Qed.

(** The step that returns [dedup] changes nothing by itself. *)
Lemma dedup_step_frame sha256 env out_dir slug n c σ σ' :
  wstep sha256 env out_dir slug (Fetched n c) σ = (Returned Dedup, σ') → σ' = σ.
Proof. simpl. destruct (decide _); [by intros [= <-]|done]. Qed.

Section Rerun.

Variable sha256 : string → string.
Variables env1 env2 : environment.
Variable out_dir : string.

(** C1, as amended. After a run that reaches the end of [main], a second
    run over the same identifiers, from the files the first one left,
    sends no request for an identifier whose outcome was [ok] or [skip]:
    its file is there, so it is filtered out by the completed set or
    skipped.  When every identifier of the list had one of these two
    outcomes the second run sends no request at all.  (An identifier
    whose outcome was [dedup] or [fail] has no file and no line in the
    log, and is fetched again.) *)
Theorem rerun_skips_stored (slugs : list string) (sched1 sched2 : list action)
    (fs : filesystem) (st1 st2 : dstate) :
  downloadAll sha256 env1 out_dir slugs sched1 fs = RunDone st1 →
  result_state (downloadAll sha256 env2 out_dir slugs sched2 (st_fs (d_store st1)))
    = Some st2 →
  (∀ slug o, (slug, Returned o) ∈ d_workers st1 → o = Ok ∨ o = Skip →
     (∀ n, EvGet slug n ∉ st_trace (d_store st2))
     ∧ (∀ w, (slug, w) ∈ d_workers st2 → skipping w))
  ∧ ((∀ slug, slug ∈ slugs →
        ∃ o, (slug, Returned o) ∈ d_workers st1 ∧ (o = Ok ∨ o = Skip)) →
     ∀ slug n, EvGet slug n ∉ st_trace (d_store st2)).
Proof.
  intros H1 H2.
  assert (∀ slug o, (slug, Returned o) ∈ d_workers st1 → o = Ok ∨ o = Skip →
     (∀ n, EvGet slug n ∉ st_trace (d_store st2))
     ∧ (∀ w, (slug, w) ∈ d_workers st2 → skipping w)) as Hone.
  { intros slug o Hin Ho.
    apply downloadAll_done in H1 as (ids1 & _ & _ & _ & _ & ->).
    rewrite save_failed_workers in Hin.
    apply list_elem_of_lookup in Hin as [i Hi].
    assert (is_Some (st_fs (d_store (save_failed out_dir
              (run sha256 env1 out_dir sched1 (submit fs ids1))))
              !! image_path out_dir slug)) as Hfile.
    { apply save_failed_fs_mono; [apply image_path_ne_failed_tmp|].
      eapply run_has_file; [exact Hi|]. by destruct Ho as [-> | ->]. }
    apply downloadAll_state in H2. simpl in H2.
    set (ids2 := filter _ slugs) in H2.
    destruct (run_skipping sha256 env2 out_dir sched2 _ ids2 slug Hfile) as [Hsk Hget].
    destruct H2 as [-> | ->].
    - split; [done|]. intros w [j Hj]%list_elem_of_lookup. by eapply Hsk.
    - rewrite save_failed_workers. split.
      + intros n Hn%save_failed_gets. by apply (Hget n).
      + intros w [j Hj]%list_elem_of_lookup. by eapply Hsk. }
  split; [done|].
  intros Hall slug n Hin.
  assert (slug ∈ slugs) as Hslug.
  { apply downloadAll_state in H2. simpl in H2.
    set (ids2 := filter _ slugs) in H2.
    assert (slug ∈ ids2) as Hids.
    { destruct H2 as [-> | ->]; [|apply save_failed_gets in Hin];
        by eapply run_gets. }
    by apply list_elem_of_filter in Hids as [_ ?]. }
  destruct (Hall slug Hslug) as (o & Ho1 & Ho2).
  destruct (Hone slug o Ho1 Ho2) as [Hget _]. by apply (Hget n).
Qed.

End Rerun.

Lemma rerun_skips_stored_witness :
  match downloadAll DownloadExamples.digest DownloadExamples.env_up "out"
          ["alpha"; "beta"; "gamma"] (sequential 3) ∅ with
  | RunDone st1 =>
      match result_state
              (downloadAll DownloadExamples.digest DownloadExamples.env_up "out"
                 ["alpha"; "beta"; "gamma"] (sequential 1) (st_fs (d_store st1))) with
      | Some st2 => EvGet "alpha" 1 ∉ st_trace (d_store st2)
      | None => False
      end
  | _ => False
  end.
Proof.
  destruct (downloadAll _ _ _ _ _ _) as [|st1|st1|st1] eqn:E1; try (by vm_compute in E1).
  assert (st1 = match downloadAll DownloadExamples.digest DownloadExamples.env_up "out"
                        ["alpha"; "beta"; "gamma"] (sequential 3) ∅ with
                | RunDone st => st | _ => st1 end) as Est by (by rewrite E1).
  vm_compute in Est.
  destruct (result_state _) as [st2|] eqn:E2; [|subst st1; by vm_compute in E2].
  destruct (rerun_skips_stored _ _ _ _ _ _ _ _ _ _ E1 E2) as [H _].
  apply (H "alpha" Ok); [|by left]. rewrite Est. simpl. apply list_elem_of_here.
Defined.

(** C1, as stated, fails: [gamma] has the payload of [beta] and its outcome
    in the first run is [dedup]; nothing is stored or logged for it, and the
    second run requests it again and stores it. *)
Lemma rerun_counterexample :
  ∃ st1 st2,
    downloadAll DownloadExamples.digest DownloadExamples.env_up "out"
      ["alpha"; "beta"; "gamma"] (sequential 3) ∅ = RunDone st1
    ∧ d_workers st1
      = [("alpha", Returned Ok); ("beta", Returned Ok); ("gamma", Returned Dedup)]
    ∧ downloadAll DownloadExamples.digest DownloadExamples.env_up "out"
        ["alpha"; "beta"; "gamma"] (sequential 1) (st_fs (d_store st1)) = RunDone st2
    ∧ d_workers st2 = [("gamma", Returned Ok)]
    ∧ st_trace (d_store st2) !! 0 = Some (EvGet "gamma" 1).
Proof.
  eexists _, _. split; [by vm_compute|]. split; [done|].
  split; [by vm_compute|]. by split.
Qed.

(** ** Two identifiers with one payload *)

Lemma creations_snoc x t e :
  creations x (t ++ [e]) = creations x t + (if creates_for x e then 1 else 0).
Proof.
  unfold creations. rewrite filter_app, length_app. f_equal.
  rewrite filter_cons, filter_nil. by destruct (creates_for x e); simpl.
Qed.

Lemma creations_app_other x s t evs :
  s ≠ x → Forall (worker_event s) evs → creations x (t ++ evs) = creations x t.
Proof.
  intros Hne Hevs. unfold creations. rewrite filter_app, length_app.
  assert (filter (λ e, creates_for x e = true) evs = []) as ->; [|simpl; lia].
  induction Hevs as [|e evs He _ IH]; [done|].
  rewrite filter_cons, IH. destruct e; simpl in *; try done.
  subst. by rewrite bool_decide_eq_false_2.
Qed.

Lemma twin_inv_sym sha256 out_dir p a b ka kb ia ib σ ws :
  twin_inv sha256 out_dir p a b ka kb ia ib σ ws →
  twin_inv sha256 out_dir p b a kb ka ib ia σ ws.
Proof.
  intros (wa & wb & H1 & H2 & H3 & H4 & H5 & H6 & H7 & H8).
  exists wb, wa. do 4 (split; [done|]). split; [tauto|]. split; [tauto|]. by split.
Qed.

Lemma twin_side_frame out_dir p x k w σ σ' :
  st_fs σ' !! image_path out_dir x = st_fs σ !! image_path out_dir x →
  creations x (st_trace σ') = creations x (st_trace σ) →
  twin_side out_dir p x k w σ → twin_side out_dir p x k w σ'.
Proof. unfold twin_side. intros E1 E2 (H1 & H2 & H3). by rewrite E1, E2. Qed.

Section TwinStep.

Variable sha256 : string → string.
Variable env : environment.
Variable out_dir : string.
Variables p a b : string.
Variables ka kb ia ib : nat.

Hypothesis Hab : a ≠ b.
Hypothesis Hij : ia ≠ ib.
Hypothesis Hpath : image_path out_dir a ≠ image_path out_dir b.
Hypothesis Hmk : makedirs_raises env a = false.
Hypothesis Hdl : downloads env a ka p.

Local Abbreviation wstep := (wstep sha256 env out_dir).
Local Abbreviation inv := (twin_inv sha256 out_dir p a b ka kb ia ib).

(** A step of the worker of [a] that creates no file and leaves the
    image files alone. *)
Lemma twin_quiet_step σ σ' ws wa wa' wb :
  ws !! ia = Some (a, wa) → ws !! ib = Some (b, wb) →
  twin_side out_dir p a ka wa σ → twin_side out_dir p b kb wb σ →
  (∀ x, st_fs σ' !! image_path out_dir x = st_fs σ !! image_path out_dir x) →
  (∀ x, creations x (st_trace σ') = creations x (st_trace σ)) →
  on_course ka p wa' → stored wa' = stored wa →
  (sha256 p ∈ st_seen σ' ↔ claimed wa' ∨ claimed wb) →
  ¬ (claimed wa' ∧ claimed wb) →
  (wa' = Returned Dedup → claimed wb) →
  (wb = Returned Dedup → claimed wa') →
  inv σ' (<[ia := (a, wa')]> ws).
Proof.
  intros Hia Hib (Ha1 & Ha2 & Ha3) Hb Hfs Hcr Hon Hst Hseen Hex Hd1 Hd2.
  exists wa', wb.
  split; [apply list_lookup_insert_eq; by eapply lookup_lt_Some|].
  split; [by rewrite list_lookup_insert_ne|].
  split; [|split; [|done]].
  - split; [done|]. rewrite Hst, Hfs, Hcr. done.
  - eapply twin_side_frame; [apply Hfs|apply Hcr|done].
Qed.

Lemma creations_log σ e x :
  creates_for x e = false →
  creations x (st_trace (log σ e)) = creations x (st_trace σ).
Proof. intros H. unfold log. simpl. rewrite creations_snoc, H. lia. Qed.

Lemma twin_step_self σ ws wa :
  inv σ ws → ws !! ia = Some (a, wa) →
  inv (wstep a wa σ).2 (<[ia := (a, (wstep a wa σ).1)]> ws).
Proof.
  intros (wa0 & wb & Hia & Hib & Ha & Hb & Hseen & Hex & Hd1 & Hd2) Hia'.
  rewrite Hia in Hia'. injection Hia' as ->.
  destruct Hdl as (Hk & Hfail & Hnet & Hwr & Happ).
  pose proof Ha as (Hon & Hfile & Hcre).
  destruct wa as [|n|n c|n c|n|[]|]; try done; cbn [wstep].
  - (* Pending *)
    rewrite Hmk. unfold path_exists. simpl in Hfile. rewrite Hfile.
    rewrite bool_decide_eq_false_2 by (by intros [? ?]).
    cbn [fst snd].
    eapply twin_quiet_step; [exact Hia|exact Hib|exact Ha|exact Hb|..].
    + done.
    + done.
    + simpl. lia.
    + done.
    + exact Hseen.
    + exact Hex.
    + done.
    + exact Hd2.
  - (* Attempting *)
    simpl in Hon. destruct (decide (n = ka)) as [->|Hne].
    + rewrite Hnet. simpl.
      eapply twin_quiet_step; [exact Hia|exact Hib|exact Ha|exact Hb|..].
      * done.
      * intros x. by apply creations_log.
      * done.
      * done.
      * exact Hseen.
      * exact Hex.
      * done.
      * exact Hd2.
    + assert (attempt_fails env a n = true) as Hf by (apply Hfail; lia).
      pose proof (attempt_fails_step sha256 env out_dir a n σ Hf) as E.
      cbn [wstep] in E. rewrite E.
      destruct (on_exception_cases n (log σ (EvGet a n))) as [[? _]|[_ ->]]; [lia|].
      cbn [fst snd].
      eapply twin_quiet_step; [exact Hia|exact Hib|exact Ha|exact Hb|..].
      * done.
      * intros x. by rewrite !creations_log.
      * simpl. lia.
      * done.
      * exact Hseen.
      * exact Hex.
      * done.
      * exact Hd2.
  - (* Fetched *)
    destruct Hon as [-> ->]. destruct (decide _) as [Hin|Hnin]; cbn [fst snd].
    + eapply twin_quiet_step; [exact Hia|exact Hib|exact Ha|exact Hb|..].
      * done.
      * done.
      * done.
      * done.
      * exact Hseen.
      * exact Hex.
      * intros _. by apply Hseen in Hin as [[]|?].
      * exact Hd2.
    + eapply twin_quiet_step; [exact Hia|exact Hib|exact Ha|exact Hb|..].
      * done.
      * done.
      * done.
      * done.
      * simpl. split; [by left|]. intros _. set_solver.
      * simpl. intros [_ Hb']. apply Hnin, Hseen. by right.
      * done.
      * done.
  - (* Claimed *)
    destruct Hon as [-> ->]. rewrite Hwr. cbn [fst snd].
    destruct Hb as (Hb1 & Hb2 & Hb3).
    exists (Written ka), wb.
    split; [apply list_lookup_insert_eq; by eapply lookup_lt_Some|].
    split; [by rewrite list_lookup_insert_ne|].
    split; [|split; [|done]].
    + split; [done|]. unfold log, set_fs. simpl. rewrite lookup_insert_eq.
      split; [done|]. rewrite creations_snoc. simpl in *.
      rewrite bool_decide_eq_true_2 by done. lia.
    + split; [done|]. unfold log, set_fs. simpl.
      rewrite lookup_insert_ne by done. split; [done|].
      rewrite creations_snoc. simpl. rewrite bool_decide_eq_false_2 by done. lia.
  - (* Written *)
    simpl in Hon. subst n. rewrite Happ. cbn [fst snd].
    eapply twin_quiet_step; [exact Hia|exact Hib|exact Ha|exact Hb|..].
    + intros x. unfold log, set_fs, append_file. simpl.
      apply lookup_insert_ne, not_eq_sym, image_path_ne_completed.
    + intros x. by rewrite creations_log.
    + done.
    + done.
    + exact Hseen.
    + exact Hex.
    + done.
    + exact Hd2.
  - (* Returned Ok *)
    rewrite list_insert_id by done. by exists (Returned Ok), wb.
  - (* Returned Dedup *)
    rewrite list_insert_id by done. by exists (Returned Dedup), wb.
Qed.

End TwinStep.

Section Twins.

Variable sha256 : string → string.
Variable env : environment.
Variable out_dir : string.

Local Abbreviation wstep := (wstep sha256 env out_dir).
Local Abbreviation run := (run sha256 env out_dir).
Local Abbreviation downloadAll := (downloadAll sha256 env out_dir).
Local Abbreviation save_failed := (save_failed out_dir).

Lemma wstep_from_net slug w σ :
  from_net env slug w → from_net env slug (wstep slug w σ).1.
Proof.
  assert (∀ n s, from_net env slug (on_exception n s).1) as Hexc.
  { intros n s. rewrite on_exception_state. by destruct (n =? MAX_RETRIES). }
  destruct w as [|n|n c|n c|n|o|]; cbn [wstep]; intros H; try done.
  - destruct (makedirs_raises env slug); [done|]. by destruct (path_exists _ _).
  - destruct (net_get env slug n) as [|status c] eqn:E; [apply Hexc|].
    destruct (status =? 200)%Z eqn:Es; [|apply Hexc].
    apply Z.eqb_eq in Es. by subst.
  - by destruct (decide _).
  - destruct (file_write env slug n); [done|apply Hexc..].
  - destruct (append_raises env slug n); [apply Hexc|done].
Qed.

(** A step of a worker whose identifier is neither of the two and whose
    payloads have other digests. *)
Lemma twin_step_other p a b ka kb ia ib σ ws j s w :
  s ≠ a → s ≠ b → j ≠ ia → j ≠ ib →
  image_path out_dir a ≠ image_path out_dir s →
  image_path out_dir b ≠ image_path out_dir s →
  (∀ n q, net_get env s n = Response 200 q → sha256 q ≠ sha256 p) →
  from_net env s w →
  ws !! j = Some (s, w) →
  twin_inv sha256 out_dir p a b ka kb ia ib σ ws →
  twin_inv sha256 out_dir p a b ka kb ia ib
    (wstep s w σ).2 (<[j := (s, (wstep s w σ).1)]> ws).
Proof.
  intros Hsa Hsb Hja Hjb Hpa Hpb Hdig Hnet Hj
    (wa & wb & Hia & Hib & Ha & Hb & Hseen & Hex & Hd1 & Hd2).
  destruct (wstep_trace sha256 env out_dir s w σ) as (evs & Etr & Hevs & _).
  exists wa, wb.
  split; [by rewrite list_lookup_insert_ne|].
  split; [by rewrite list_lookup_insert_ne|].
  split; [|split; [|split; [|done]]].
  - eapply twin_side_frame; [| |exact Ha].
    + apply wstep_fs_other; [done|apply image_path_ne_completed].
    + rewrite Etr. by eapply creations_app_other.
  - eapply twin_side_frame; [| |exact Hb].
    + apply wstep_fs_other; [done|apply image_path_ne_completed].
    + rewrite Etr. by eapply creations_app_other.
  - rewrite wstep_seen, <- Hseen. split; [|by left].
    intros [?|(n & c & -> & Hc & _)]; [done|].
    simpl in Hnet. by apply Hdig in Hnet.
Qed.

(** C2, as amended. In a run that reaches the end of [main], over
    distinct identifiers that match the identifier pattern (so that no two
    of them name one file), take two of them
    that are not in the completed set and have no file, whose requests are
    answered with the same payload and whose payload and log line can be
    written, while no other identifier of the run is answered with a
    payload of that digest.  Then, under every schedule, one of the two
    has the outcome [ok] and its file holds the payload, the other has the
    outcome [dedup] and no file, and the two workers have created one file
    between them. *)
Theorem twins_one_stored (slugs : list string) (sched : list action)
    (fs : filesystem) (st : dstate) (a b p : string) (ka kb : nat) :
  NoDup slugs →
  (∀ s, s ∈ slugs → Regex.is_slug s = true) →
  a ∈ slugs → b ∈ slugs → a ≠ b →
  a ∉ load_checkpoint fs (completed_path_of out_dir) →
  b ∉ load_checkpoint fs (completed_path_of out_dir) →
  fs !! image_path out_dir a = None →
  fs !! image_path out_dir b = None →
  makedirs_raises env a = false →
  makedirs_raises env b = false →
  downloads env a ka p →
  downloads env b kb p →
  (∀ c n q, c ∈ slugs → c ≠ a → c ≠ b →
            net_get env c n = Response 200 q → sha256 q ≠ sha256 p) →
  downloadAll slugs sched fs = RunDone st →
  (((a, Returned Ok) ∈ d_workers st ∧ (b, Returned Dedup) ∈ d_workers st
    ∧ st_fs (d_store st) !! image_path out_dir a = Some p
    ∧ st_fs (d_store st) !! image_path out_dir b = None)
   ∨ ((a, Returned Dedup) ∈ d_workers st ∧ (b, Returned Ok) ∈ d_workers st
      ∧ st_fs (d_store st) !! image_path out_dir a = None
      ∧ st_fs (d_store st) !! image_path out_dir b = Some p))
  ∧ creations a (st_trace (d_store st)) + creations b (st_trace (d_store st)) = 1.
Proof.
  intros Hnd Hslug Ha Hb Hab Hca Hcb Hfa Hfb Hma Hmb Hda Hdb Hoth
    (ids & Eids & Hfin & Habort & Hcol & ->)%downloadAll_done.
  assert (∀ s, s ∈ slugs → Path.starts_with_sep s = false) as Hrel.
  { intros s Hs. by apply is_slug_relative, Hslug. }
  assert (NoDup ids) as Hnd' by (subst ids; by apply NoDup_filter).
  assert (∀ s, s ∈ ids → s ∈ slugs) as Hsub.
  { intros s Hs. subst ids. by apply list_elem_of_filter in Hs as [_ ?]. }
  assert (a ∈ ids) as Ha' by (subst ids; by apply list_elem_of_filter).
  assert (b ∈ ids) as Hb' by (subst ids; by apply list_elem_of_filter).
  apply list_elem_of_lookup in Ha' as [ia Hia], Hb' as [ib Hib].
  assert (ia ≠ ib) as Hij by (intros ->; congruence).
  assert (image_path out_dir a ≠ image_path out_dir b) as Hpab.
  { intros E. apply image_path_inj in E; [done|by apply Hrel..]. }
  clear Eids.
  set (st0 := run sched (submit fs ids)) in *.
  assert ((d_workers st0).*1 = ids
          ∧ (∀ j s w, d_workers st0 !! j = Some (s, w) → from_net env s w)
          ∧ twin_inv sha256 out_dir p a b ka kb ia ib (d_store st0) (d_workers st0))
    as (_ & _ & wa & wb & Hwa & Hwb & Hsa & Hsb & Hseen & Hex & Hd1 & Hd2).
  { apply (run_invariant_workers sha256 env out_dir
             (λ σ ws, ws.*1 = ids
                      ∧ (∀ j s w, ws !! j = Some (s, w) → from_net env s w)
                      ∧ twin_inv sha256 out_dir p a b ka kb ia ib σ ws)).
    - split; [apply submit_slugs|]. split.
      + by intros j s w [_ ->]%submit_lookup.
      + exists Pending, Pending. simpl. rewrite !list_lookup_fmap, Hia, Hib.
        repeat split; try done; simpl; try tauto; set_solver.
    - intros σ ws i s w (Hslugs & Hnet & Hinv) Hi.
      assert (ids !! i = Some s) as Hi'.
      { rewrite <- Hslugs, list_lookup_fmap, Hi. done. }
      split; [|split].
      + rewrite list_fmap_insert. simpl. rewrite list_insert_id; [done|].
        by rewrite Hslugs.
      + intros j s' w' Hj. destruct (decide (j = i)) as [->|Hne].
        * rewrite list_lookup_insert_eq in Hj by (by eapply lookup_lt_Some).
          injection Hj as <- <-. by eapply wstep_from_net, Hnet.
        * rewrite list_lookup_insert_ne in Hj by done. by eapply Hnet.
      + destruct (decide (i = ia)) as [->|Hia'].
        { assert (s = a) as -> by congruence.
          by apply (twin_step_self sha256 env out_dir p a b ka kb ia ib). }
        destruct (decide (i = ib)) as [->|Hib'].
        { assert (s = b) as -> by congruence.
          apply twin_inv_sym.
          apply (twin_step_self sha256 env out_dir p b a kb ka ib ia);
            [done|done|done|done|done|by apply twin_inv_sym|done]. }
        assert (s ≠ a) as Hsa.
        { intros ->. apply Hia'. by eapply NoDup_lookup. }
        assert (s ≠ b) as Hsb.
        { intros ->. apply Hib'. by eapply NoDup_lookup. }
        assert (s ∈ slugs) as Hs by (by eapply Hsub, list_elem_of_lookup_2).
        apply twin_step_other; try done.
        * intros E. apply image_path_inj in E; [done|by apply Hrel..].
        * intros E. apply image_path_inj in E; [done|by apply Hrel..].
        * intros n q. by apply Hoth.
        * by eapply Hnet. }
  pose proof (collected_ok_run sha256 env out_dir sched fs ids) as Hok.
  destruct (all_collected_returned _ Hok Hcol _ _ _ Hwa) as [oa ->].
  destruct (all_collected_returned _ Hok Hcol _ _ _ Hwb) as [ob ->].
  destruct Hsa as (Hona & Hfilea & Hcrea), Hsb as (Honb & Hfileb & Hcreb).
  rewrite save_failed_workers.
  rewrite !save_failed_fs_other
    by (apply image_path_ne_failed || apply image_path_ne_failed_tmp).
  assert (∀ x, creations x (st_trace (d_store (save_failed st0)))
               = creations x (st_trace (d_store st0))) as Hcr.
  { intros x. destruct (decide (d_failed st0 = [])) as [E|E].
    - by rewrite save_failed_empty.
    - destruct (save_failed_written out_dir st0 E) as [_ ->].
      rewrite creations_snoc. simpl. lia. }
  rewrite !Hcr, Hcrea, Hcreb, Hfilea, Hfileb.
  apply list_elem_of_lookup_2 in Hwa, Hwb.
  destruct oa, ob; try done; simpl in *.
  - exfalso. by apply Hex.
  - split; [|done]. left. done.
  - split; [|done]. right. done.
  - exfalso. by apply Hd1.
Qed.

End Twins.

Lemma twins_one_stored_witness :
  match downloadAll DownloadExamples.digest DownloadExamples.env_up "out"
          ["beta"; "gamma"] DownloadExamples.interleaved ∅ with
  | RunDone st =>
      ((("beta", Returned Ok) ∈ d_workers st ∧ ("gamma", Returned Dedup) ∈ d_workers st
        ∧ st_fs (d_store st) !! image_path "out" "beta" = Some "PNG-2"
        ∧ st_fs (d_store st) !! image_path "out" "gamma" = None)
       ∨ (("beta", Returned Dedup) ∈ d_workers st ∧ ("gamma", Returned Ok) ∈ d_workers st
          ∧ st_fs (d_store st) !! image_path "out" "beta" = None
          ∧ st_fs (d_store st) !! image_path "out" "gamma" = Some "PNG-2"))
      ∧ creations "beta" (st_trace (d_store st))
        + creations "gamma" (st_trace (d_store st)) = 1
  | _ => False
  end.
Proof.
  pose proof (twins_one_stored DownloadExamples.digest DownloadExamples.env_up "out"
                ["beta"; "gamma"] DownloadExamples.interleaved ∅) as H.
  destruct (downloadAll _ _ _ _ _ _) as [|st|st|st] eqn:E; try (by vm_compute in E).
  apply (H st "beta" "gamma" "PNG-2" 1 1); [..|reflexivity]; clear E H st.
  - apply NoDup_cons. split; [|apply NoDup_singleton].
    intros Hin%list_elem_of_singleton. discriminate Hin.
  - intros s Hs. apply elem_of_cons in Hs as [->|Hs]; [done|].
    by apply list_elem_of_singleton in Hs as ->.
  - apply list_elem_of_here.
  - apply list_elem_of_further, list_elem_of_here.
  - done.
  - unfold load_checkpoint. rewrite lookup_empty. apply not_elem_of_empty.
  - unfold load_checkpoint. rewrite lookup_empty. apply not_elem_of_empty.
  - apply lookup_empty.
  - apply lookup_empty.
  - done.
  - done.
  - unfold downloads, MAX_RETRIES. split; [lia|]. split; [intros; lia|]. by repeat split.
  - unfold downloads, MAX_RETRIES. split; [lia|]. split; [intros; lia|]. by repeat split.
  - intros c n q Hc Hc1 Hc2. apply elem_of_cons in Hc as [->|Hc]; [done|].
    by apply list_elem_of_singleton in Hc as ->.
Defined.

(** C2, as stated, fails: [beta] and [gamma] are distinct, have no file, are
    not in the completed set and get the same payload, but so does [alpha],
    which claims the digest first; the outcomes of the pair are two [dedup]
    and none of the two is stored. *)
Lemma twins_counterexample :
  net_get DownloadExamples.env_same "beta" 1 = Response 200 "PNG-1"
  ∧ net_get DownloadExamples.env_same "gamma" 1 = Response 200 "PNG-1"
  ∧ load_checkpoint ∅ (completed_path_of "out") = ∅
  ∧ ∃ st, downloadAll DownloadExamples.digest DownloadExamples.env_same "out"
            ["alpha"; "beta"; "gamma"] (sequential 3) ∅ = RunDone st
          ∧ d_workers st
            = [("alpha", Returned Ok); ("beta", Returned Dedup); ("gamma", Returned Dedup)]
          ∧ st_fs (d_store st) !! image_path "out" "beta" = None
          ∧ st_fs (d_store st) !! image_path "out" "gamma" = None.
Proof.
  split; [done|]. split; [done|]. split; [done|].
  eexists. split; [by vm_compute|]. split; [done|]. split; by vm_compute.
Qed.

(** ** Identifier extraction *)

Lemma take_class_all s : Regex.all_slug_chars (Regex.take_class s).1 = true.
Proof.
  induction s as [|c s IH]; [done|]. simpl.
  destruct (Regex.slug_char c) eqn:Hc; [|done].
  destruct (Regex.take_class s) as [run rest]. simpl in *. by rewrite Hc.
Qed.

Lemma match_at_slug s slug len :
  Regex.match_at s = Some (slug, len) →
  Regex.is_slug slug = true ∧ len = 13 + String.length slug + 4.
Proof.
  unfold Regex.match_at. destruct (Regex.strip_prefix _ s) as [rest|]; [|done].
  pose proof (take_class_all rest) as Hall.
  destruct (Regex.take_class rest) as [run rest']. simpl in Hall.
  destruct run as [|c run]; [done|].
  destruct (Regex.strip_prefix _ rest'); [|done].
  intros [= <- <-]. done.
Qed.

Lemma findall_is_slug (text : string) :
  Forall (λ slug, Regex.is_slug slug = true) (Regex.findall text).
Proof.
  unfold Regex.findall. generalize 0 as skip.
  induction text as [|c text IH]; intros skip; [constructor|].
  cbn [Regex.findall_go]. destruct skip as [|k]; [|apply IH].
  destruct (Regex.match_at (String c text)) as [[slug len]|] eqn:Hm; [|apply IH].
  constructor; [|apply IH]. by apply match_at_slug in Hm as [? _].
Qed.

Lemma match_at_no_start c s :
  c ≠ "a"%char → Regex.match_at (String c s) = None.
Proof.
  intros Hc. unfold Regex.match_at. cbn [Regex.strip_prefix].
  destruct (Ascii.eqb_spec "a"%char c) as [E|_]; [by subst|done].
Qed.

Lemma findall_go_junk junk rest :
  no_match_start junk →
  Regex.findall_go 0 (junk +:+ rest) = Regex.findall_go 0 rest.
Proof.
  unfold no_match_start. induction junk as [|c junk IH]; [done|].
  intros [Hc Hj]%Forall_cons. rewrite str_app_cons. cbn [Regex.findall_go].
  rewrite match_at_no_start by done. by apply IH.
Qed.

Lemma findall_go_skip s rest :
  Regex.findall_go (String.length s) (s +:+ rest) = Regex.findall_go 0 rest.
Proof.
  induction s as [|c s IH]; [by destruct rest|].
  rewrite str_app_cons. simpl. exact IH.
Qed.

Lemma strip_prefix_app p rest : Regex.strip_prefix p (p +:+ rest) = Some rest.
Proof.
  induction p as [|c p IH]; [done|].
  rewrite str_app_cons. simpl. by rewrite Ascii.eqb_refl.
Qed.

Lemma take_class_slug slug rest :
  Regex.all_slug_chars slug = true →
  Regex.take_class (slug +:+ "." +:+ rest) = (slug, "." +:+ rest).
Proof.
  induction slug as [|c slug IH]; [done|].
  cbn [Regex.all_slug_chars]. intros [Hc Hs]%andb_true_iff.
  rewrite str_app_cons. cbn [Regex.take_class]. by rewrite Hc, IH.
Qed.

Lemma is_slug_all slug : Regex.is_slug slug = true → Regex.all_slug_chars slug = true.
Proof. by destruct slug. Qed.

Lemma match_at_link slug rest :
  Regex.is_slug slug = true →
  Regex.match_at (icon_link slug +:+ rest) = Some (slug, 13 + String.length slug + 4).
Proof.
  intros Hs. unfold Regex.match_at, icon_link.
  rewrite !str_app_assoc, strip_prefix_app.
  change (".png" +:+ rest) with ("." +:+ ("png" +:+ rest)).
  rewrite take_class_slug by (by apply is_slug_all).
  destruct slug as [|c slug]; [done|].
  change ("." +:+ ("png" +:+ rest)) with (".png" +:+ rest).
  by rewrite strip_prefix_app.
Qed.

Lemma findall_go_link slug rest :
  Regex.is_slug slug = true →
  Regex.findall_go 0 (icon_link slug +:+ rest) = slug :: Regex.findall_go 0 rest.
Proof.
  intros Hs. pose proof (match_at_link slug rest Hs) as Hm.
  assert (icon_link slug +:+ rest
          = String "a" (("pi/icon/128/" +:+ slug +:+ ".png") +:+ rest)) as E.
  { unfold icon_link. by rewrite !str_app_assoc. }
  rewrite E in *. cbn [Regex.findall_go]. rewrite Hm. f_equal.
  replace (13 + String.length slug + 4 - 1)
    with (String.length ("pi/icon/128/" +:+ slug +:+ ".png")).
  - apply findall_go_skip.
  - rewrite !str_app_length. simpl. lia.
Qed.

(** A listing made of links to identifiers, separated by text in which no
    match can start, yields these identifiers, in the order of the page and
    with their repetitions. *)
Theorem findall_listing_page (pre : string) (items : list (string * string)) :
  no_match_start pre →
  Forall (λ it, Regex.is_slug it.1 = true ∧ no_match_start it.2) items →
  Regex.findall (listing_page pre items) = items.*1.
Proof.
  intros Hpre Hitems. unfold Regex.findall, listing_page.
  rewrite findall_go_junk by done. clear pre Hpre.
  induction Hitems as [|[slug junk] items [Hs Hj] _ IH]; [done|].
  cbn [foldr fmap list_fmap fst snd] in *.
  rewrite findall_go_link by done. f_equal.
  by rewrite findall_go_junk.
Qed.

Lemma findall_listing_page_witness :
  Regex.findall (listing_page "<ul>" [("cat", "</li><li>"); ("dog-2", "</li></ul>")])
  = ["cat"; "dog-2"].
Proof.
  apply (findall_listing_page "<ul>" [("cat", "</li><li>"); ("dog-2", "</li></ul>")]).
  - unfold no_match_start. simpl. repeat constructor; discriminate.
  - repeat constructor; simpl; try reflexivity; discriminate.
Defined.

(** ** More on the checkpoint store *)

Lemma staging_other (fs : filesystem) path content q :
  q ≠ tmp_path_of path → apply_ops fs (staging_ops path content) !! q = fs !! q.
Proof.
  intros Hq. apply apply_ops_avoids. constructor; [done|].
  apply Forall_fmap, Forall_true. intros c. simpl. done.
Qed.

(** [atomic_write] has the effect of one assignment: the target holds the
    content, the temporary sibling is gone (also one left behind by an
    interrupted write), and no other file is touched. *)
Theorem atomic_write_result (fs : filesystem) (path content : string) :
  atomic_write fs path content = <[path := content]> (delete (tmp_path_of path) fs).
Proof.
  unfold atomic_write. rewrite atomic_write_ops_split, apply_ops_app.
  pose proof (staging_tmp fs path content) as Htmp.
  pose proof (staging_other fs path content) as Hoth.
  set (fs1 := apply_ops fs (staging_ops path content)) in *.
  unfold apply_ops; simpl. rewrite Htmp. f_equal.
  apply map_eq. intros q. destruct (decide (q = tmp_path_of path)) as [->|Hq].
  - by rewrite !lookup_delete_eq.
  - by rewrite !lookup_delete_ne, Hoth.
Qed.

Lemma lstrip_no_leading s : Text.no_leading_space (Text.lstrip s) = true.
Proof.
  induction s as [|c s IH]; [done|]. simpl.
  destruct (Text.is_space c) eqn:E; [done|]. simpl. by rewrite E.
Qed.

Lemma rstrip_no_trailing s : Text.no_trailing_space (Text.rstrip s) = true.
Proof.
  induction s as [|c s IH]; [done|]. simpl.
  destruct (Text.rstrip s) as [|d r] eqn:E.
  - destruct (Text.is_space c) eqn:Ec; [done|]. simpl. by rewrite Ec.
  - exact IH.
Qed.

Lemma rstrip_no_leading s :
  Text.no_leading_space s = true → Text.no_leading_space (Text.rstrip s) = true.
Proof.
  destruct s as [|c s]; [done|]. simpl. intros Hc.
  destruct (Text.rstrip s); [|done]. apply negb_true_iff in Hc.
  rewrite Hc. simpl. by rewrite Hc.
Qed.

Lemma lstrip_chars (P : ascii → Prop) s :
  Forall P (Text.chars s) → Forall P (Text.chars (Text.lstrip s)).
Proof.
  induction s as [|c s IH]; [done|]. simpl. intros [Hc Hs]%Forall_cons.
  destruct (Text.is_space c); [by apply IH|]. by constructor.
Qed.

Lemma rstrip_chars (P : ascii → Prop) s :
  Forall P (Text.chars s) → Forall P (Text.chars (Text.rstrip s)).
Proof.
  induction s as [|c s IH]; [done|]. simpl. intros [Hc Hs]%Forall_cons.
  specialize (IH Hs). destruct (Text.rstrip s) as [|d r].
  - destruct (Text.is_space c); [constructor|]. by repeat constructor.
  - by constructor.
Qed.

Lemma chars_no_linebreak s :
  Forall (λ c, c ≠ Text.LF ∧ c ≠ Text.CR) (Text.chars s) → Text.no_linebreak s = true.
Proof.
  induction s as [|c s IH]; [done|]. simpl. intros [[H1 H2] Hs]%Forall_cons.
  apply Ascii.eqb_neq in H1, H2. rewrite H1, H2. simpl. by apply IH.
Qed.

Lemma lstrip_app_NL y :
  Text.lstrip (y +:+ Text.NL)
  = match Text.lstrip y with
    | EmptyString => EmptyString
    | l => l +:+ Text.NL
    end.
Proof.
  induction y as [|c y IH]; [done|]. rewrite str_app_cons. simpl.
  destruct (Text.is_space c); [exact IH|done].
Qed.

Lemma strip_app_NL y : Text.strip (y +:+ Text.NL) = Text.strip y.
Proof.
  unfold Text.strip. rewrite lstrip_app_NL.
  destruct (Text.lstrip y) as [|c l] eqn:E; [done|]. by rewrite rstrip_app_NL.
Qed.

Lemma universal_newlines_no_cr s :
  Forall (λ c, c ≠ Text.CR) (Text.chars (Text.universal_newlines s)).
Proof.
  assert (Forall (λ c, c ≠ Text.CR) (Text.chars (Text.universal_newlines s))
          ∧ ∀ c, Forall (λ c, c ≠ Text.CR)
                   (Text.chars (Text.universal_newlines (String c s)))) as [H _];
    [|done].
  induction s as [|d s [IH1 IH2]].
  - split; [constructor|]. intros c. simpl.
    destruct (Ascii.eqb_spec c Text.CR); by repeat constructor.
  - split; [apply IH2|]. intros c. cbn [Text.universal_newlines].
    destruct (Ascii.eqb_spec c Text.CR) as [->|Hc].
    + destruct (Ascii.eqb d Text.LF).
      * constructor; [done|apply IH1].
      * constructor; [done|apply IH2].
    + constructor; [done|apply IH2].
Qed.

(** A line as the iteration over a file hands it out: free of line breaks
    but for the LF that may close it. *)
Lemma readlines_lines s :
  Forall (λ c, c ≠ Text.CR) (Text.chars s) →
  Forall (λ l, ∃ y, Forall (λ c, c ≠ Text.LF ∧ c ≠ Text.CR) (Text.chars y)
                    ∧ (l = y ∨ l = y +:+ Text.NL))
    (Text.readlines s).
Proof.
  induction s as [|c s IH]; [constructor|].
  simpl. intros [Hc Hs]%Forall_cons. specialize (IH Hs).
  destruct (Ascii.eqb_spec c Text.LF) as [->|Hlf].
  - constructor; [|done]. exists EmptyString. split; [constructor|by right].
  - destruct (Text.readlines s) as [|l ls].
    + constructor; [|done]. exists (String c EmptyString).
      split; [by repeat constructor|by left].
    + apply Forall_cons in IH as [(y & Hy & Hl) Hls]. constructor; [|done].
      exists (String c y). split; [by constructor|].
      destruct Hl as [-> | ->]; [by left|by right].
Qed.

Lemma load_storable (fs : filesystem) path s :
  s ∈ load_checkpoint fs path → storable s.
Proof.
  unfold load_checkpoint. destruct (fs !! path) as [content|]; [|set_solver].
  rewrite elem_of_list_to_set, list_elem_of_fmap.
  intros (line & -> & [Hne Hin]%list_elem_of_filter).
  pose proof (readlines_lines _ (universal_newlines_no_cr content)) as Hlines.
  rewrite Forall_forall in Hlines.
  destruct (Hlines line Hin) as (y & Hy & Hl).
  assert (Text.strip line = Text.strip y) as E
    by (destruct Hl as [-> | ->]; [done|apply strip_app_NL]).
  rewrite E in *. split; [done|]. unfold Text.strip. split; [|split].
  - apply rstrip_no_leading, lstrip_no_leading.
  - apply rstrip_no_trailing.
  - by apply chars_no_linebreak, rstrip_chars, lstrip_chars.
Qed.

Lemma load_saved (fs : filesystem) path (slugs : gset string) :
  (∀ s, s ∈ slugs → storable s) →
  load_checkpoint (save_checkpoint fs path slugs) path = slugs.
Proof.
  intros Hs. erewrite load_lines.
  - rewrite (list_to_set_perm_L _ _ (sorted_perm (elements slugs))).
    apply list_to_set_elements_L.
  - apply atomic_write_lookup.
  - apply Forall_forall. intros x Hx. apply Hs.
    rewrite (sorted_perm _) in Hx. by apply elem_of_elements in Hx.
Qed.

(** Whatever a file holds, the identifiers [load_checkpoint] reads from it
    are non-empty, have no white space at their ends and no line break
    inside; so a set that was loaded, saved and loaded again is the same
    set. *)
Theorem load_normalises (fs fs' : filesystem) (path path' : string) :
  (∀ s, s ∈ load_checkpoint fs path → storable s)
  ∧ load_checkpoint (save_checkpoint fs' path' (load_checkpoint fs path)) path'
    = load_checkpoint fs path.
Proof.
  split; [apply load_storable|]. apply load_saved. apply load_storable.
Qed.

Lemma slug_char_plain c :
  Regex.slug_char c = true →
  Text.is_space c = false ∧ c ≠ Text.LF ∧ c ≠ Text.CR.
Proof.
  destruct c as [[] [] [] [] [] [] [] []]; vm_compute; intros H;
    try discriminate H; by repeat split.
Qed.

Lemma all_slug_chars_plain s :
  Regex.all_slug_chars s = true →
  Text.no_trailing_space s = true ∧ Text.no_linebreak s = true.
Proof.
  induction s as [|c s IH]; [done|].
  cbn [Regex.all_slug_chars]. intros [Hc Hs]%andb_true_iff.
  destruct (slug_char_plain c Hc) as (H1 & H2 & H3).
  destruct (IH Hs) as [IH1 IH2]. split.
  - simpl. destruct s; [by rewrite H1|done].
  - simpl. apply Ascii.eqb_neq in H2, H3. by rewrite H2, H3, IH2.
Qed.

Lemma is_slug_storable s : Regex.is_slug s = true → storable s.
Proof.
  intros Hs. destruct s as [|c s]; [done|]. simpl in Hs.
  destruct (all_slug_chars_plain (String c s) Hs) as [H1 H2].
  split; [done|]. split; [|done].
  apply andb_true_iff in Hs as [Hc _].
  destruct (slug_char_plain c Hc) as (E & _). simpl. by rewrite E.
Qed.

(** ** More on the discovery engine *)

(** Lines 14 and 71: every identifier the pattern extracts is a non-empty
    string of lower-case letters, digits and hyphens; so it is stored in the
    checkpoint file and read back as it is, and it is not an absolute path. *)
Theorem findall_slugs (text : string) :
  Forall (λ slug, Regex.is_slug slug = true ∧ storable slug
                  ∧ Path.starts_with_sep slug = false)
    (Regex.findall text).
Proof.
  eapply Forall_impl; [apply findall_is_slug|].
  intros slug Hs. split; [done|]. split.
  - by apply is_slug_storable.
  - by apply is_slug_relative.
Qed.

Lemma slugs_after_initial listing S0 r : S0 ⊆ slugs_after listing S0 r.
Proof. induction r as [|r IH]; simpl; set_solver. Qed.

Section DiscoveryDisk.

Variable listing : nat → option string.
Variable path : string.
Variable S0 : gset string.

Local Abbreviation disk_ok := (disk_ok path S0).

Lemma disk_ok_scanned st text : disk_ok st → disk_ok (scanned st text).
Proof.
  intros [Hst Hdisk]. unfold disk_ok, scanned. cbn [ss_slugs ss_fs ss_trace].
  rewrite last_saved_snoc. split; [|done].
  intros s [Hs|Hs]%elem_of_union; [by apply Hst|].
  apply elem_of_list_to_set in Hs. apply is_slug_storable.
  pose proof (findall_is_slug text) as Hall. rewrite Forall_forall in Hall. by apply Hall.
Qed.

Lemma disk_ok_checkpoint st : disk_ok st → disk_ok (maybe_checkpoint path st).
Proof.
  intros [Hst Hdisk].
  destruct (decide (CHECKPOINT_INTERVAL ≤ ss_new_since_save st)) as [H|H].
  - rewrite maybe_checkpoint_saves by done. unfold disk_ok.
    cbn [ss_slugs ss_fs ss_trace]. rewrite last_saved_snoc.
    split; [done|]. by apply load_saved.
  - by rewrite maybe_checkpoint_idle by lia.
Qed.

Lemma disk_ok_slept st : disk_ok st → disk_ok (slept st).
Proof.
  intros [Hst Hdisk]. unfold disk_ok, slept. cbn [ss_slugs ss_fs ss_trace].
  by rewrite last_saved_snoc.
Qed.

Lemma disk_ok_loop fuel st :
  disk_ok st → disk_ok (loop_state (scrape_loop listing path fuel st)).
Proof.
  revert st. induction fuel as [|fuel IH]; intros st Hst; [done|].
  destruct (listing (S (ss_rounds st))) as [text|] eqn:Hl.
  - rewrite (scrape_loop_step _ _ _ _ _ Hl).
    pose proof (disk_ok_checkpoint _ (disk_ok_scanned st text Hst)) as H.
    destruct (_ =? 0); [done|]. by apply IH, disk_ok_slept.
  - cbn [scrape_loop]. unfold scrape_request. rewrite Hl. cbn [loop_state].
    destruct Hst as [Hst Hdisk]. unfold disk_ok. cbn [ss_slugs ss_fs ss_trace].
    by rewrite last_saved_snoc.
Qed.

End DiscoveryDisk.

Lemma disk_ok_init fs path : disk_ok path (load_checkpoint fs path) (scrape_init fs path).
Proof. split; [apply load_storable|done]. Qed.

(** Between two rounds, and when a request raises, the checkpoint file
    holds a set of identifiers that is part of the set in memory and lacks
    fewer than [CHECKPOINT_INTERVAL] of its identifiers: this is all a
    restart of the discovery has to find again. *)
Theorem scrape_checkpoint_lag (listing : nat → option string) (path : string)
    (fuel : nat) (fs : filesystem) :
  let st := loop_state (scrape_loop listing path fuel (scrape_init fs path)) in
  load_checkpoint (ss_fs st) path ⊆ ss_slugs st
  ∧ size (ss_slugs st) < size (load_checkpoint (ss_fs st) path) + CHECKPOINT_INTERVAL.
Proof.
  intros st.
  destruct (disk_ok_loop listing path (load_checkpoint fs path) fuel _
              (disk_ok_init fs path)) as [_ Hdisk].
  destruct (round_boundary_loop listing path (load_checkpoint fs path) fuel _
              (round_boundary_init fs path)) as (Hsub & Hsize & Hlt).
  fold st in Hdisk, Hsub, Hsize, Hlt. rewrite Hdisk. split; [done|lia].
Qed.

Lemma scrape_returned (listing : nat → option string) (path : string)
    (fuel : nat) (fs : filesystem) (l : list string) (st : scrape_state) :
  scrape_slugs listing path fuel fs = ScrapeReturned l st →
  NoDup l
  ∧ list_to_set l = slugs_after listing (load_checkpoint fs path) (ss_rounds st)
  ∧ load_checkpoint fs path ⊆ list_to_set l
  ∧ load_checkpoint (ss_fs st) path = list_to_set l.
Proof.
  unfold scrape_slugs.
  destruct (scrape_loop _ _ _ _) as [st'| |] eqn:Hloop; [|done..].
  intros [= <- <-].
  destruct (loop_exit_rounds listing path _ _ _ _ (follows_init listing fs path) Hloop)
    as (_ & Hfollows & _).
  pose proof (disk_ok_loop listing path (load_checkpoint fs path) fuel _
                (disk_ok_init fs path)) as [Hst _].
  rewrite Hloop in Hst. cbn [loop_state] in Hst.
  unfold follows_listing in Hfollows.
  rewrite list_to_set_elements_L. cbn [final_save ss_rounds ss_fs ss_slugs].
  split; [apply NoDup_elements|]. split; [done|]. split.
  - rewrite Hfollows. apply slugs_after_initial.
  - by apply load_saved.
Qed.

(** What [scrape_slugs] returns: the identifiers of the checkpoint it
    loaded together with every identifier matched in the answers of its
    rounds, each once; and the checkpoint file it leaves holds exactly the
    returned identifiers, so that a later run starts from them. *)
Theorem scrape_returns_saved (listing : nat → option string) (path : string)
    (fuel : nat) (fs : filesystem) (l : list string) (st : scrape_state) :
  scrape_slugs listing path fuel fs = ScrapeReturned l st →
  NoDup l
  ∧ list_to_set l = slugs_after listing (load_checkpoint fs path) (ss_rounds st)
  ∧ load_checkpoint fs path ⊆ list_to_set l
  ∧ load_checkpoint (ss_fs st) path = list_to_set l.
Proof. apply scrape_returned. Qed.

Lemma scrape_returns_saved_witness :
  ∃ l st, scrape_slugs Examples.listing3 "slugs_checkpoint.txt" 5 Examples.fs_resumed
            = ScrapeReturned l st
          ∧ load_checkpoint (ss_fs st) "slugs_checkpoint.txt" = list_to_set l
          ∧ load_checkpoint Examples.fs_resumed "slugs_checkpoint.txt" ⊆ list_to_set l.
Proof.
  pose proof (scrape_returns_saved Examples.listing3 "slugs_checkpoint.txt" 5 Examples.fs_resumed)
    as H.
  destruct (scrape_slugs Examples.listing3 "slugs_checkpoint.txt" 5 Examples.fs_resumed)
    as [l st| |] eqn:E.
  - exists l, st. split; [reflexivity|].
    destruct (H l st eq_refl) as (_ & _ & H1 & H2). split; [exact H2|exact H1].
  - clear H. vm_compute in E. discriminate E.
  - clear H. vm_compute in E. discriminate E.
Defined.

(** ** The files of a session *)

Lemma checkpoint_path_last out_dir :
  Path.last_char (checkpoint_path_of out_dir) = Some "t"%char.
Proof. unfold checkpoint_path_of. by apply log_path_last. Qed.

Lemma tmp_path_last path : Path.last_char (tmp_path_of path) = Some "p"%char.
Proof. unfold tmp_path_of. by rewrite last_char_app. Qed.

(** ** The log of completed downloads as a filter *)

Section Completed.

Variable sha256 : string → string.
Variable env : environment.
Variable out_dir : string.

Local Abbreviation downloadAll := (downloadAll sha256 env out_dir).

(** Lines 182-191: an identifier the log of completed downloads lists is
    never requested, whatever the state of its image file, and a session
    whose identifiers are all listed starts no download at all; every
    request of a session is for one of its identifiers. *)
Theorem completed_not_requested (slugs : list string) (sched : list action)
    (fs : filesystem) :
  let completed := load_checkpoint fs (completed_path_of out_dir) in
  ((∀ s, s ∈ slugs → s ∈ completed) ↔ downloadAll slugs sched fs = NothingToDo)
  ∧ ∀ st slug n,
      result_state (downloadAll slugs sched fs) = Some st →
      EvGet slug n ∈ st_trace (d_store st) →
      slug ∈ slugs ∧ slug ∉ completed.
Proof.
  intros completed. split.
  - unfold downloadAll. fold completed.
    set (ids := filter _ slugs).
    assert ((∀ s, s ∈ slugs → s ∈ completed) ↔ ids = []) as ->.
    { split.
      - intros H. destruct ids as [|x ids'] eqn:E; [done|].
        assert (x ∈ ids) as Hx by (rewrite E; apply list_elem_of_here).
        apply list_elem_of_filter in Hx as [Hx Hin]. by apply H in Hin.
      - intros H s Hs. destruct (decide (s ∈ completed)) as [|Hn]; [done|].
        by destruct (filter_nil_not_elem_of _ _ s H Hn). }
    destruct ids as [|x ids']; [done|]. split; [done|].
    destruct (all_finished _); [|done].
    destruct (d_aborted _); [done|]. by destruct (all_collected _).
  - intros st slug n Hst Hin.
    assert (slug ∈ filter (λ s, s ∉ completed) slugs) as Hslug.
    { destruct (downloadAll_state _ _ _ _ _ _ _ Hst) as [->| ->].
      - by eapply run_gets.
      - eapply run_gets, save_failed_gets, Hin. }
    apply list_elem_of_filter in Hslug. tauto.
Qed.

End Completed.

Lemma completed_not_requested_witness :
  ∃ st, downloadAll DownloadExamples.digest DownloadExamples.env_up "out"
          ["alpha"; "beta"] (sequential 2) MoreExamples.fs_logged = RunDone st
        ∧ EvGet "beta" 1 ∈ st_trace (d_store st)
        ∧ "beta" ∉ load_checkpoint MoreExamples.fs_logged (completed_path_of "out").
Proof.
  pose proof (completed_not_requested DownloadExamples.digest DownloadExamples.env_up
                "out" ["alpha"; "beta"] (sequential 2) MoreExamples.fs_logged) as H.
  destruct H as [_ H].
  destruct (downloadAll DownloadExamples.digest DownloadExamples.env_up "out"
              ["alpha"; "beta"] (sequential 2) MoreExamples.fs_logged)
    as [|st|st|st] eqn:E.
  - vm_compute in E. discriminate E.
  - exists st. split; [reflexivity|].
    assert (EvGet "beta" 1 ∈ st_trace (d_store st)) as Hin.
    { clear H. vm_compute in E. injection E as <-. apply list_elem_of_here. }
    split; [exact Hin|]. exact (proj2 (H st "beta" 1 eq_refl Hin)).
  - vm_compute in E. discriminate E.
  - vm_compute in E. discriminate E.
Defined.

(** ** The tally of a session and the threads of the pool *)

Lemma wstep_finished sha256 env out_dir slug w σ :
  finished w = true → wstep sha256 env out_dir slug w σ = (w, σ).
Proof. by destruct w. Qed.

Lemma count_of_bump o o' t :
  count_of o (bump o' t) = count_of o t + (if decide (o' = o) then 1 else 0).
Proof. destruct o, o'; simpl; lia. Qed.

Lemma count_of_tally o (l : list outcome) :
  count_of o (foldr bump (Tally 0 0 0 0) l) = length (filter (λ o', o' = o) l).
Proof.
  induction l as [|o' l IH]; [by destruct o|].
  cbn [foldr]. rewrite count_of_bump, IH, filter_cons.
  destruct (decide (o' = o)); simpl; lia.
Qed.

Lemma outcome_at_insert ws (idxs : list nat) i slug w w' :
  ws !! i = Some (slug, w) →
  (∀ o, w = Returned o → w' = w) →
  (∀ j, j ∈ idxs → ∃ s o, ws !! j = Some (s, Returned o)) →
  omap (outcome_at (<[i := (slug, w')]> ws)) idxs = omap (outcome_at ws) idxs.
Proof.
  intros Hi Hw His. apply list_omap_ext, Forall2_same_length_lookup_2; [done|].
  intros k j j' Hj Hj'. rewrite Hj in Hj'. injection Hj' as <-.
  unfold outcome_at. destruct (decide (j = i)) as [->|Hne].
  - destruct (His i) as (s & o & Hio); [by eapply list_elem_of_lookup_2|].
    rewrite Hio in Hi. injection Hi as -> <-.
    by rewrite (Hw o eq_refl), list_insert_id.
  - by rewrite list_lookup_insert_ne.
Qed.

Lemma outcome_at_seq ws :
  omap (outcome_at ws) (seq 0 (length ws))
  = omap (λ sw : string * wstate,
            match sw.2 with Returned o => Some o | _ => None end) ws.
Proof.
  induction ws as [|[slug w] ws IH] using rev_ind; [done|].
  rewrite length_app. simpl. rewrite Nat.add_1_r, seq_S. simpl.
  rewrite !omap_app. simpl. unfold outcome_at at 2.
  rewrite list_lookup_middle by done. f_equal.
  rewrite <- IH. apply list_omap_ext.
  apply Forall2_same_length_lookup_2; [done|].
  intros i x y Hx Hy. rewrite Hx in Hy. injection Hy as <-.
  apply lookup_seq in Hx as [-> Hlt]. simpl. unfold outcome_at.
  by rewrite lookup_app_l.
Qed.

Lemma returned_with_outcomes o ws :
  length (filter (λ o', o' = o)
            (omap (λ sw : string * wstate,
                     match sw.2 with Returned o => Some o | _ => None end) ws))
  = length (returned_with o ws).
Proof.
  unfold returned_with. rewrite length_fmap.
  induction ws as [|[slug w] ws IH]; [done|].
  cbn [omap list_omap]. rewrite (filter_cons _ (slug, w)). simpl.
  destruct w as [| | | | |o'|]; simpl; try exact IH.
  rewrite filter_cons. destruct (decide (o' = o)) as [->|Hne].
  - rewrite bool_decide_eq_true_2 by done. simpl.
    destruct (decide (true = true)); [|done]. simpl. by rewrite IH.
  - rewrite bool_decide_eq_false_2 by done.
    destruct (decide (false = true)); [done|]. exact IH.
Qed.

Lemma returned_with_failing ws : returned_with Fail ws = failing ws.
Proof.
  unfold returned_with, failing.
  induction ws as [|[slug w] ws IH]; [done|].
  rewrite filter_cons. cbn [omap list_omap]. simpl.
  destruct w as [| | | | |[]|]; simpl; try exact IH.
  by rewrite <- IH.
Qed.

Lemma returned_with_total ws :
  Forall (λ sw : string * wstate, ∃ o, sw.2 = Returned o) ws →
  length (returned_with Ok ws) + length (returned_with Skip ws)
  + length (returned_with Dedup ws) + length (returned_with Fail ws) = length ws.
Proof.
  unfold returned_with. rewrite !length_fmap.
  induction 1 as [|[slug w] ws [o Ho] _ IH]; [done|].
  simpl in Ho. subst w. rewrite !filter_cons. simpl.
  destruct o; simpl; lia.
Qed.

Lemma filter_insert_length {A} (P : A → Prop) `{!∀ x, Decision (P x)} l i x x' :
  l !! i = Some x → (P x' → P x) →
  length (filter P (<[i := x']> l)) ≤ length (filter P l).
Proof.
  intros Hi Himp.
  rewrite insert_take_drop by (by eapply lookup_lt_Some).
  rewrite <- (take_drop_middle l i x Hi) at 3.
  rewrite !filter_app, !length_app, !filter_cons.
  destruct (decide (P x')), (decide (P x)); simpl; try lia. tauto.
Qed.

Lemma running_before_insert ws i j slug w w' :
  ws !! i = Some (slug, w) →
  (finished w = true → w' = w) →
  running_before (<[i := (slug, w')]> ws) j ≤ running_before ws j.
Proof.
  intros Hi Hw. unfold running_before.
  destruct (decide (j ≤ i)) as [Hle|Hlt].
  - by rewrite take_insert_ge.
  - rewrite take_insert_lt by lia.
    apply (filter_insert_length _ _ _ (slug, w)).
    + rewrite lookup_take_lt by lia. done.
    + simpl. intros Hf. destruct (finished w) eqn:E; [|done].
      by rewrite (Hw eq_refl), E in Hf.
Qed.

Lemma in_progress_bound (ws : list (string * wstate)) (m : nat) :
  (∀ i sw, ws !! i = Some sw → in_progress sw.2 = true → running_before ws i < m) →
  length (filter (λ sw : string * wstate, in_progress sw.2 = true) ws) ≤ m.
Proof.
  induction ws as [|x ws IH] using rev_ind; intros H; [simpl; lia|].
  assert (length (filter (λ sw : string * wstate, in_progress sw.2 = true) ws)
          ≤ running_before (ws ++ [x]) (length ws)) as Hle.
  { unfold running_before. rewrite take_app_length.
    clear. induction ws as [|[s w] ws IH]; [done|].
    rewrite !filter_cons. simpl.
    destruct w; simpl; lia. }
  rewrite filter_app, length_app, filter_cons. simpl.
  destruct (decide (in_progress x.2 = true)) as [Hx|Hx]; simpl.
  - pose proof (H (length ws) x (list_lookup_middle _ _ _ _ eq_refl) Hx). lia.
  - rewrite Nat.add_0_r. apply IH. intros i sw Hi Hsw.
    pose proof (lookup_lt_Some _ _ _ Hi) as Hlt.
    specialize (H i sw). rewrite lookup_app_l in H by done.
    unfold running_before in *. rewrite take_app_le in H by lia. by apply H.
Qed.

Section Session.

Variable sha256 : string → string.
Variable env : environment.
Variable out_dir : string.

Local Abbreviation wstep := (wstep sha256 env out_dir).
Local Abbreviation exec := (exec sha256 env out_dir).
Local Abbreviation run := (run sha256 env out_dir).
Local Abbreviation downloadAll := (downloadAll sha256 env out_dir).
Local Abbreviation save_failed := (save_failed out_dir).

(** The dictionary [results] counts the futures the main thread has taken. *)
Lemma results_collected sched fs ids :
  let st := run sched (submit fs ids) in
  d_results st
  = foldr bump (Tally 0 0 0 0) (omap (outcome_at (d_workers st)) (d_collected st)).
Proof.
  apply (run_invariant sha256 env out_dir
           (λ st, collected_ok st
                  ∧ d_results st
                    = foldr bump (Tally 0 0 0 0)
                        (omap (outcome_at (d_workers st)) (d_collected st)))).
  - split; [|done]. split; [constructor|]. split; [by intros i ?%elem_of_nil|done].
  - intros st a [Hok Hres]. split; [by apply collected_ok_exec|].
    destruct Hok as (_ & Hret & _). destruct a as [i|i].
    + destruct (exec_step_cases sha256 env out_dir st i)
        as [->|(slug & w & Hi & _ & ->)]; [done|].
      unfold stepped. cbn [d_results d_workers d_collected]. rewrite Hres.
      f_equal. symmetry. eapply outcome_at_insert; [exact Hi| |exact Hret].
      by intros o ->.
    + destruct (exec_collect_cases sha256 env out_dir st i)
        as [->|(_ & _ & [(slug & o & Hi & ->)|(slug & _ & ->)])]; [done| |done].
      cbn [d_results d_workers d_collected omap list_omap].
      unfold outcome_at at 1. rewrite Hi. cbn [foldr]. by rewrite Hres.
Qed.

Lemma save_failed_results st : d_results (save_failed st) = d_results st.
Proof. unfold save_failed. by destruct (d_failed st). Qed.

(** Lines 196-212 and 220-221: when the session ends, the entry of
    [results] for each status is the number of identifiers whose download
    returned it, the four entries add up to the number of identifiers that
    were not listed as completed, and the entry for ["fail"] is the length
    of the failed list. *)
Theorem tally_counts (slugs : list string) (sched : list action) (fs : filesystem)
    (st : dstate) :
  downloadAll slugs sched fs = RunDone st →
  (∀ o, count_of o (d_results st) = length (returned_with o (d_workers st)))
  ∧ n_ok (d_results st) + n_skip (d_results st) + n_dedup (d_results st)
    + n_fail (d_results st)
    = length (filter (λ s, s ∉ load_checkpoint fs (completed_path_of out_dir)) slugs)
  ∧ n_fail (d_results st) = length (d_failed st).
Proof.
  intros Hrun.
  destruct (downloadAll_done _ _ _ _ _ _ _ Hrun) as (ids & Hids & _ & _ & Hall & ->).
  rewrite <- Hids. clear Hrun Hids.
  pose proof (collected_ok_run sha256 env out_dir sched fs ids) as Hok.
  pose proof (results_collected sched fs ids) as Hres. simpl in Hres.
  set (st := run sched (submit fs ids)) in *.
  rewrite save_failed_results, save_failed_workers, save_failed_failed.
  assert (∀ o, count_of o (d_results st) = length (returned_with o (d_workers st)))
    as Hcount.
  { intros o. rewrite Hres, count_of_tally, <- returned_with_outcomes, <- outcome_at_seq.
    apply Permutation_length, filter_Permutation, omap_Permutation.
    rewrite <- (reverse_Permutation (d_collected st)).
    destruct Hok as (Hnd & Hret & _). apply all_collected_perm; [done| |done].
    intros i Hi. destruct (Hret i Hi) as (s & o' & Hio).
    by apply lookup_lt_Some in Hio. }
  split; [exact Hcount|]. split.
  - pose proof (Hcount Ok) as H1. pose proof (Hcount Skip) as H2.
    pose proof (Hcount Dedup) as H3. pose proof (Hcount Fail) as H4.
    simpl in H1, H2, H3, H4. rewrite H1, H2, H3, H4.
    rewrite returned_with_total.
    + rewrite <- (length_fmap fst). unfold st.
      by rewrite workers_slugs, submit_slugs.
    + apply Forall_lookup. intros i [s w] Hi. simpl.
      by eapply all_collected_returned.
  - pose proof (Hcount Fail) as H4. simpl in H4. rewrite H4, returned_with_failing.
    symmetry. by apply Permutation_length, all_collected_failed.
Qed.

(** Lines 199-203: whatever the schedule, at most [MAX_WORKERS] downloads
    have started and not ended. *)
Theorem pool_bound (sched : list action) (fs : filesystem) (ids : list string) :
  length (filter (λ sw : string * wstate, in_progress sw.2 = true)
            (d_workers (run sched (submit fs ids)))) ≤ MAX_WORKERS.
Proof.
  apply in_progress_bound.
  apply (run_invariant sha256 env out_dir
           (λ st, ∀ i sw, d_workers st !! i = Some sw → in_progress sw.2 = true →
                          running_before (d_workers st) i < MAX_WORKERS)).
  - intros i [s w] Hi. apply submit_lookup in Hi as [_ ->]. done.
  - intros st [i|i] Hinv.
    + destruct (exec_step_cases sha256 env out_dir st i)
        as [->|(slug & w & Hi & Hcan & ->)]; [done|].
      unfold stepped. cbn [d_workers]. intros j sw Hj Hsw.
      eapply Nat.le_lt_trans.
      { apply (running_before_insert _ _ _ _ w); [exact Hi|].
        intros Hf. by rewrite wstep_finished. }
      destruct (decide (j = i)) as [->|Hne].
      * unfold can_run in Hcan. by apply Nat.ltb_lt in Hcan.
      * rewrite list_lookup_insert_ne in Hj by done. by eapply Hinv.
    + destruct (exec_collect_cases sha256 env out_dir st i)
        as [->|(_ & _ & [(slug & o & _ & ->)|(slug & _ & ->)])]; done.
Qed.

End Session.

Lemma tally_counts_witness :
  ∃ st, downloadAll DownloadExamples.digest DownloadExamples.env_beta_down "out"
          ["alpha"; "beta"] (sequential 2) ∅ = RunDone st
        ∧ n_ok (d_results st) = 1 ∧ n_fail (d_results st) = 1
        ∧ n_fail (d_results st) = length (d_failed st).
Proof.
  pose proof (tally_counts DownloadExamples.digest DownloadExamples.env_beta_down
                "out" ["alpha"; "beta"] (sequential 2) ∅) as H.
  destruct (downloadAll DownloadExamples.digest DownloadExamples.env_beta_down "out"
              ["alpha"; "beta"] (sequential 2) ∅) as [|st|st|st] eqn:E.
  - vm_compute in E. discriminate E.
  - exists st. split; [reflexivity|].
    destruct (H st eq_refl) as (Hc & _ & Hf). clear H.
    pose proof (Hc Ok) as H1. pose proof (Hc Fail) as H2. simpl in H1, H2.
    split; [|split; [|exact Hf]].
    + rewrite H1. vm_compute in E. injection E as <-. reflexivity.
    + rewrite H2. vm_compute in E. injection E as <-. reflexivity.
  - vm_compute in E. discriminate E.
  - vm_compute in E. discriminate E.
Defined.

(** ** The requests of a session *)

Lemma requests_app slug t1 t2 :
  requests slug (t1 ++ t2) = requests slug t1 ++ requests slug t2.
Proof. apply omap_app. Qed.

Lemma requests_log slug σ e :
  requests slug (st_trace (log σ e)) = requests slug (st_trace σ) ++ requests slug [e].
Proof. apply requests_app. Qed.

Lemma requests_other slug s evs :
  s ≠ slug → Forall (worker_event s) evs → requests slug evs = [].
Proof.
  intros Hne. induction 1 as [|e evs He _ IH]; [done|].
  unfold requests in *. cbn [omap list_omap]. rewrite IH.
  destruct e; try done. simpl in He. subst. by rewrite decide_False.
Qed.

Lemma requests_on_exception slug n σ :
  requests slug (st_trace (on_exception n σ).2) = requests slug (st_trace σ).
Proof.
  destruct (on_exception_cases n σ) as [[_ ->]|[_ ->]]; [done|].
  cbn [snd]. rewrite requests_log. simpl. by rewrite app_nil_r.
Qed.

Lemma attempts_on_exception n σ :
  1 ≤ n ≤ MAX_RETRIES → attempts_made (on_exception n σ).1 n.
Proof.
  intros Hn. destruct (on_exception_cases n σ) as [[-> ->]|[_ ->]]; done.
Qed.

Section Requests.

Variable sha256 : string → string.
Variable env : environment.
Variable out_dir : string.

Local Abbreviation wstep := (wstep sha256 env out_dir).
Local Abbreviation run := (run sha256 env out_dir).
Local Abbreviation downloadAll := (downloadAll sha256 env out_dir).
Local Abbreviation save_failed := (save_failed out_dir).

(** One step of a worker sends at most one request, the next one. *)
Lemma wstep_requests slug w σ k :
  valid_wstate w → attempts_made w k → k ≤ MAX_RETRIES →
  requests slug (st_trace σ) = seq 1 k →
  ∃ k', requests slug (st_trace (wstep slug w σ).2) = seq 1 k'
        ∧ k' ≤ MAX_RETRIES ∧ attempts_made (wstep slug w σ).1 k'.
Proof.
  intros Hv Hk Hle Hreq.
  assert (∀ n σ', 1 ≤ n ≤ MAX_RETRIES → requests slug (st_trace σ') = seq 1 n →
    ∃ k', requests slug (st_trace (on_exception n σ').2) = seq 1 k'
          ∧ k' ≤ MAX_RETRIES ∧ attempts_made (on_exception n σ').1 k') as Hexc.
  { intros n σ' Hn Hσ'. exists n. rewrite requests_on_exception.
    split; [done|]. split; [lia|]. by apply attempts_on_exception. }
  assert (requests slug (st_trace (log σ (EvGet slug (S k)))) = seq 1 (S k)) as Hget.
  { rewrite requests_log, Hreq, seq_S. simpl. by rewrite decide_True. }
  destruct w as [|n|n c|n c|n|o|]; cbn [wstep]; simpl in Hv, Hk.
  - subst k. destruct (makedirs_raises env slug); [by exists 0|].
    destruct (path_exists _ _); by exists 0.
  - subst n. destruct (net_get env slug (S k)) as [|status c].
    + by apply Hexc.
    + destruct (status =? 200)%Z; [|by apply Hexc].
      exists (S k). cbn [fst snd]. split; [done|]. split; [lia|done].
  - subst n. destruct (decide _); exists k; cbn [fst snd]; split; try done.
    + split; [done|]. simpl. lia.
  - subst n. destruct (file_write env slug k).
    + exists k. cbn [fst snd]. rewrite requests_log. cbn [set_fs st_trace].
      rewrite Hreq. simpl. by rewrite app_nil_r.
    + by apply Hexc.
    + apply Hexc; [done|]. rewrite requests_log. cbn [log set_fs st_trace].
      rewrite Hreq. simpl. by rewrite app_nil_r.
  - subst n. destruct (append_raises env slug k); [by apply Hexc|].
    exists k. cbn [fst snd]. rewrite requests_log. cbn [log set_fs st_trace].
    rewrite Hreq. simpl. rewrite app_nil_r. split; [done|]. split; [done|]. lia.
  - by exists k.
  - by exists k.
Qed.

Lemma wstep_valid slug w σ : valid_wstate w → valid_wstate (wstep slug w σ).1.
Proof.
  intros Hv. destruct (finished w) eqn:Hf.
  - by rewrite wstep_finished.
  - by apply wstep_progress.
Qed.

Lemma run_requests sched fs ids :
  NoDup ids →
  let st := run sched (submit fs ids) in
  ∀ i slug w, d_workers st !! i = Some (slug, w) →
    ∃ k, requests slug (st_trace (d_store st)) = seq 1 k
         ∧ k ≤ MAX_RETRIES ∧ attempts_made w k.
Proof.
  intros Hnd st.
  assert (NoDup (d_workers st).*1) as Hnd'.
  { unfold st. by rewrite workers_slugs, submit_slugs. }
  revert Hnd'. unfold st.
  apply (run_invariant_workers sha256 env out_dir
           (λ σ ws, NoDup ws.*1 →
                    ∀ i slug w, ws !! i = Some (slug, w) →
                      valid_wstate w
                      ∧ ∃ k, requests slug (st_trace σ) = seq 1 k
                             ∧ k ≤ MAX_RETRIES ∧ attempts_made w k)).
  - intros _ i slug w Hi. apply submit_lookup in Hi as [_ ->].
    split; [done|]. exists 0. split; [done|]. split; [lia|done].
  - intros σ ws i s w Hinv Hi.
    assert ((<[i := (s, (wstep s w σ).1)]> ws).*1 = ws.*1) as ->.
    { rewrite list_fmap_insert. simpl. apply list_insert_id.
      by rewrite list_lookup_fmap, Hi. }
    intros Hnd' j b wb Hj. specialize (Hinv Hnd').
    destruct (decide (j = i)) as [->|Hne].
    + rewrite list_lookup_insert_eq in Hj by (by eapply lookup_lt_Some).
      injection Hj as <- <-.
      destruct (Hinv i s w Hi) as (Hv & k & Hreq & Hle & Hk).
      split; [by apply wstep_valid|]. by eapply wstep_requests.
    + rewrite list_lookup_insert_ne in Hj by done.
      destruct (Hinv j b wb Hj) as (Hv & k & Hreq & Hle & Hk).
      split; [done|]. exists k. split; [|done].
      destruct (wstep_trace sha256 env out_dir s w σ) as (evs & -> & Hevs & _).
      rewrite requests_app. rewrite (requests_other b s evs); [by rewrite app_nil_r| |done].
      intros ->. apply Hne. eapply NoDup_lookup; [exact Hnd'| |].
      * by rewrite list_lookup_fmap, Hj.
      * by rewrite list_lookup_fmap, Hi.
Qed.

Lemma requests_none sched fs ids slug :
  slug ∉ ids → requests slug (st_trace (d_store (run sched (submit fs ids)))) = [].
Proof.
  intros Hni.
  pose proof (run_gets sha256 env out_dir sched fs ids slug) as Hgets.
  induction (st_trace _) as [|e t IH]; [done|].
  unfold requests in *. cbn [omap list_omap]. rewrite IH.
  - destruct e as [| | |s n| | |]; try done. simpl.
    destruct (decide (s = slug)) as [->|]; [|done].
    destruct Hni. apply (Hgets n). apply list_elem_of_here.
  - intros n Hn. apply (Hgets n). by apply list_elem_of_further.
Qed.

Lemma requests_save_failed st slug :
  requests slug (st_trace (d_store (save_failed st)))
  = requests slug (st_trace (d_store st)).
Proof.
  destruct (decide (d_failed st = [])) as [E|E].
  - by rewrite save_failed_empty.
  - destruct (save_failed_written out_dir st E) as [_ ->].
    rewrite requests_app. simpl. by rewrite app_nil_r.
Qed.

(** Lines 109-139 in a session: whatever the schedule and the answers, the
    requests for an identifier are those of the attempts 1, 2, ..., k in
    this order, with k at most [MAX_RETRIES]; k is [MAX_RETRIES] when its
    download returned ["fail"], 0 when it returned ["skip"] or raised, and
    at least 1 when it returned ["ok"] or ["dedup"]. *)
Theorem requests_bounded (slugs : list string) (sched : list action)
    (fs : filesystem) (st : dstate) (slug : string) :
  NoDup slugs →
  result_state (downloadAll slugs sched fs) = Some st →
  ∃ k, requests slug (st_trace (d_store st)) = seq 1 k
       ∧ k ≤ MAX_RETRIES
       ∧ ∀ w, (slug, w) ∈ d_workers st → attempts_made w k.
Proof.
  intros Hnd Hst.
  set (ids := filter (λ s, s ∉ load_checkpoint fs (completed_path_of out_dir)) slugs).
  assert (NoDup ids) as Hids by (by apply NoDup_filter).
  assert (requests slug (st_trace (d_store st))
          = requests slug (st_trace (d_store (run sched (submit fs ids))))
          ∧ d_workers st = d_workers (run sched (submit fs ids))) as [-> ->].
  { destruct (downloadAll_state _ _ _ _ _ _ _ Hst) as [->| ->]; [done|].
    by rewrite requests_save_failed, save_failed_workers. }
  destruct (decide (slug ∈ ids)) as [Hin|Hni].
  - assert (slug ∈ (d_workers (run sched (submit fs ids))).*1) as Hw.
    { by rewrite workers_slugs, submit_slugs. }
    apply list_elem_of_fmap in Hw as ([s w] & -> & Hw).
    apply list_elem_of_lookup in Hw as [i Hi].
    destruct (run_requests sched fs ids Hids i s w Hi) as (k & Hreq & Hle & Hk).
    exists k. split; [done|]. split; [done|].
    intros w' Hw'. apply list_elem_of_lookup in Hw' as [j Hj].
    assert (j = i) as ->.
    { eapply NoDup_lookup.
      - rewrite <- (submit_slugs fs ids), <- (workers_slugs sha256 env out_dir sched)
          in Hids. exact Hids.
      - by rewrite list_lookup_fmap, Hj.
      - by rewrite list_lookup_fmap, Hi. }
    simpl in Hj. rewrite Hi in Hj. by injection Hj as <-.
  - exists 0. rewrite requests_none by done. split; [done|]. split; [lia|].
    intros w Hw. destruct Hni.
    rewrite <- (submit_slugs fs ids), <- (workers_slugs sha256 env out_dir sched).
    apply list_elem_of_fmap. by exists (slug, w).
Qed.

End Requests.

Lemma requests_bounded_witness :
  ∃ st, downloadAll DownloadExamples.digest DownloadExamples.env_beta_down "out"
          ["alpha"; "beta"] (sequential 2) ∅ = RunDone st
        ∧ requests "beta" (st_trace (d_store st)) = seq 1 MAX_RETRIES.
Proof.
  pose proof (requests_bounded DownloadExamples.digest DownloadExamples.env_beta_down
                "out" ["alpha"; "beta"] (sequential 2) ∅) as H.
  destruct (downloadAll DownloadExamples.digest DownloadExamples.env_beta_down "out"
              ["alpha"; "beta"] (sequential 2) ∅) as [|st|st|st] eqn:E.
  - vm_compute in E. discriminate E.
  - exists st. split; [reflexivity|].
    assert (NoDup ["alpha"; "beta"]) as Hnd.
    { apply NoDup_cons. split; [by intros ?%list_elem_of_singleton|].
      apply NoDup_singleton. }
    destruct (H st "beta" Hnd eq_refl) as (k & Hreq & _ & Hk). clear H.
    rewrite Hreq. f_equal. apply (Hk (Returned Fail)).
    vm_compute in E. injection E as <-.
    apply list_elem_of_further, list_elem_of_here.
  - vm_compute in E. discriminate E.
  - vm_compute in E. discriminate E.
Defined.

(** ** The files a session stores *)

Lemma holds_on_exception out_dir σ slug n σ' c :
  ¬ holds out_dir σ slug (on_exception n σ').1 c.
Proof. rewrite on_exception_state. destruct (n =? MAX_RETRIES); simpl; tauto. Qed.

Section Stored.

Variable sha256 : string → string.
Variable env : environment.
Variable out_dir : string.

Local Abbreviation wstep := (wstep sha256 env out_dir).
Local Abbreviation run := (run sha256 env out_dir).
Local Abbreviation downloadAll := (downloadAll sha256 env out_dir).
Local Abbreviation save_failed := (save_failed out_dir).
Local Abbreviation holds := (holds out_dir).

(** A payload a worker holds after a step is one it held before, or one
    whose digest it has just registered. *)
Lemma wstep_holds slug w σ c :
  holds (wstep slug w σ).2 slug (wstep slug w σ).1 c →
  holds σ slug w c ∨ ∃ n, w = Fetched n c ∧ sha256 c ∉ st_seen σ.
Proof.
  destruct w as [|n|n c'|n c'|n|o|]; cbn [wstep].
  - destruct (makedirs_raises env slug); [done|]. by destruct (path_exists _ _).
  - destruct (net_get env slug n) as [|status c'].
    + by intros ?%holds_on_exception.
    + destruct (status =? 200)%Z; [done|]. by intros ?%holds_on_exception.
  - destruct (decide _) as [|Hni]; [done|]. simpl. intros ->. right. eauto.
  - destruct (file_write env slug n).
    + simpl. rewrite lookup_insert_eq. intros [= ->]. by left.
    + by intros ?%holds_on_exception.
    + by intros ?%holds_on_exception.
  - destruct (append_raises env slug n); [by intros ?%holds_on_exception|].
    simpl. unfold append_file.
    rewrite lookup_insert_ne by (intros H; by apply (image_path_ne_completed out_dir slug)).
    by left.
  - by left.
  - by left.
Qed.

(** The step of a worker leaves what the worker of another file holds. *)
Lemma holds_frame slug w σ b wb c :
  image_path out_dir b ≠ image_path out_dir slug →
  holds (wstep slug w σ).2 b wb c ↔ holds σ b wb c.
Proof.
  intros Hne.
  assert (st_fs (wstep slug w σ).2 !! image_path out_dir b
          = st_fs σ !! image_path out_dir b) as Hfs.
  { apply wstep_fs_other; [done|apply image_path_ne_completed]. }
  destruct wb as [| | | | |[]|]; simpl; by rewrite ?Hfs.
Qed.

(** What is held has a registered digest and was sent by the endpoint, and
    two workers never hold payloads of one digest. *)
Lemma run_holds sched fs ids :
  NoDup ids → (∀ s, s ∈ ids → Path.starts_with_sep s = false) →
  let st := run sched (submit fs ids) in
  (∀ i s w c, d_workers st !! i = Some (s, w) → holds (d_store st) s w c →
     sha256 c ∈ st_seen (d_store st)
     ∧ ∃ n, 1 ≤ n ≤ MAX_RETRIES ∧ net_get env s n = Response 200 c)
  ∧ (∀ i j a b wa wb ca cb, i ≠ j →
       d_workers st !! i = Some (a, wa) → d_workers st !! j = Some (b, wb) →
       holds (d_store st) a wa ca → holds (d_store st) b wb cb →
       sha256 ca ≠ sha256 cb).
Proof.
  intros Hnd Hrel st.
  assert ((d_workers st).*1 = ids) as Hids.
  { unfold st. by rewrite workers_slugs, submit_slugs. }
  revert Hids. unfold st. clear st.
  set (sent s c := ∃ n, 1 ≤ n ≤ MAX_RETRIES ∧ net_get env s n = Response 200 c).
  intros Hids.
  cut ((∀ i s w, d_workers (run sched (submit fs ids)) !! i = Some (s, w) →
          valid_wstate w ∧ from_net env s w
          ∧ ∀ c, holds (d_store (run sched (submit fs ids))) s w c →
                 sha256 c ∈ st_seen (d_store (run sched (submit fs ids))) ∧ sent s c)
       ∧ (∀ i j a b wa wb ca cb, i ≠ j →
            d_workers (run sched (submit fs ids)) !! i = Some (a, wa) →
            d_workers (run sched (submit fs ids)) !! j = Some (b, wb) →
            holds (d_store (run sched (submit fs ids))) a wa ca →
            holds (d_store (run sched (submit fs ids))) b wb cb →
            sha256 ca ≠ sha256 cb)).
  { intros [Ha Hb]. split; [|exact Hb].
    intros i s w c Hi Hc. by apply (Ha i s w Hi). }
  revert Hids.
  apply (run_invariant_workers sha256 env out_dir
           (λ σ ws, ws.*1 = ids →
              (∀ i s w, ws !! i = Some (s, w) →
                 valid_wstate w ∧ from_net env s w
                 ∧ ∀ c, holds σ s w c → sha256 c ∈ st_seen σ ∧ sent s c)
              ∧ (∀ i j a b wa wb ca cb, i ≠ j →
                   ws !! i = Some (a, wa) → ws !! j = Some (b, wb) →
                   holds σ a wa ca → holds σ b wb cb →
                   sha256 ca ≠ sha256 cb))).
  - intros _. split.
    + intros i s w Hi. apply submit_lookup in Hi as [_ ->]. done.
    + intros i j a b wa wb ca cb _ Hi. by apply submit_lookup in Hi as [_ ->].
  - intros σ ws i s w Hinv Hi.
    assert ((<[i := (s, (wstep s w σ).1)]> ws).*1 = ws.*1) as ->.
    { rewrite list_fmap_insert. simpl. apply list_insert_id.
      by rewrite list_lookup_fmap, Hi. }
    intros Hids. destruct (Hinv Hids) as [Ha Hb]. clear Hinv.
    destruct (Ha i s w Hi) as (Hv & Hnet & Hseen).
    assert (∀ j b wb, j ≠ i → ws !! j = Some (b, wb) →
              image_path out_dir b ≠ image_path out_dir s) as Hpath.
    { intros j b wb Hne Hj Heq. apply Hne.
      assert (b ∈ ids ∧ s ∈ ids) as [Hbin Hsin].
      { rewrite <- Hids. split; apply list_elem_of_fmap.
        - exists (b, wb). split; [done|]. by eapply list_elem_of_lookup_2.
        - exists (s, w). split; [done|]. by eapply list_elem_of_lookup_2. }
      apply image_path_inj in Heq; [|by apply Hrel..]. subst b.
      eapply NoDup_lookup; [rewrite <- Hids in Hnd; exact Hnd| |].
      - by rewrite list_lookup_fmap, Hj.
      - by rewrite list_lookup_fmap, Hi. }
    assert (∀ d, d ∈ st_seen σ → d ∈ st_seen (wstep s w σ).2) as Hmono.
    { intros d Hd. apply wstep_seen. by left. }
    assert (∀ c, holds (wstep s w σ).2 s (wstep s w σ).1 c →
              sha256 c ∈ st_seen (wstep s w σ).2 ∧ sent s c) as Hself.
    { intros c [Hc|(n & -> & Hni)]%wstep_holds.
      - destruct (Hseen c Hc) as [Hd Hs]. split; [by apply Hmono|done].
      - split.
        + apply wstep_seen. right. by exists n, c.
        + exists n. split; [exact Hv|exact Hnet]. }
    assert (∀ j b wb ca cb, j ≠ i → ws !! j = Some (b, wb) →
              holds (wstep s w σ).2 s (wstep s w σ).1 ca → holds σ b wb cb →
              sha256 ca ≠ sha256 cb) as Hpair.
    { intros j b wb ca cb Hne Hj [Hca|(n & -> & Hni)]%wstep_holds Hcb.
      - by apply (Hb i j s b w wb ca cb).
      - destruct (Ha j b wb Hj) as (_ & _ & Hseenb).
        destruct (Hseenb cb Hcb) as [Hd _]. intros Heq. apply Hni. by rewrite Heq. }
    split.
    + intros j b wb Hj.
      destruct (decide (j = i)) as [->|Hne].
      * rewrite list_lookup_insert_eq in Hj by (by eapply lookup_lt_Some).
        injection Hj as <- <-.
        split; [by apply wstep_valid|]. split; [by apply wstep_from_net|done].
      * rewrite list_lookup_insert_ne in Hj by done.
        destruct (Ha j b wb Hj) as (Hvb & Hnetb & Hseenb).
        split; [done|]. split; [done|].
        intros c Hc. apply holds_frame in Hc; [|by eapply Hpath].
        destruct (Hseenb c Hc) as [Hd Hs]. split; [by apply Hmono|done].
    + intros j1 j2 a b wa wb ca cb Hne H1 H2 Hca Hcb.
      destruct (decide (j1 = i)) as [->|Hne1]; destruct (decide (j2 = i)) as [->|Hne2].
      * done.
      * rewrite list_lookup_insert_eq in H1 by (by eapply lookup_lt_Some).
        injection H1 as <- <-.
        rewrite list_lookup_insert_ne in H2 by done.
        apply holds_frame in Hcb; [|by eapply Hpath].
        by apply (Hpair j2 b wb).
      * rewrite list_lookup_insert_eq in H2 by (by eapply lookup_lt_Some).
        injection H2 as <- <-.
        rewrite list_lookup_insert_ne in H1 by done.
        apply holds_frame in Hca; [|by eapply Hpath].
        intros Heq. by apply (Hpair j1 a wa cb ca Hne1 H1 Hcb Hca).
      * rewrite list_lookup_insert_ne in H1, H2 by done.
        apply holds_frame in Hca; [|by apply (Hpath j1 a wa)].
        apply holds_frame in Hcb; [|by apply (Hpath j2 b wb)].
        by apply (Hb j1 j2 a b wa wb).
Qed.

Lemma save_failed_seen st : st_seen (d_store (save_failed st)) = st_seen (d_store st).
Proof. unfold save_failed. by destruct (d_failed st). Qed.

Lemma save_failed_image st slug :
  st_fs (d_store (save_failed st)) !! image_path out_dir slug
  = st_fs (d_store st) !! image_path out_dir slug.
Proof.
  apply save_failed_fs_other;
    [apply image_path_ne_failed|apply image_path_ne_failed_tmp].
Qed.

Lemma result_holds (slugs : list string) (sched : list action)
    (fs : filesystem) (st : dstate) :
  NoDup slugs →
  (∀ s, s ∈ slugs → Path.starts_with_sep s = false) →
  result_state (downloadAll slugs sched fs) = Some st →
  (∀ a, (a, Returned Ok) ∈ d_workers st →
     ∃ c n, st_fs (d_store st) !! image_path out_dir a = Some c
            ∧ 1 ≤ n ≤ MAX_RETRIES ∧ net_get env a n = Response 200 c
            ∧ sha256 c ∈ st_seen (d_store st))
  ∧ (∀ a b ca cb,
       (a, Returned Ok) ∈ d_workers st → (b, Returned Ok) ∈ d_workers st → a ≠ b →
       st_fs (d_store st) !! image_path out_dir a = Some ca →
       st_fs (d_store st) !! image_path out_dir b = Some cb →
       sha256 ca ≠ sha256 cb).
Proof.
  intros Hnd Hrel Hst.
  set (ids := filter (λ s, s ∉ load_checkpoint fs (completed_path_of out_dir)) slugs).
  assert (NoDup ids) as Hids by (by apply NoDup_filter).
  assert (∀ s, s ∈ ids → Path.starts_with_sep s = false) as Hrel'.
  { intros s [_ Hs]%list_elem_of_filter. by apply Hrel. }
  destruct (run_holds sched fs ids Hids Hrel') as [Ha Hb].
  set (st0 := run sched (submit fs ids)) in *.
  assert (d_workers st = d_workers st0
          ∧ st_seen (d_store st) = st_seen (d_store st0)
          ∧ ∀ s, st_fs (d_store st) !! image_path out_dir s
                 = st_fs (d_store st0) !! image_path out_dir s) as (-> & -> & Hfs).
  { destruct (downloadAll_state _ _ _ _ _ _ _ Hst) as [->| ->]; [done|].
    rewrite save_failed_workers, save_failed_seen. split; [done|]. split; [done|].
    intros s. apply save_failed_image. }
  split.
  - intros a [i Hi]%list_elem_of_lookup. rewrite Hfs.
    destruct (run_has_file sha256 env out_dir sched fs ids i a (Returned Ok) Hi I)
      as [c Hc].
    destruct (Ha i a (Returned Ok) c Hi Hc) as (Hd & n & Hn & Hnet).
    by exists c, n.
  - intros a b ca cb [i Hi]%list_elem_of_lookup [j Hj]%list_elem_of_lookup Hab.
    rewrite !Hfs. intros Hca Hcb.
    apply (Hb i j a b (Returned Ok) (Returned Ok)); try done.
    intros ->. rewrite Hi in Hj. by injection Hj.
Qed.

(** Lines 119-127 in a session whose identifiers are distinct and match
    the identifier pattern (so that no two of them name one file): the file
    of a download that returned ["ok"] holds a payload the endpoint sent for
    its identifier, with a registered digest, and the files of two such
    downloads have different digests. *)
Theorem stored_files_distinct (slugs : list string) (sched : list action)
    (fs : filesystem) (st : dstate) :
  NoDup slugs →
  (∀ s, s ∈ slugs → Regex.is_slug s = true) →
  result_state (downloadAll slugs sched fs) = Some st →
  (∀ a, (a, Returned Ok) ∈ d_workers st →
     ∃ c n, st_fs (d_store st) !! image_path out_dir a = Some c
            ∧ 1 ≤ n ≤ MAX_RETRIES ∧ net_get env a n = Response 200 c
            ∧ sha256 c ∈ st_seen (d_store st))
  ∧ (∀ a b ca cb,
       (a, Returned Ok) ∈ d_workers st → (b, Returned Ok) ∈ d_workers st → a ≠ b →
       st_fs (d_store st) !! image_path out_dir a = Some ca →
       st_fs (d_store st) !! image_path out_dir b = Some cb →
       sha256 ca ≠ sha256 cb).
Proof.
  intros Hnd Hslug. apply result_holds; [done|].
  intros s Hs. by apply is_slug_relative, Hslug.
Qed.

End Stored.

Lemma stored_files_distinct_witness :
  ∃ st, downloadAll DownloadExamples.digest DownloadExamples.env_up "out"
          ["alpha"; "beta"; "gamma"] (sequential 3) ∅ = RunDone st
        ∧ ∃ c n, st_fs (d_store st) !! image_path "out" "beta" = Some c
                 ∧ 1 ≤ n ≤ MAX_RETRIES
                 ∧ net_get DownloadExamples.env_up "beta" n = Response 200 c
                 ∧ DownloadExamples.digest c ∈ st_seen (d_store st).
Proof.
  assert (NoDup ["alpha"; "beta"; "gamma"]) as Hnd.
  { apply (bool_decide_unpack _). by vm_compute. }
  assert (∀ s, s ∈ ["alpha"; "beta"; "gamma"] → Regex.is_slug s = true)
    as Hrel.
  { intros s Hs. repeat (apply elem_of_cons in Hs as [->|Hs]; [done|]).
    by apply elem_of_nil in Hs. }
  pose proof (stored_files_distinct DownloadExamples.digest DownloadExamples.env_up
                "out" ["alpha"; "beta"; "gamma"] (sequential 3) ∅) as H.
  destruct (downloadAll DownloadExamples.digest DownloadExamples.env_up "out"
              ["alpha"; "beta"; "gamma"] (sequential 3) ∅) as [|st|st|st] eqn:E.
  - vm_compute in E. discriminate E.
  - exists st. split; [reflexivity|].
    destruct (H st Hnd Hrel eq_refl) as [Ha _]. clear H.
    apply Ha. vm_compute in E. injection E as <-.
    apply list_elem_of_further, list_elem_of_here.
  - vm_compute in E. discriminate E.
  - vm_compute in E. discriminate E.
Defined.

(** ** One download at a time *)

Lemma fetch_each_cons sha256 env out_dir s rest σ :
  fetch_each sha256 env out_dir (s :: rest) σ
  = ((s, (fetch sha256 env out_dir s σ).1)
       :: (fetch_each sha256 env out_dir rest (fetch sha256 env out_dir s σ).2).1,
     (fetch_each sha256 env out_dir rest (fetch sha256 env out_dir s σ).2).2).
Proof.
  cbn [fetch_each]. destruct (fetch sha256 env out_dir s σ) as [w σ'].
  cbn [fst snd]. by destruct (fetch_each sha256 env out_dir rest σ').
Qed.

Lemma fetch_each_slugs sha256 env out_dir ids σ :
  (fetch_each sha256 env out_dir ids σ).1.*1 = ids.
Proof.
  revert σ. induction ids as [|s ids IH]; intros σ; [done|].
  rewrite fetch_each_cons. cbn [fst fmap list_fmap]. f_equal. apply IH.
Qed.

Lemma running_before_finished (done rest : list (string * wstate)) :
  Forall (λ sw : string * wstate, finished sw.2 = true) done →
  running_before (done ++ rest) (length done) = 0.
Proof.
  intros Hdone. unfold running_before. rewrite take_app_length.
  induction Hdone as [|[s w] done Hw _ IH]; [done|].
  rewrite filter_cons. simpl in *. rewrite Hw. exact IH.
Qed.

Section Sequential.

Variable sha256 : string → string.
Variable env : environment.
Variable out_dir : string.

Local Abbreviation wstep := (wstep sha256 env out_dir).
Local Abbreviation fetch_loop := (fetch_loop sha256 env out_dir).
Local Abbreviation fetch := (fetch sha256 env out_dir).
Local Abbreviation fetch_each := (fetch_each sha256 env out_dir).
Local Abbreviation exec := (exec sha256 env out_dir).
Local Abbreviation stepped := (stepped sha256 env out_dir).
Local Abbreviation run := (run sha256 env out_dir).
Local Abbreviation downloadAll := (downloadAll sha256 env out_dir).
Local Abbreviation save_failed := (save_failed out_dir).
Local Abbreviation block :=
  (λ i : nat, repeat (Step i) FETCH_STEPS ++ [Collect i]).

Lemma run_app s1 s2 st : run (s1 ++ s2) st = run s2 (run s1 st).
Proof. apply foldl_app. Qed.

Lemma run_cons a sched st : run (a :: sched) st = run sched (exec st a).
Proof. done. Qed.

Lemma exec_step_at st i slug w :
  d_workers st !! i = Some (slug, w) → running_before (d_workers st) i = 0 →
  exec st (Step i) = stepped st i slug w.
Proof.
  intros Hi Hrun.
  destruct (exec_step_cases sha256 env out_dir st i)
    as [H|(s & v & Hi' & _ & ->)].
  - revert H. simpl. rewrite Hi. unfold can_run. rewrite Hrun. simpl.
    unfold stepped. by destruct (wstep slug w (d_store st)).
  - rewrite Hi in Hi'. by injection Hi' as <- <-.
Qed.

Lemma stepped_finished st i slug w :
  d_workers st !! i = Some (slug, w) → finished w = true → stepped st i slug w = st.
Proof.
  intros Hi Hf. unfold stepped. rewrite wstep_finished by done. cbn [fst snd].
  rewrite list_insert_id by done. by destruct st.
Qed.

(** The steps of a worker that no earlier one holds up are [download] run
    on its own. *)
Lemma run_steps k st i slug w :
  d_workers st !! i = Some (slug, w) → running_before (d_workers st) i = 0 →
  run (repeat (Step i) k) st
  = {| d_store := (fetch_loop k slug w (d_store st)).2;
       d_workers := <[i := (slug, (fetch_loop k slug w (d_store st)).1)]> (d_workers st);
       d_collected := d_collected st;
       d_results := d_results st;
       d_failed := d_failed st;
       d_aborted := d_aborted st |}.
Proof.
  revert st w. induction k as [|k IH]; intros st w Hi Hrun.
  - cbn [repeat fetch_loop fst snd]. rewrite list_insert_id by done. by destruct st.
  - cbn [repeat]. rewrite run_cons, (exec_step_at st i slug w Hi Hrun).
    destruct (finished w) eqn:Hf.
    + rewrite stepped_finished by done. rewrite (IH st w Hi Hrun).
      by rewrite !fetch_loop_finished.
    + rewrite fetch_loop_S by done.
      rewrite (IH (stepped st i slug w) (wstep slug w (d_store st)).1).
      * unfold stepped. cbn [d_store d_workers d_collected d_results d_failed d_aborted].
        by rewrite list_insert_insert_eq.
      * unfold stepped. cbn [d_workers].
        apply list_lookup_insert_eq. by eapply lookup_lt_Some.
      * unfold stepped. cbn [d_workers]. unfold running_before.
        by rewrite take_insert_ge.
Qed.

Lemma run_block st i slug :
  d_workers st !! i = Some (slug, Pending) → running_before (d_workers st) i = 0 →
  d_aborted st = false → i ∉ d_collected st → makedirs_raises env slug = false →
  ∃ o, (fetch slug (d_store st)).1 = Returned o
       ∧ run (block i) st
         = {| d_store := (fetch slug (d_store st)).2;
              d_workers := <[i := (slug, Returned o)]> (d_workers st);
              d_collected := i :: d_collected st;
              d_results := bump o (d_results st);
              d_failed := (if decide (o = Fail) then d_failed st ++ [slug]
                           else d_failed st);
              d_aborted := false |}.
Proof.
  intros Hi Hrun Hab Hni Hmk.
  destruct (fetch_returns sha256 env out_dir slug (d_store st) Hmk) as [o Ho].
  exists o. split; [done|].
  rewrite run_app, (run_steps _ _ _ _ _ Hi Hrun).
  fold (fetch slug (d_store st)). rewrite Ho.
  rewrite run_cons. cbn [run foldl].
  match goal with |- exec ?s _ = _ =>
    destruct (exec_collect_cases sha256 env out_dir s i)
      as [H|(_ & _ & [(s' & o' & Hi' & ->)|(s' & Hi' & _)])] end.
  - revert H. simpl. rewrite Hab.
    rewrite bool_decide_eq_false_2 by done. simpl.
    rewrite list_lookup_insert_eq by (by eapply lookup_lt_Some). by intros [=].
  - cbn [d_workers] in Hi'.
    rewrite list_lookup_insert_eq in Hi' by (by eapply lookup_lt_Some).
    by injection Hi' as <- <-.
  - cbn [d_workers] in Hi'.
    rewrite list_lookup_insert_eq in Hi' by (by eapply lookup_lt_Some). done.
Qed.

Lemma run_block_beyond st i : length (d_workers st) ≤ i → run (block i) st = st.
Proof.
  intros Hlen. cbv beta. rewrite run_app.
  assert (∀ k, run (repeat (Step i) k) st = st) as ->.
  { induction k as [|k IH]; [done|]. cbn [repeat]. rewrite run_cons.
    assert (exec st (Step i) = st) as ->; [|done].
    simpl. by rewrite lookup_ge_None_2. }
  rewrite run_cons. cbn [run foldl]. simpl.
  rewrite lookup_ge_None_2 by done. by destruct (_ || _).
Qed.

Lemma run_blocks_beyond st m k :
  length (d_workers st) ≤ m → run (flat_map block (seq m k)) st = st.
Proof.
  revert m. induction k as [|k IH]; intros m Hlen; [done|].
  cbn [seq flat_map]. rewrite run_app, run_block_beyond by done.
  apply IH. lia.
Qed.

Lemma run_sequential_from rest done σ collected results failed :
  Forall (λ sw : string * wstate, finished sw.2 = true) done →
  (∀ s, s ∈ rest → makedirs_raises env s = false) →
  (∀ i, i ∈ collected → i < length done) →
  ∃ results',
    run (flat_map block (seq (length done) (length rest)))
      {| d_store := σ;
         d_workers := done ++ ((λ s, (s, Pending)) <$> rest);
         d_collected := collected;
         d_results := results;
         d_failed := failed;
         d_aborted := false |}
    = {| d_store := (fetch_each rest σ).2;
         d_workers := done ++ (fetch_each rest σ).1;
         d_collected := reverse (seq (length done) (length rest)) ++ collected;
         d_results := results';
         d_failed := failed ++ failing (fetch_each rest σ).1;
         d_aborted := false |}
    ∧ Forall (λ sw : string * wstate, finished sw.2 = true) (fetch_each rest σ).1.
Proof.
  revert done σ collected results failed.
  induction rest as [|s rest IH]; intros done σ collected results failed Hdone Hmk Hcol.
  - exists results. split; [|done]. simpl. unfold failing. simpl.
    by rewrite !app_nil_r.
  - cbn [length seq flat_map fmap list_fmap]. rewrite run_app.
    set (st := {| d_store := σ;
                  d_workers := done ++ (s, Pending) :: ((λ s, (s, Pending)) <$> rest);
                  d_collected := collected;
                  d_results := results;
                  d_failed := failed;
                  d_aborted := false |}).
    destruct (run_block st (length done) s) as (o & Ho & ->).
    { apply list_lookup_middle. done. }
    { by apply running_before_finished. }
    { done. }
    { intros Hin%Hcol. lia. }
    { apply Hmk, list_elem_of_here. }
    unfold st in Ho |- *. clear st.
    cbn [d_store d_workers d_collected d_results d_failed d_aborted] in Ho |- *.
    rewrite insert_app_r_alt, Nat.sub_diag by done. cbn [insert list_insert].
    destruct (IH (done ++ [(s, Returned o)]) (fetch s σ).2 (length done :: collected)
                (bump o results)
                (if decide (o = Fail) then failed ++ [s] else failed))
      as (results' & Hrun & Hfin).
    { apply Forall_app. split; [done|]. by apply Forall_singleton. }
    { intros s' Hs'. apply Hmk. by apply list_elem_of_further. }
    { intros i [->|Hi%Hcol]%elem_of_cons; rewrite length_app; simpl; lia. }
    rewrite length_app in Hrun. cbn [length] in Hrun. rewrite Nat.add_1_r in Hrun.
    rewrite <- !app_assoc in Hrun. cbn [app] in Hrun.
    exists results'. rewrite Hrun, fetch_each_cons. cbn [fst snd]. rewrite Ho.
    split.
    + f_equal.
      * rewrite reverse_cons, <- app_assoc. done.
      * unfold failing. cbn [omap list_omap]. simpl.
        destruct (decide (o = Fail)) as [->|Hne]; [by rewrite <- app_assoc|].
        by destruct o.
    + by constructor.
Qed.

(** Lines 199-217 with one thread: when no [os.makedirs] raises, the
    session that runs the downloads one after the other, each collected on
    its return, reaches its end; its futures return what [download] returns
    when called for the identifiers in turn, the store is the one these
    calls leave, and the failed list holds the failed identifiers in the
    order of submission. *)
Theorem sequential_completes (slugs : list string) (fs : filesystem) (n : nat) :
  (∀ s, s ∈ slugs → makedirs_raises env s = false) →
  length slugs ≤ n →
  let ids := filter (λ s, s ∉ load_checkpoint fs (completed_path_of out_dir)) slugs in
  let σ0 := {| st_fs := fs; st_seen := ∅; st_trace := [] |} in
  (ids = [] ∧ downloadAll slugs (sequential n) fs = NothingToDo)
  ∨ ∃ st, downloadAll slugs (sequential n) fs = RunDone (save_failed st)
          ∧ d_workers st = (fetch_each ids σ0).1
          ∧ d_store st = (fetch_each ids σ0).2
          ∧ d_failed st = failing (d_workers st).
Proof.
  intros Hmk Hn ids σ0. unfold downloadAll. fold ids.
  destruct ids as [|x ids'] eqn:E; [by left|]. right. rewrite <- E.
  assert (length ids ≤ n) as Hlen.
  { etrans; [apply length_filter|done]. }
  assert (∀ s, s ∈ ids → makedirs_raises env s = false) as Hmk'.
  { intros s [_ Hs]%list_elem_of_filter. by apply Hmk. }
  clearbody ids. clear E.
  destruct (run_sequential_from ids [] σ0 [] (Tally 0 0 0 0) [])
    as (results' & Hrun & Hfin); [done|done|by intros i ?%elem_of_nil|].
  cbn [length app] in Hrun. rewrite app_nil_r in Hrun.
  set (st := {| d_store := (fetch_each ids σ0).2;
                d_workers := (fetch_each ids σ0).1;
                d_collected := reverse (seq 0 (length ids));
                d_results := results';
                d_failed := failing (fetch_each ids σ0).1;
                d_aborted := false |}) in *.
  assert (run (sequential n) (submit fs ids) = st) as ->.
  { unfold sequential.
    replace n with (length ids + (n - length ids)) by lia.
    rewrite seq_app, flat_map_app, run_app.
    unfold submit. fold σ0. rewrite Hrun. apply run_blocks_beyond.
    unfold st. cbn [d_workers].
    rewrite <- (length_fmap fst), fetch_each_slugs. lia. }
  exists st. split; [|done].
  assert (all_finished st = true) as ->.
  { unfold all_finished, st. cbn [d_workers]. apply forallb_forall.
    intros sw Hsw%list_elem_of_In. rewrite Forall_forall in Hfin. by apply Hfin. }
  assert (all_collected st = true) as ->; [|done].
  unfold all_collected, st. cbn [d_workers d_collected]. apply forallb_forall.
  intros i Hi%list_elem_of_In. apply bool_decide_eq_true_2.
  rewrite elem_of_reverse.
  by rewrite <- (length_fmap fst), fetch_each_slugs in Hi.
Qed.

End Sequential.

Lemma sequential_completes_witness :
  ∃ st, downloadAll DownloadExamples.digest DownloadExamples.env_beta_down "out"
          ["alpha"; "beta"] (sequential 2) ∅ = RunDone (save_failed "out" st)
        ∧ d_failed st = failing (d_workers st).
Proof.
  destruct (sequential_completes DownloadExamples.digest DownloadExamples.env_beta_down
              "out" ["alpha"; "beta"] ∅ 2) as [[H _]|(st & Hst & _ & _ & Hf)].
  - done.
  - simpl. lia.
  - by vm_compute in H.
  - exists st. split; [exact Hst|exact Hf].
Defined.

(** ** The log of completed downloads *)

(** *** Reading a text that was extended by lines *)

Lemma str_app_nil_l s : EmptyString +:+ s = s.
Proof. done. Qed.

Lemma universal_newlines_other a s :
  a ≠ Text.CR →
  Text.universal_newlines (String a s) = String a (Text.universal_newlines s).
Proof. intros Ha%Ascii.eqb_neq. simpl. by rewrite Ha. Qed.

Lemma universal_newlines_cr_lf s :
  Text.universal_newlines (String Text.CR (String Text.LF s))
  = String Text.LF (Text.universal_newlines s).
Proof. done. Qed.

Lemma universal_newlines_cr_other b s :
  b ≠ Text.LF →
  Text.universal_newlines (String Text.CR (String b s))
  = String Text.LF (Text.universal_newlines (String b s)).
Proof.
  intros Hb%Ascii.eqb_neq. cbn [Text.universal_newlines].
  rewrite Ascii.eqb_refl. by rewrite Hb.
Qed.

Lemma universal_newlines_closed_app c t :
  Text.universal_newlines ((c +:+ Text.NL) +:+ t)
  = Text.universal_newlines (c +:+ Text.NL) +:+ Text.universal_newlines t.
Proof.
  remember (String.length c) as n eqn:Hn.
  revert c Hn. induction (lt_wf n) as [n _ IH]. intros c Hn.
  destruct c as [|a c].
  - rewrite str_app_nil_l. unfold Text.NL. rewrite !str_app_cons, str_app_nil_l.
    by rewrite !universal_newlines_other.
  - rewrite !str_app_cons.
    destruct (decide (a = Text.CR)) as [->|Ha].
    + destruct c as [|b c].
      * rewrite str_app_nil_l. unfold Text.NL. rewrite !str_app_cons, str_app_nil_l.
        by rewrite !universal_newlines_cr_lf.
      * rewrite !str_app_cons. destruct (decide (b = Text.LF)) as [->|Hb].
        -- rewrite !universal_newlines_cr_lf, str_app_cons. f_equal.
           apply (IH (String.length c)); [simpl in Hn; lia|done].
        -- rewrite !universal_newlines_cr_other by done. rewrite str_app_cons. f_equal.
           rewrite <- !str_app_cons.
           apply (IH (String.length (String b c))); [simpl in *; lia|done].
    + rewrite !universal_newlines_other by done. rewrite str_app_cons. f_equal.
      apply (IH (String.length c)); [simpl in Hn; lia|done].
Qed.

Lemma universal_newlines_closed c :
  ∃ x, Text.universal_newlines (c +:+ Text.NL) = x +:+ Text.NL.
Proof.
  remember (String.length c) as n eqn:Hn.
  revert c Hn. induction (lt_wf n) as [n _ IH]. intros c Hn.
  destruct c as [|a c]; [by exists EmptyString|].
  rewrite str_app_cons.
  destruct (decide (a = Text.CR)) as [->|Ha].
  - destruct c as [|b c]; [by exists EmptyString|].
    rewrite str_app_cons. destruct (decide (b = Text.LF)) as [->|Hb].
    + rewrite universal_newlines_cr_lf.
      destruct (IH (String.length c)) with (c := c) as [x ->];
        [simpl in Hn; lia|done|].
      by exists (String Text.LF x).
    + rewrite universal_newlines_cr_other by done. rewrite <- str_app_cons.
      destruct (IH (String.length (String b c))) with (c := String b c) as [x ->];
        [simpl in *; lia|done|].
      by exists (String Text.LF x).
  - rewrite universal_newlines_other by done.
    destruct (IH (String.length c)) with (c := c) as [x ->];
      [simpl in Hn; lia|done|].
    by exists (String a x).
Qed.

Lemma readlines_closed_ne a : Text.readlines (a +:+ Text.NL) ≠ [].
Proof.
  induction a as [|c a IH]; [done|]. rewrite str_app_cons. cbn [Text.readlines].
  destruct (Ascii.eqb c Text.LF); [done|].
  by destruct (Text.readlines (a +:+ Text.NL)).
Qed.

Lemma readlines_closed_app a b :
  Text.readlines ((a +:+ Text.NL) +:+ b)
  = Text.readlines (a +:+ Text.NL) ++ Text.readlines b.
Proof.
  induction a as [|c a IH]; [done|]. rewrite !str_app_cons. cbn [Text.readlines].
  destruct (Ascii.eqb c Text.LF); [by rewrite IH|].
  rewrite IH. pose proof (readlines_closed_ne a) as Hne.
  by destruct (Text.readlines (a +:+ Text.NL)).
Qed.

Lemma file_lines_closed_app c l :
  Forall (λ x, Text.no_linebreak x = true) l →
  Text.file_lines ((c +:+ Text.NL) +:+ Text.unlines l)
  = Text.file_lines (c +:+ Text.NL) ++ ((λ x, x +:+ Text.NL) <$> l).
Proof.
  intros Hl. rewrite <- (file_lines_unlines l Hl). unfold Text.file_lines.
  rewrite universal_newlines_closed_app.
  destruct (universal_newlines_closed c) as [x ->].
  apply readlines_closed_app.
Qed.

Lemma unlines_snoc l x :
  Text.unlines (l ++ [x]) = Text.unlines l +:+ x +:+ Text.NL.
Proof.
  induction l as [|y l IH]; simpl.
  - by rewrite str_app_nil_r.
  - by rewrite IH, !str_app_assoc.
Qed.

Lemma closed_text_unlines c l : closed_text c → closed_text (c +:+ Text.unlines l).
Proof.
  intros Hc. destruct l as [|x l] using rev_ind.
  - simpl. by rewrite str_app_nil_r.
  - right. exists (c +:+ Text.unlines l +:+ x).
    by rewrite unlines_snoc, !str_app_assoc.
Qed.

Lemma parse_lines l :
  Forall storable l →
  Text.strip <$> filter (λ line, Text.strip line ≠ EmptyString)
                   ((λ x, x +:+ Text.NL) <$> l) = l.
Proof.
  induction 1 as [|x l (Hx1&Hx2&Hx3&Hx4) _ IH]; [done|].
  rewrite fmap_cons, filter_cons.
  rewrite (strip_line x Hx1 Hx2 Hx3).
  rewrite decide_True by done. rewrite fmap_cons, (strip_line x Hx1 Hx2 Hx3).
  by rewrite IH.
Qed.

Lemma load_default (fs : filesystem) path :
  load_checkpoint fs path
  = list_to_set
      (Text.strip <$> filter (λ line, Text.strip line ≠ EmptyString)
                        (Text.file_lines (default EmptyString (fs !! path)))).
Proof. unfold load_checkpoint. by destruct (fs !! path). Qed.

(** Lines added to a text that is empty or ends with a line feed are read
    back as they are, beside what the text held. *)
Lemma load_closed_app (fs fs' : filesystem) path l :
  closed_text (default EmptyString (fs !! path)) →
  Forall storable l →
  default EmptyString (fs' !! path)
  = default EmptyString (fs !! path) +:+ Text.unlines l →
  load_checkpoint fs' path = load_checkpoint fs path ∪ list_to_set l.
Proof.
  intros Hc Hl Hfs'. rewrite (load_default fs'), (load_default fs), Hfs'.
  assert (Forall (λ x, Text.no_linebreak x = true) l) as Hl'.
  { eapply Forall_impl; [exact Hl|]. by intros x (?&?&?&?). }
  destruct Hc as [->|[c ->]].
  - rewrite str_app_nil_l. rewrite file_lines_unlines, parse_lines by done.
    change (Text.file_lines EmptyString) with (@nil string).
    rewrite filter_nil, fmap_nil, list_to_set_nil. by rewrite (left_id_L ∅ (∪)).
  - rewrite file_lines_closed_app by done.
    rewrite filter_app, fmap_app, list_to_set_app_L. by rewrite parse_lines.
Qed.

(** *** The lines a session adds *)

Lemma appended_app t1 t2 : appended (t1 ++ t2) = appended t1 ++ appended t2.
Proof. apply omap_app. Qed.

Lemma appended_on_exception n σ :
  appended (st_trace (on_exception n σ).2) = appended (st_trace σ).
Proof.
  destruct (on_exception_cases n σ) as [[_ ->]|[_ ->]]; [done|].
  cbn [snd log st_trace]. rewrite appended_app. simpl. by rewrite app_nil_r.
Qed.

Lemma returned_with_insert o ws i s w w' :
  ws !! i = Some (s, w) →
  ∃ rest, returned_with o (<[i := (s, w')]> ws)
            ≡ₚ (if returns o w' then [s] else []) ++ rest
          ∧ returned_with o ws ≡ₚ (if returns o w then [s] else []) ++ rest.
Proof.
  intros Hi. exists (returned_with o (take i ws ++ drop (S i) ws)). split.
  - rewrite insert_take_drop by (by eapply lookup_lt_Some).
    unfold returned_with. rewrite !filter_app, !filter_cons, !fmap_app. cbn [snd].
    destruct (returns o w'); simpl; [by rewrite <- Permutation_middle|done].
  - pose proof (take_drop_middle ws i (s, w) Hi) as Hws.
    set (l1 := take i ws) in *. set (l2 := drop (S i) ws) in *.
    clearbody l1 l2. rewrite <- Hws.
    unfold returned_with. rewrite !filter_app, !filter_cons, !fmap_app. cbn [snd].
    destruct (returns o w); simpl; [by rewrite <- Permutation_middle|done].
Qed.

Section CompletedLog.

Variable sha256 : string → string.
Variable env : environment.
Variable out_dir : string.

Local Abbreviation wstep := (wstep sha256 env out_dir).
Local Abbreviation run := (run sha256 env out_dir).
Local Abbreviation downloadAll := (downloadAll sha256 env out_dir).
Local Abbreviation save_failed := (save_failed out_dir).
Local Abbreviation log_path := (completed_path_of out_dir).

(** A step adds a line to the log exactly when it is the one in which the
    download returns ["ok"]. *)
Lemma wstep_appends slug w σ :
  (returns Ok w = false ∧ (wstep slug w σ).1 = Returned Ok
   ∧ st_fs (wstep slug w σ).2 !! log_path
     = Some (default EmptyString (st_fs σ !! log_path) +:+ slug +:+ Text.NL)
   ∧ appended (st_trace (wstep slug w σ).2) = appended (st_trace σ) ++ [slug])
  ∨ (st_fs (wstep slug w σ).2 !! log_path = st_fs σ !! log_path
     ∧ appended (st_trace (wstep slug w σ).2) = appended (st_trace σ)
     ∧ returns Ok (wstep slug w σ).1 = returns Ok w).
Proof.
  assert (∀ n σ', returns Ok (on_exception n σ').1 = false) as Hret.
  { intros n σ'. rewrite on_exception_state. by destruct (n =? MAX_RETRIES). }
  assert (∀ n σ', st_fs (on_exception n σ').2 = st_fs σ') as Hfs.
  { intros n σ'. by destruct (on_exception_store n σ') as (-> & _). }
  destruct w as [|n|n c|n c|n|o|]; cbn [wstep].
  - right. destruct (makedirs_raises env slug); [done|].
    by destruct (path_exists _ _).
  - right. destruct (net_get env slug n) as [|status c].
    + rewrite Hfs, appended_on_exception, Hret. cbn [log st_fs st_trace].
      rewrite appended_app. simpl. by rewrite app_nil_r.
    + destruct (status =? 200)%Z.
      * cbn [fst snd log st_fs st_trace]. rewrite appended_app. simpl.
        by rewrite app_nil_r.
      * rewrite Hfs, appended_on_exception, Hret. cbn [log st_fs st_trace].
        rewrite appended_app. simpl. by rewrite app_nil_r.
  - right. by destruct (decide _).
  - right. destruct (file_write env slug n).
    + cbn [fst snd log set_fs st_fs st_trace]. rewrite appended_app. simpl.
      rewrite app_nil_r.
      rewrite lookup_insert_ne by apply image_path_ne_completed. done.
    + by rewrite Hfs, appended_on_exception, Hret.
    + rewrite Hfs, appended_on_exception, Hret. cbn [log set_fs st_fs st_trace].
      rewrite appended_app. simpl. rewrite app_nil_r.
      rewrite lookup_insert_ne by apply image_path_ne_completed. done.
  - destruct (append_raises env slug n).
    + right. by rewrite Hfs, appended_on_exception, Hret.
    + left. cbn [fst snd log set_fs st_fs st_trace]. rewrite appended_app.
      unfold append_file. by rewrite lookup_insert_eq.
  - by right.
  - by right.
Qed.

Lemma run_completed_log sched fs ids :
  let st := run sched (submit fs ids) in
  default EmptyString (st_fs (d_store st) !! log_path)
  = default EmptyString (fs !! log_path)
    +:+ Text.unlines (appended (st_trace (d_store st)))
  ∧ appended (st_trace (d_store st)) ≡ₚ returned_with Ok (d_workers st).
Proof.
  apply (run_invariant_workers sha256 env out_dir
           (λ σ ws, default EmptyString (st_fs σ !! log_path)
                    = default EmptyString (fs !! log_path)
                      +:+ Text.unlines (appended (st_trace σ))
                    ∧ appended (st_trace σ) ≡ₚ returned_with Ok ws)).
  - split; [simpl; by rewrite str_app_nil_r|].
    simpl. unfold returned_with.
    induction ids as [|s ids IH]; [done|]. by rewrite fmap_cons, filter_cons.
  - intros σ ws i s w [Hfs Hperm] Hi.
    destruct (returned_with_insert Ok ws i s w (wstep s w σ).1 Hi)
      as (rest & Hnew & Hold).
    destruct (wstep_appends s w σ) as [(Hw & Hw' & Hlog & Happ)|(Hlog & Happ & Hw)].
    + rewrite Hlog, Happ. split.
      * simpl. by rewrite Hfs, unlines_snoc, !str_app_assoc.
      * rewrite Hnew, Hw'. simpl. rewrite Hw in Hold. simpl in Hold.
        by rewrite Hperm, Hold, <- Permutation_cons_append.
    + rewrite Hlog, Happ. split; [done|].
      by rewrite Hnew, Hw, <- Hold.
Qed.

Lemma save_failed_log st :
  st_fs (d_store (save_failed st)) !! log_path = st_fs (d_store st) !! log_path.
Proof.
  apply save_failed_fs_other;
    [apply completed_path_ne_failed|apply completed_path_ne_failed_tmp].
Qed.

(** Lines 130-132 read back by line 182: when the identifiers match the
    identifier pattern, no append to the log raises, and the log of
    completed downloads is absent, empty or ends with a line feed, the log a
    session leaves reads back as what it read before together with the
    identifiers whose download returned ["ok"], and it ends with a line feed
    again. *)
Theorem completed_log_read_back (slugs : list string) (sched : list action)
    (fs : filesystem) (st : dstate) :
  (∀ s, s ∈ slugs → Regex.is_slug s = true) →
  (∀ s n, s ∈ slugs → append_raises env s n = false) →
  closed_text (default EmptyString (fs !! completed_path_of out_dir)) →
  result_state (downloadAll slugs sched fs) = Some st →
  load_checkpoint (st_fs (d_store st)) (completed_path_of out_dir)
  = load_checkpoint fs (completed_path_of out_dir)
    ∪ list_to_set (returned_with Ok (d_workers st))
  ∧ closed_text (default EmptyString (st_fs (d_store st) !! completed_path_of out_dir)).
Proof.
  intros Hslug _ Hclosed Hst.
  assert (∀ s, s ∈ slugs → storable s) as Hstor.
  { intros s Hs. by apply is_slug_storable, Hslug. }
  set (ids := filter (λ s, s ∉ load_checkpoint fs (completed_path_of out_dir)) slugs).
  destruct (run_completed_log sched fs ids) as [Hlog Hperm].
  set (st0 := run sched (submit fs ids)) in *.
  assert (d_workers st = d_workers st0
          ∧ st_fs (d_store st) !! log_path = st_fs (d_store st0) !! log_path)
    as [Hws Hfs].
  { destruct (downloadAll_state _ _ _ _ _ _ _ Hst) as [->| ->]; [done|].
    by rewrite save_failed_workers, save_failed_log. }
  rewrite Hws, <- Hperm. rewrite <- Hfs in Hlog. split.
  - apply load_closed_app; [done| |done].
    apply Forall_forall. intros s Hs. apply Hstor.
    assert (s ∈ ids) as [_ ?]%list_elem_of_filter; [|done].
    rewrite Hperm in Hs. unfold returned_with in Hs.
    apply list_elem_of_fmap in Hs as ([s' w] & -> & Hs).
    apply list_elem_of_filter in Hs as [_ Hs]. simpl.
    unfold st0, ids.
    rewrite <- (submit_slugs fs (filter _ slugs)),
      <- (workers_slugs sha256 env out_dir sched).
    apply list_elem_of_fmap. by exists (s', w).
  - rewrite Hlog. by apply closed_text_unlines.
Qed.

End CompletedLog.

Lemma completed_log_read_back_witness :
  ∃ st, downloadAll DownloadExamples.digest DownloadExamples.env_beta_down "out"
          ["alpha"; "beta"] (sequential 2) ∅ = RunDone st
        ∧ load_checkpoint (st_fs (d_store st)) (completed_path_of "out")
          = load_checkpoint ∅ (completed_path_of "out")
            ∪ list_to_set (returned_with Ok (d_workers st)).
Proof.
  assert (∀ s, s ∈ ["alpha"; "beta"] → Regex.is_slug s = true) as Hstor.
  { intros s Hs. repeat (apply elem_of_cons in Hs as [->|Hs]; [done|]).
    by apply elem_of_nil in Hs. }
  assert (∀ s n, s ∈ ["alpha"; "beta"] →
                 append_raises DownloadExamples.env_beta_down s n = false) as Happ.
  { done. }
  assert (closed_text (default EmptyString
                         ((∅ : filesystem) !! completed_path_of "out"))) as Hc.
  { by left. }
  pose proof (completed_log_read_back DownloadExamples.digest
                DownloadExamples.env_beta_down "out" ["alpha"; "beta"]
                (sequential 2) ∅) as H.
  destruct (downloadAll DownloadExamples.digest DownloadExamples.env_beta_down "out"
              ["alpha"; "beta"] (sequential 2) ∅) as [|st|st|st] eqn:E.
  - vm_compute in E. discriminate E.
  - exists st. split; [reflexivity|]. exact (proj1 (H st Hstor Happ Hc eq_refl)).
  - vm_compute in E. discriminate E.
  - vm_compute in E. discriminate E.
Defined.

(** ** What the download phase leaves alone, and the two phases in sequence *)

Lemma checkpoint_path_ne_completed out_dir :
  checkpoint_path_of out_dir ≠ completed_path_of out_dir.
Proof.
  unfold checkpoint_path_of, completed_path_of. cbn [Path.join foldl].
  rewrite !join2_relative by done. by intros ?%(inj (String.app _)).
Qed.

Lemma checkpoint_path_ne_failed out_dir :
  checkpoint_path_of out_dir ≠ failed_path_of out_dir.
Proof.
  unfold checkpoint_path_of, failed_path_of. cbn [Path.join foldl].
  rewrite !join2_relative by done. by intros ?%(inj (String.app _)).
Qed.

Lemma checkpoint_path_ne_failed_tmp out_dir :
  checkpoint_path_of out_dir ≠ tmp_path_of (failed_path_of out_dir).
Proof.
  intros H%(f_equal Path.last_char).
  by rewrite checkpoint_path_last, tmp_path_last in H.
Qed.

Lemma image_path_ne_checkpoint out_dir slug :
  image_path out_dir slug ≠ checkpoint_path_of out_dir.
Proof.
  intros H%(f_equal Path.last_char).
  by rewrite image_path_last, checkpoint_path_last in H.
Qed.

Lemma requests_elem slug n t : EvGet slug n ∈ t → n ∈ requests slug t.
Proof.
  intros Hin. unfold requests. apply list_elem_of_omap.
  exists (EvGet slug n). split; [done|]. by rewrite decide_True.
Qed.

Lemma slugs_after_slugs listing r s :
  s ∈ slugs_after listing ∅ r → Regex.is_slug s = true.
Proof.
  induction r as [|r IH]; simpl; [by intros ?%elem_of_empty|].
  intros [Hs|Hs]%elem_of_union; [by apply IH|].
  apply elem_of_list_to_set in Hs.
  pose proof (findall_is_slug (default EmptyString (listing (S r)))) as Hall.
  rewrite Forall_forall in Hall. by apply Hall.
Qed.

Section Phases.

Variable sha256 : string → string.
Variable env : environment.
Variable out_dir : string.

Local Abbreviation wstep := (wstep sha256 env out_dir).
Local Abbreviation run := (run sha256 env out_dir).
Local Abbreviation downloadAll := (downloadAll sha256 env out_dir).
Local Abbreviation save_failed := (save_failed out_dir).

Lemma run_fs_other sched fs ids q :
  (∀ s, s ∈ ids → q ≠ image_path out_dir s) →
  q ≠ completed_path_of out_dir →
  st_fs (d_store (run sched (submit fs ids))) !! q = fs !! q.
Proof.
  intros Himg Hlog.
  pose proof (workers_slugs sha256 env out_dir sched (submit fs ids)) as Hids.
  rewrite submit_slugs in Hids. revert Hids.
  apply (run_invariant_workers sha256 env out_dir
           (λ σ ws, ws.*1 = ids → st_fs σ !! q = fs !! q)); [done|].
  intros σ ws i s w Hinv Hi.
  assert ((<[i := (s, (wstep s w σ).1)]> ws).*1 = ws.*1) as ->.
  { rewrite list_fmap_insert. simpl. apply list_insert_id.
    by rewrite list_lookup_fmap, Hi. }
  intros Hids. rewrite wstep_fs_other; [by apply Hinv| |done].
  apply Himg. rewrite <- Hids. apply list_elem_of_fmap.
  exists (s, w). split; [done|]. by eapply list_elem_of_lookup_2.
Qed.

Lemma run_fs_mono sched fs ids q :
  is_Some (fs !! q) → is_Some (st_fs (d_store (run sched (submit fs ids))) !! q).
Proof.
  intros Hq.
  apply (run_invariant_workers sha256 env out_dir
           (λ σ ws, is_Some (st_fs σ !! q))); [done|].
  intros σ ws i s w Hinv Hi. by apply wstep_fs_mono.
Qed.

Lemma result_fs_other slugs sched fs st q :
  result_state (downloadAll slugs sched fs) = Some st →
  (∀ s, s ∈ slugs → q ≠ image_path out_dir s) →
  q ≠ completed_path_of out_dir →
  q ≠ failed_path_of out_dir →
  q ≠ tmp_path_of (failed_path_of out_dir) →
  st_fs (d_store st) !! q = fs !! q.
Proof.
  intros Hst Himg Hlog Hfailed Htmp.
  assert (st_fs (d_store (run sched
            (submit fs (filter (λ s, s ∉ load_checkpoint fs (completed_path_of out_dir))
                          slugs)))) !! q = fs !! q) as Hrun.
  { apply run_fs_other; [|done].
    intros s [_ Hs]%list_elem_of_filter. by apply Himg. }
  destruct (downloadAll_state _ _ _ _ _ _ _ Hst) as [->| ->]; [done|].
  by rewrite save_failed_fs_other.
Qed.

(** Lines 178-217: the discovery and the download phase in sequence, when
    the discovery starts from no checkpoint. Every request for an asset is
    for an identifier the discovery returned, which matches the pattern, in
    an attempt from 1 to [MAX_RETRIES]; the files of two downloads that
    returned ["ok"] have different digests; and the checkpoint file holds the
    discovered identifiers when the download phase is over. *)
Theorem session_fresh (listing : nat → option string) (fuel : nat)
    (sched : list action) (fs : filesystem) (l : list string)
    (st : scrape_state) (st' : dstate) :
  load_checkpoint fs (checkpoint_path_of out_dir) = ∅ →
  scrape_slugs listing (checkpoint_path_of out_dir) fuel fs = ScrapeReturned l st →
  result_state (downloadAll l sched (ss_fs st)) = Some st' →
  (∀ slug n, EvGet slug n ∈ st_trace (d_store st') →
     slug ∈ l ∧ Regex.is_slug slug = true ∧ 1 ≤ n ≤ MAX_RETRIES)
  ∧ (∀ a b ca cb,
       (a, Returned Ok) ∈ d_workers st' → (b, Returned Ok) ∈ d_workers st' → a ≠ b →
       st_fs (d_store st') !! image_path out_dir a = Some ca →
       st_fs (d_store st') !! image_path out_dir b = Some cb →
       sha256 ca ≠ sha256 cb)
  ∧ load_checkpoint (st_fs (d_store st')) (checkpoint_path_of out_dir) = list_to_set l.
Proof.
  intros Hfresh Hscrape Hst'.
  destruct (scrape_returned _ _ _ _ _ _ Hscrape) as (Hnd & Hl & _ & Hsaved).
  rewrite Hfresh in Hl.
  assert (∀ s, s ∈ l → Regex.is_slug s = true) as Hslug.
  { intros s Hs. apply (slugs_after_slugs listing (ss_rounds st)).
    rewrite <- Hl. by apply elem_of_list_to_set. }
  set (ids := filter (λ s, s ∉ load_checkpoint (ss_fs st) (completed_path_of out_dir)) l).
  assert (NoDup ids) as Hids by (by apply NoDup_filter).
  split; [|split].
  - intros slug n Hin.
    assert (EvGet slug n ∈ st_trace (d_store (run sched (submit (ss_fs st) ids))))
      as Hin'.
    { destruct (downloadAll_state _ _ _ _ _ _ _ Hst') as [->| ->]; [done|].
      by eapply save_failed_gets. }
    assert (slug ∈ ids) as Hslug' by (by eapply run_gets).
    pose proof Hslug' as [_ Hsl]%list_elem_of_filter.
    split; [done|]. split; [by apply Hslug|].
    assert (slug ∈ (d_workers (run sched (submit (ss_fs st) ids))).*1) as Hw.
    { by rewrite workers_slugs, submit_slugs. }
    apply list_elem_of_fmap in Hw as ([s w] & -> & Hw).
    apply list_elem_of_lookup in Hw as [i Hi].
    destruct (run_requests sha256 env out_dir sched (ss_fs st) ids Hids i s w Hi)
      as (k & Hreq & Hle & _).
    apply requests_elem in Hin'. simpl in Hin'. rewrite Hreq in Hin'.
    apply elem_of_seq in Hin'. lia.
  - apply (result_holds sha256 env out_dir l sched (ss_fs st) st'); [done| |done].
    intros s Hs. by apply is_slug_relative, Hslug.
  - rewrite <- Hsaved. unfold load_checkpoint.
    rewrite (result_fs_other l sched (ss_fs st) st'); [done|done| | | |].
    + intros s _ H. by apply (image_path_ne_checkpoint out_dir s).
    + apply checkpoint_path_ne_completed.
    + apply checkpoint_path_ne_failed.
    + apply checkpoint_path_ne_failed_tmp.
Qed.

End Phases.

Lemma session_fresh_witness :
  ∃ l st st',
    scrape_slugs Examples.listing3 (checkpoint_path_of "out") 5 ∅ = ScrapeReturned l st
    ∧ downloadAll DownloadExamples.digest DownloadExamples.env_up "out" l
        (sequential 3) (ss_fs st) = RunDone st'
    ∧ load_checkpoint (st_fs (d_store st')) (checkpoint_path_of "out") = list_to_set l.
Proof.
  assert (load_checkpoint ∅ (checkpoint_path_of "out") = ∅) as Hfresh
    by reflexivity.
  pose proof (session_fresh DownloadExamples.digest DownloadExamples.env_up "out"
                Examples.listing3 5 (sequential 3) ∅) as H.
  destruct (scrape_slugs Examples.listing3 (checkpoint_path_of "out") 5 ∅)
    as [l st| |] eqn:E.
  - exists l, st. specialize (H l st).
    destruct (downloadAll DownloadExamples.digest DownloadExamples.env_up "out" l
                (sequential 3) (ss_fs st)) as [|st'|st'|st'] eqn:E'.
    + clear H. vm_compute in E. injection E as <- <-. vm_compute in E'.
      discriminate E'.
    + exists st'. split; [reflexivity|]. split; [reflexivity|].
      exact (proj2 (proj2 (H st' Hfresh eq_refl eq_refl))).
    + clear H. vm_compute in E. injection E as <- <-. vm_compute in E'.
      discriminate E'.
    + clear H. vm_compute in E. injection E as <- <-. vm_compute in E'.
      discriminate E'.
  - clear H. vm_compute in E. discriminate E.
  - clear H. vm_compute in E. discriminate E.
Defined.

(** ** The files of the output folder by name *)

Lemma is_name_spec n :
  is_name n = true →
  n ≠ EmptyString ∧ n ≠ "." ∧ n ≠ ".."
  ∧ Forall (λ c, c ≠ Path.SEP) (Text.chars n).
Proof.
  unfold is_name. rewrite !andb_true_iff, !negb_true_iff.
  intros [[[H1 H2] H3] H4]. apply String.eqb_neq in H1, H2, H3.
  repeat split; try done.
  apply Forall_forall. intros c Hc%list_elem_of_In.
  rewrite forallb_forall in H4. apply H4 in Hc.
  by apply negb_true_iff, Ascii.eqb_neq in Hc.
Qed.

Lemma sepfree_starts n :
  Forall (λ c, c ≠ Path.SEP) (Text.chars n) → Path.starts_with_sep n = false.
Proof.
  destruct n as [|c n]; [done|]. simpl. intros [Hc _]%Forall_cons.
  by apply Ascii.eqb_neq.
Qed.

Lemma sepfree_ends n :
  Forall (λ c, c ≠ Path.SEP) (Text.chars n) → Path.ends_with_sep n = false.
Proof.
  induction n as [|c n IH]; [done|]. simpl. intros [Hc Hn]%Forall_cons.
  destruct n as [|d n]; [by apply Ascii.eqb_neq|]. by apply IH.
Qed.

Lemma ends_with_sep_app s t :
  t ≠ EmptyString → Path.ends_with_sep (s +:+ t) = Path.ends_with_sep t.
Proof.
  intros Ht. induction s as [|c s IH]; [done|].
  rewrite str_app_cons. simpl. rewrite IH.
  destruct (s +:+ t) eqn:E; [|done].
  destruct s; [|done]. by destruct t.
Qed.

Lemma str_app_ne_r s t : t ≠ EmptyString → s +:+ t ≠ EmptyString.
Proof. intros Ht. destruct s; [done|]. by rewrite str_app_cons. Qed.

Lemma concat_cons2 sep x y l :
  String.concat sep (x :: y :: l) = x +:+ sep +:+ String.concat sep (y :: l).
Proof. done. Qed.

Lemma concat_snoc sep l x :
  l ≠ [] → String.concat sep (l ++ [x]) = String.concat sep l +:+ sep +:+ x.
Proof.
  induction l as [|y l IH]; [done|]. intros _.
  destruct l as [|z l]; [done|].
  change ((y :: z :: l) ++ [x]) with (y :: z :: (l ++ [x])).
  rewrite !concat_cons2. change (z :: (l ++ [x])) with ((z :: l) ++ [x]).
  rewrite IH by done. by rewrite !str_app_assoc.
Qed.

Lemma concat_names_ends l :
  l ≠ [] → Forall (λ n, is_name n = true) l →
  String.concat "/" l ≠ EmptyString ∧ Path.ends_with_sep (String.concat "/" l) = false.
Proof.
  induction l as [|n l IH]; [done|]. intros _ [Hn Hl]%Forall_cons.
  apply is_name_spec in Hn as (Hne & _ & _ & Hfree).
  destruct l as [|m l].
  - split; [done|]. by apply sepfree_ends.
  - destruct (IH ltac:(done) Hl) as [IH1 IH2]. rewrite concat_cons2. split.
    + apply str_app_ne_r, str_app_ne_r, IH1.
    + rewrite ends_with_sep_app by (by apply str_app_ne_r).
      by rewrite ends_with_sep_app.
Qed.

(** [os.path.join] of a folder and proper names. *)
Lemma join_names out_dir l :
  l ≠ [] → Forall (λ n, is_name n = true) l →
  Path.join out_dir l = Path.join_prefix out_dir +:+ String.concat "/" l.
Proof.
  induction l as [|n l IH] using rev_ind; [done|]. intros _ H.
  apply Forall_app in H as [Hl Hn].
  apply (proj1 (Forall_singleton _ _)) in Hn. apply is_name_spec in Hn as (Hne & _ & _ & Hfree).
  unfold Path.join in *. rewrite foldl_app. cbn [foldl].
  rewrite join2_relative by (by apply sepfree_starts).
  destruct (decide (l = [])) as [->|Hl'] ; [done|].
  rewrite IH, concat_snoc by done.
  destruct (concat_names_ends l Hl' Hl) as [H1 H2].
  unfold Path.join_prefix at 1.
  rewrite bool_decide_eq_false_2 by (by apply str_app_ne_r).
  rewrite ends_with_sep_app, H2 by done. simpl.
  by rewrite !str_app_assoc.
Qed.

Lemma sep_app r : "/" +:+ r = String Path.SEP r.
Proof. done. Qed.

Lemma sepfree_prefix_inj n m r r' :
  Forall (λ c, c ≠ Path.SEP) (Text.chars n) →
  Forall (λ c, c ≠ Path.SEP) (Text.chars m) →
  n +:+ "/" +:+ r = m +:+ "/" +:+ r' → n = m ∧ r = r'.
Proof.
  revert m. induction n as [|c n IH]; intros [|d m] Hn Hm H.
  - rewrite !str_app_nil_l, !sep_app in H. by injection H as ->.
  - rewrite str_app_cons, str_app_nil_l, sep_app in H. injection H as <- _.
    by apply Forall_cons in Hm as [? _].
  - rewrite str_app_cons, str_app_nil_l, sep_app in H. injection H as -> _.
    by apply Forall_cons in Hn as [? _].
  - rewrite !str_app_cons in H. injection H as -> H.
    apply Forall_cons in Hn as [_ Hn], Hm as [_ Hm].
    destruct (IH m Hn Hm H) as [-> ->]. done.
Qed.

Lemma sepfree_whole n m r :
  Forall (λ c, c ≠ Path.SEP) (Text.chars n) → n ≠ m +:+ "/" +:+ r.
Proof.
  intros Hn ->. rewrite sep_app, chars_app in Hn.
  apply Forall_app in Hn as [_ Hn]. by apply Forall_cons in Hn as [? _].
Qed.

Lemma concat_names_inj l k :
  Forall (λ n, is_name n = true) l → Forall (λ n, is_name n = true) k →
  l ≠ [] → k ≠ [] →
  String.concat "/" l = String.concat "/" k → l = k.
Proof.
  revert k. induction l as [|n l IH]; [done|].
  intros [|m k] [Hn Hl]%Forall_cons Hk _ Hne; [done|].
  apply Forall_cons in Hk as [Hm Hk].
  apply is_name_spec in Hn as (_ & _ & _ & Hn), Hm as (_ & _ & _ & Hm).
  destruct l as [|n' l], k as [|m' k].
  - by intros [= ->].
  - rewrite concat_cons2. cbn [String.concat]. intros H.
    by destruct (sepfree_whole n m (String.concat "/" (m' :: k)) Hn).
  - rewrite concat_cons2. cbn [String.concat]. intros H.
    by destruct (sepfree_whole m n (String.concat "/" (n' :: l)) Hm).
  - rewrite !concat_cons2. intros [-> H]%sepfree_prefix_inj; [|done..].
    f_equal. by apply IH.
Qed.

(** Different lists of proper names are joined to different paths. *)
Lemma join_names_inj out_dir l k :
  Forall (λ n, is_name n = true) l → Forall (λ n, is_name n = true) k →
  l ≠ [] → k ≠ [] →
  Path.join out_dir l = Path.join out_dir k → l = k.
Proof.
  intros Hl Hk Hl' Hk'. rewrite !join_names by done.
  intros H%(inj (String.app _)). by apply concat_names_inj.
Qed.

Lemma image_path_names out_dir slug :
  image_path out_dir slug = Path.join out_dir (image_names slug).
Proof. done. Qed.

Lemma slug_char_sep c : Regex.slug_char c = true → c ≠ Path.SEP.
Proof. intros Hc ->. by vm_compute in Hc. Qed.

Lemma slug_sepfree s :
  Regex.all_slug_chars s = true → Forall (λ c, c ≠ Path.SEP) (Text.chars s).
Proof.
  induction s as [|c s IH]; [constructor|].
  cbn [Regex.all_slug_chars]. intros [Hc Hs]%andb_true_iff.
  constructor; [by apply slug_char_sep|by apply IH].
Qed.

Lemma image_name_proper slug :
  Regex.is_slug slug = true → is_name (slug +:+ ".png") = true.
Proof.
  intros Hs. unfold is_name. rewrite !andb_true_iff, !negb_true_iff.
  assert (5 ≤ String.length (slug +:+ ".png")) as Hlen.
  { rewrite str_app_length. destruct slug; [done|]. simpl. lia. }
  repeat split.
  - apply String.eqb_neq. intros E. rewrite E in Hlen. simpl in Hlen. lia.
  - apply String.eqb_neq. intros E. rewrite E in Hlen. simpl in Hlen. lia.
  - apply String.eqb_neq. intros E. rewrite E in Hlen. simpl in Hlen. lia.
  - apply forallb_forall. intros c Hc%list_elem_of_In.
    apply negb_true_iff, Ascii.eqb_neq.
    rewrite chars_app in Hc. apply elem_of_app in Hc as [Hc|Hc].
    + pose proof (slug_sepfree slug (is_slug_all slug Hs)) as Hall.
      rewrite Forall_forall in Hall. by apply Hall.
    + simpl in Hc. intros ->.
      repeat (apply elem_of_cons in Hc as [Hc|Hc]; [discriminate Hc|]).
      by apply elem_of_nil in Hc.
Qed.

Lemma image_names_proper slug :
  Regex.is_slug slug = true → Forall (λ n, is_name n = true) (image_names slug).
Proof.
  intros Hs. unfold image_names.
  repeat (constructor; [reflexivity|]).
  constructor; [by apply image_name_proper|constructor].
Qed.

Lemma tmp_path_names out_dir name :
  Path.starts_with_sep name = false →
  tmp_path_of (Path.join out_dir [name]) = Path.join out_dir [name +:+ ".tmp"].
Proof.
  intros Hn. unfold tmp_path_of. cbn [Path.join foldl].
  rewrite !join2_relative; [by rewrite str_app_assoc| |done].
  destruct name; [done|]. by rewrite str_app_cons.
Qed.

(** Lines 100-103 and 145-147: for an identifier that matches the pattern,
    the image file is the entry [<slug>.png] reached from the output folder
    through [piixes.com], [api], [icon] and [512], all of them proper names
    (not empty, without separator, neither [.] nor [..]); different
    identifiers have different entries; the checkpoint, the completed log,
    the failed list and the temporary files are entries of the output folder
    itself, with proper names; and [os.path.join] gives different paths for
    different lists of proper names, so none of these files is another. *)
Theorem image_paths_separate (out_dir a b : string) :
  Regex.is_slug a = true → Regex.is_slug b = true →
  (image_path out_dir a = Path.join out_dir (image_names a)
   ∧ Forall (λ n, is_name n = true) (image_names a))
  ∧ (a ≠ b →
     image_names a ≠ image_names b
     ∧ image_path out_dir a ≠ image_path out_dir b)
  ∧ ([checkpoint_path_of out_dir; tmp_path_of (checkpoint_path_of out_dir);
      completed_path_of out_dir;
      failed_path_of out_dir; tmp_path_of (failed_path_of out_dir)]
     = (λ n, Path.join out_dir [n])
         <$> [CHECKPOINT_NAME; CHECKPOINT_NAME +:+ ".tmp"; COMPLETED_NAME;
              FAILED_NAME; FAILED_NAME +:+ ".tmp"]
     ∧ Forall (λ n, is_name n = true)
         [CHECKPOINT_NAME; CHECKPOINT_NAME +:+ ".tmp"; COMPLETED_NAME;
          FAILED_NAME; FAILED_NAME +:+ ".tmp"])
  ∧ (∀ l k, Forall (λ n, is_name n = true) l → Forall (λ n, is_name n = true) k →
            l ≠ [] → k ≠ [] → Path.join out_dir l = Path.join out_dir k → l = k).
Proof.
  intros Ha Hb. split; [|split; [|split]].
  - split; [done|by apply image_names_proper].
  - intros Hab.
    assert (image_names a ≠ image_names b) as Hne.
    { unfold image_names. intros [= H]. by apply app_inj_r in H. }
    split; [done|]. rewrite !image_path_names. intros H. apply Hne.
    apply (join_names_inj out_dir); try done; by apply image_names_proper.
  - split; [|by repeat constructor]. cbn [fmap list_fmap].
    unfold checkpoint_path_of, completed_path_of, failed_path_of.
    by rewrite !tmp_path_names.
  - apply join_names_inj.
Qed.

Lemma image_paths_separate_witness :
  image_path "out" "cat" = "out/piixes.com/api/icon/512/cat.png"
  ∧ image_path "out" "cat" ≠ image_path "out" "dog-2".
Proof.
  destruct (image_paths_separate "out" "cat" "dog-2") as ([H1 _] & H2 & _).
  - reflexivity.
  - reflexivity.
  - split; [by rewrite H1|]. apply H2. discriminate.
Defined.

Section Frame.

Variable sha256 : string → string.
Variable env : environment.
Variable out_dir : string.

Local Abbreviation run := (run sha256 env out_dir).
Local Abbreviation downloadAll := (downloadAll sha256 env out_dir).
Local Abbreviation save_failed := (save_failed out_dir).

(** Lines 98-139 and 199-217, for identifiers that match the pattern and a
    file of the output folder that is reached by proper names: the download
    phase does not remove it unless it is the temporary file of the failed
    list, and does not change it unless it is the image file of one of the
    identifiers, the log of completed downloads, the failed list or that
    temporary file. *)
Theorem download_phase_frame (slugs : list string) (sched : list action)
    (fs : filesystem) (st : dstate) (names : list string) :
  (∀ s, s ∈ slugs → Regex.is_slug s = true) →
  Forall (λ n, is_name n = true) names → names ≠ [] →
  result_state (downloadAll slugs sched fs) = Some st →
  names ≠ [FAILED_NAME +:+ ".tmp"] →
  (is_Some (fs !! Path.join out_dir names) →
   is_Some (st_fs (d_store st) !! Path.join out_dir names))
  ∧ ((∀ s, s ∈ slugs → names ≠ image_names s) →
     names ≠ [COMPLETED_NAME] → names ≠ [FAILED_NAME] →
     st_fs (d_store st) !! Path.join out_dir names = fs !! Path.join out_dir names).
Proof.
  intros Hslug Hnames Hne Hst Htmp.
  assert (∀ name, is_name name = true → names ≠ [name] →
                  Path.join out_dir names ≠ Path.join out_dir [name]) as Hother.
  { intros name Hname Hn H. apply Hn.
    apply (join_names_inj out_dir); try done. by apply Forall_singleton. }
  assert (Path.join out_dir names ≠ tmp_path_of (failed_path_of out_dir)) as Htmp'.
  { unfold failed_path_of. rewrite tmp_path_names by done. by apply Hother. }
  split.
  - intros Hq.
    destruct (downloadAll_state _ _ _ _ _ _ _ Hst) as [->| ->].
    + by apply run_fs_mono.
    + apply save_failed_fs_mono; [done|]. by apply run_fs_mono.
  - intros Himg Hlog Hfailed.
    apply (result_fs_other sha256 env out_dir slugs sched fs st); try done.
    + intros s Hs. rewrite image_path_names. intros H. apply (Himg s Hs).
      apply (join_names_inj out_dir); try done. by apply image_names_proper, Hslug.
    + by apply Hother.
    + by apply Hother.
Qed.

End Frame.

Lemma download_phase_frame_witness :
  ∃ st, downloadAll DownloadExamples.digest DownloadExamples.env_beta_down "out"
          ["alpha"; "beta"] (sequential 2) MoreExamples.fs_notes = RunDone st
        ∧ st_fs (d_store st) !! "out/notes.txt" = Some "keep".
Proof.
  assert (∀ s, s ∈ ["alpha"; "beta"] → Regex.is_slug s = true) as Hslug.
  { intros s Hs. repeat (apply elem_of_cons in Hs as [->|Hs]; [done|]).
    by apply elem_of_nil in Hs. }
  pose proof (download_phase_frame DownloadExamples.digest
                DownloadExamples.env_beta_down "out" ["alpha"; "beta"]
                (sequential 2) MoreExamples.fs_notes) as H.
  destruct (downloadAll DownloadExamples.digest DownloadExamples.env_beta_down "out"
              ["alpha"; "beta"] (sequential 2) MoreExamples.fs_notes)
    as [|st|st|st] eqn:E.
  - vm_compute in E. discriminate E.
  - exists st. split; [reflexivity|].
    destruct (H st ["notes.txt"] Hslug) as [_ Hq];
      [by repeat constructor|done|reflexivity|discriminate|].
    clear H E. change "out/notes.txt" with (Path.join "out" ["notes.txt"]).
    rewrite Hq; [reflexivity| |discriminate..].
    intros s Hs. discriminate.
  - vm_compute in E. discriminate E.
  - vm_compute in E. discriminate E.
Defined.
